(** * ImageLoadQueue: the bounded, prioritised image loader of static/js/main.js

    A shallow embedding of the class [ImageLoadQueue] (main.js, lines 9-232)
    and of the part of the browser it acts on.

    JavaScript runs the loader on one thread: a call runs to its next
    [await], and the code after an [await] runs, again without interruption,
    when the awaited promise settles.  The embedding follows that shape.  The
    synchronous pieces of the class are functions on a [World]; every
    settlement of a promise or expiry of a timer is an [Event], and [step]
    runs the piece of code that the event resumes.

    Modelling conventions:
    - numbers ([priority], [running], [retries], delays) are integers [Z];
      NaN, infinities and fractions are not modelled;
    - a DOM element is a record in a store indexed by references, so that two
      queue entries may alias one element; only the loader writes to the
      store (no other code of main.js touches [data-src], [src], [id] or the
      three classes of an element it has handed over);
    - a queue entry is reached through one reference at a time (the queue
      array, then the call of [loadImage], then the closure of the timer),
      so entries are values;
    - [Array.prototype.sort] is the stable sort that ECMAScript 2019 requires;
    - what the browser decides (does a cache call throw, does an image load,
      which string does [Math.random] give) comes with the event;
    - a cache lookup reads the cache at the moment it settles;
    - [cacheImage], which the loader starts and never awaits, goes on as a
      call of its own: it is suspended at each of its [await]s, and each
      settlement is an event like those of [loadImage];
    - a priority is a JavaScript number that holds an integer: the only
      arithmetic on it that can round, [priority - 1], rounds as a double
      does. *)

From Stdlib Require Import ZArith Lia.
From stdpp Require Import base tactics option list sorting strings functions gmap.

Local Open Scope Z_scope.

(** ** Data *)

Abbreviation ElemRef := nat.
Abbreviation Blob := string.

(** An [<img>] element: the properties the loader reads or writes. *)
Record Element := mkElement {
  el_id : string;
  el_dataset_src : option string;
  el_src : string;
  el_classList : list string
}.

(** An entry of [this.queue], as built by [addImage]. *)
Record QueueItem := mkItem {
  element : ElemRef;
  priority : Z;
  retries : Z;
  timestamp : Z
}.

(** Where a call of [loadImage] is suspended. *)
Inductive Phase := AwaitCache | AwaitNetwork.

(** A suspended call of [loadImage]: its argument, the [imageUrl] it read on
    entry, and the [await] it is waiting at. *)
Record Execution := mkExec {
  ex_item : QueueItem;
  ex_url : string;
  ex_phase : Phase
}.

(** Where a call of [cacheImage] is suspended: at [caches.open], at [fetch],
    or at [cache.put] with the body of the response it is storing. *)
Inductive FillPhase :=
| AwaitOpen
| AwaitFetch
| AwaitPut (body : Blob).

(** A suspended call of [cacheImage]: its arguments [url] and [src], and the
    [await] it is waiting at. *)
Record Fill := mkFill {
  fl_url : string;
  fl_src : string;
  fl_phase : FillPhase
}.

(** A pending [setTimeout] of the retry branch.  The callback closes over
    [element] and [queueItem]; [tm_delay] is the delay it was armed with. *)
Record Timer := mkTimer {
  tm_element : ElemRef;
  tm_item : QueueItem;
  tm_delay : Z
}.

(** A request that leaves the browser: an image load started by assigning
    [img.src], or a [fetch]. *)
Inductive NetRequest :=
| ImgLoad (url : string)
| Fetch (url : string).

(** The fields of the [ImageLoadQueue] object, followed by the environment:
    the DOM, the suspended executions, the armed timers, the Cache API, the
    object-URL registry, two histories kept for the statements below
    ([netlog]: every request issued; [running_trace]: every value written to
    [this.running], latest first), and the suspended calls of
    [cacheImage]. *)
Record World := mkWorld {
  queue : list QueueItem;
  running : Z;
  maxConcurrent : Z;
  cacheName : string;
  maxRetries : Z;
  retryDelay : Z;
  dom : ElemRef -> Element;
  executions : list Execution;
  timers : list Timer;
  hasCaches : bool;
  cacheStore : gmap string Blob;
  objectUrls : gmap string Blob;
  netlog : list NetRequest;
  running_trace : list Z;
  fills : list Fill
}.

Definition set_queue (q : list QueueItem) (w : World) : World :=
  mkWorld q (running w) (maxConcurrent w) (cacheName w) (maxRetries w)
    (retryDelay w) (dom w) (executions w) (timers w) (hasCaches w)
    (cacheStore w) (objectUrls w) (netlog w) (running_trace w) (fills w).

(** Every assignment to [this.running] is recorded. *)
Definition set_running (r : Z) (w : World) : World :=
  mkWorld (queue w) r (maxConcurrent w) (cacheName w) (maxRetries w)
    (retryDelay w) (dom w) (executions w) (timers w) (hasCaches w)
    (cacheStore w) (objectUrls w) (netlog w) (r :: running_trace w) (fills w).

Definition set_dom (d : ElemRef -> Element) (w : World) : World :=
  mkWorld (queue w) (running w) (maxConcurrent w) (cacheName w) (maxRetries w)
    (retryDelay w) d (executions w) (timers w) (hasCaches w)
    (cacheStore w) (objectUrls w) (netlog w) (running_trace w) (fills w).

Definition set_executions (e : list Execution) (w : World) : World :=
  mkWorld (queue w) (running w) (maxConcurrent w) (cacheName w) (maxRetries w)
    (retryDelay w) (dom w) e (timers w) (hasCaches w)
    (cacheStore w) (objectUrls w) (netlog w) (running_trace w) (fills w).

Definition set_timers (t : list Timer) (w : World) : World :=
  mkWorld (queue w) (running w) (maxConcurrent w) (cacheName w) (maxRetries w)
    (retryDelay w) (dom w) (executions w) t (hasCaches w)
    (cacheStore w) (objectUrls w) (netlog w) (running_trace w) (fills w).

Definition set_cacheStore (c : gmap string Blob) (w : World) : World :=
  mkWorld (queue w) (running w) (maxConcurrent w) (cacheName w) (maxRetries w)
    (retryDelay w) (dom w) (executions w) (timers w) (hasCaches w)
    c (objectUrls w) (netlog w) (running_trace w) (fills w).

Definition set_objectUrls (o : gmap string Blob) (w : World) : World :=
  mkWorld (queue w) (running w) (maxConcurrent w) (cacheName w) (maxRetries w)
    (retryDelay w) (dom w) (executions w) (timers w) (hasCaches w)
    (cacheStore w) o (netlog w) (running_trace w) (fills w).

Definition set_fills (f : list Fill) (w : World) : World :=
  mkWorld (queue w) (running w) (maxConcurrent w) (cacheName w) (maxRetries w)
    (retryDelay w) (dom w) (executions w) (timers w) (hasCaches w)
    (cacheStore w) (objectUrls w) (netlog w) (running_trace w) f.

Definition log_request (r : NetRequest) (w : World) : World :=
  mkWorld (queue w) (running w) (maxConcurrent w) (cacheName w) (maxRetries w)
    (retryDelay w) (dom w) (executions w) (timers w) (hasCaches w)
    (cacheStore w) (objectUrls w) (netlog w ++ [r]) (running_trace w) (fills w).

(** ** JavaScript values *)

(** A string is truthy unless it is empty; [undefined] is falsy. *)
Definition truthy (s : string) : bool := negb (String.eqb s "").

Definition truthy_opt (o : option string) : bool :=
  match o with Some s => truthy s | None => false end.

(** Reading a property that may be [undefined] where a string is expected. *)
Definition to_string (o : option string) : string :=
  match o with Some s => s | None => "undefined" end.

(** ** DOM operations *)

Definition set_el_id (s : string) (e : Element) : Element :=
  mkElement s (el_dataset_src e) (el_src e) (el_classList e).

Definition set_el_src (s : string) (e : Element) : Element :=
  mkElement (el_id e) (el_dataset_src e) s (el_classList e).

Definition delete_dataset_src (e : Element) : Element :=
  mkElement (el_id e) None (el_src e) (el_classList e).

(** [classList.add(c)]: a token list holds each token once. *)
Definition classList_add (c : string) (e : Element) : Element :=
  mkElement (el_id e) (el_dataset_src e) (el_src e)
    (if bool_decide (c ∈ el_classList e) then el_classList e
     else el_classList e ++ [c]).

(** [classList.remove(c)]. *)
Definition classList_remove (c : string) (e : Element) : Element :=
  mkElement (el_id e) (el_dataset_src e) (el_src e)
    (filter (fun x => x ≠ c) (el_classList e)).

(** Mutating the element behind a reference. *)
Definition update_element (r : ElemRef) (f : Element -> Element) (w : World)
  : World :=
  set_dom (<[r := f (dom w r)]> (dom w)) w.

Definition placeholder : string := "/static/images/viedeo_material_default.png".

(** ** Sorting the queue

    [this.queue.sort((a, b) => b.priority - a.priority)].  A stable sort has
    one possible result for a given comparator, so any stable algorithm
    models it; this one inserts from the right, placing an entry before the
    first entry it does not compare greater than. *)

Definition byPriority (a b : QueueItem) : Z := priority b - priority a.

Fixpoint insert_sorted (cmp : QueueItem -> QueueItem -> Z) (x : QueueItem)
    (l : list QueueItem) : list QueueItem :=
  match l with
  | [] => [x]
  | y :: l' => if cmp x y <=? 0 then x :: l else y :: insert_sorted cmp x l'
  end.

Fixpoint sort (cmp : QueueItem -> QueueItem -> Z) (l : list QueueItem)
    : list QueueItem :=
  match l with
  | [] => []
  | x :: l' => insert_sorted cmp x (sort cmp l')
  end.

(** ** The scheduler *)

Definition set_priority (p : Z) (it : QueueItem) : QueueItem :=
  mkItem (element it) p (retries it) (timestamp it).

Definition set_retries (n : Z) (it : QueueItem) : QueueItem :=
  mkItem (element it) (priority it) n (timestamp it).

(** [clear()] (lines 34-36). *)
Definition clear (w : World) : World := set_queue [] w.

(** [completeImage(imgElement)] (lines 216-222).  [processQueue] is the
    method it calls last. *)
Definition completeImage (processQueue : World -> World) (imgElement : ElemRef)
    (w : World) : World :=
  let w1 :=
    if truthy_opt (el_dataset_src (dom w imgElement))
    then update_element imgElement delete_dataset_src w
    else w in
  let w2 := set_running (running w1 - 1) w1 in
  processQueue w2.

(** [loadImage(queueItem)] up to its first [await] (lines 84-98): what the
    call does before it returns its promise to [processQueue]. *)
Definition loadImage_begin (processQueue : World -> World)
    (queueItem : QueueItem) (w : World) : World :=
  let imageUrl := el_dataset_src (dom w (element queueItem)) in
  if negb (truthy_opt imageUrl) then
    completeImage processQueue (element queueItem) w
  else
    let w1 := set_running (running w + 1) w in
    set_executions
      (executions w1 ++ [mkExec queueItem (to_string imageUrl) AwaitCache]) w1.

(** [processQueue()] (lines 75-81).  The loop calls [loadImage], which may
    call [completeImage], which calls [processQueue] again; [fuel] bounds the
    depth of that recursion and the number of iterations.  Each iteration
    removes an entry, so [S (length queue)] is always enough
    ([processQueue_fuel_enough] below). *)
Fixpoint processQueue_fuel (fuel : nat) (w : World) : World :=
  match fuel with
  | O => w
  | S fuel' =>
      if (running w <? maxConcurrent w) && (0 <? Z.of_nat (length (queue w)))
      then
        match queue w with
        | [] => w
        | queueItem :: rest =>
            let w1 := set_queue rest w in
            let w2 := loadImage_begin (processQueue_fuel fuel') queueItem w1 in
            processQueue_fuel fuel' w2
        end
      else w
  end.

Definition processQueue (w : World) : World :=
  processQueue_fuel (S (length (queue w))) w.

(** [addImage(imgElement, priority = 0)] (lines 39-72).  [rnd] is the string
    [Math.random().toString(36).substr(2, 9)] and [now] is [Date.now()]. *)
Definition addImage (imgElement : option ElemRef) (priority_arg : option Z)
    (rnd : string) (now : Z) (w : World) : World :=
  let priority := default 0 priority_arg in
  match imgElement with
  | None => w
  | Some el =>
      if negb (truthy_opt (el_dataset_src (dom w el))) then w
      else
        let imageId :=
          if truthy (el_id (dom w el)) then el_id (dom w el)
          else "img-" +:+ rnd in
        let w1 :=
          update_element el
            (fun e => set_el_id (if truthy (el_id e) then el_id e else imageId) e)
            w in
        match list_find (fun item => el_id (dom w1 (element item)) = imageId)
                (queue w1) with
        | Some (existingIndex, _) =>
            let q := alter (set_priority priority) existingIndex (queue w1) in
            set_queue (sort byPriority q) w1
        | None =>
            let q := queue w1 ++ [mkItem el priority 0 now] in
            processQueue (set_queue (sort byPriority q) w1)
        end
  end.

(** [getQueueStatus()] (lines 225-231). *)
Record QueueStatus := mkStatus {
  st_queued : Z;
  st_running : Z;
  st_maxConcurrent : Z
}.

Definition getQueueStatus (w : World) : QueueStatus :=
  mkStatus (Z.of_nat (length (queue w))) (running w) (maxConcurrent w).

(** ** Code that can throw

    A computation changes the world and either completes normally or throws.
    What it did before throwing stays done. *)

Inductive Exception :=
| CacheFailure (what : string)
| FetchFailure
| ImageErrorEvent
| LoadTimeout.

Inductive Completion (A : Type) :=
| Normal (a : A)
| Throw (e : Exception).
Arguments Normal {A} a.
Arguments Throw {A} e.

Definition M (A : Type) : Type := World -> Completion A * World.

Definition ret {A} (a : A) : M A := fun w => (Normal a, w).

Definition throw {A} (e : Exception) : M A := fun w => (Throw e, w).

Definition bind {A B} (m : M A) (k : A -> M B) : M B :=
  fun w =>
    match m w with
    | (Normal a, w1) => k a w1
    | (Throw e, w1) => (Throw e, w1)
    end.

Definition gets {A} (f : World -> A) : M A := fun w => (Normal (f w), w).

Definition modify (f : World -> World) : M unit := fun w => (Normal tt, f w).

(** [try { m } catch (error) { handler(error) }]. *)
Definition try_catch {A} (m : M A) (handler : Exception -> M A) : M A :=
  fun w =>
    match m w with
    | (Normal a, w1) => (Normal a, w1)
    | (Throw e, w1) => handler e w1
    end.

(** Calling an async function without [await]: the caller gets a promise
    and never sees how it settles. *)
Definition spawn (m : M unit) : M unit :=
  fun w => (Normal tt, snd (m w)).

Notation "'let*' x := m 'in' k" := (bind m (fun x => k))
  (at level 10, x name, m at level 100, k at level 200).
Notation "m >> k" := (bind m (fun _ => k))
  (at level 100, k at level 200, right associativity).

(** ** The Cache API and the network, as the loader sees them *)

(** What the calls made by one [getCachedImage] do. *)
Record ReadIO := mkReadIO {
  r_open_fails : bool;      (* caches.open rejects *)
  r_match_fails : bool;     (* cache.match rejects *)
  r_blob_fails : bool;      (* response.blob rejects *)
  r_uuid : string           (* the name URL.createObjectURL picks *)
}.

Inductive FetchResult :=
| FetchRejected
| FetchResponse (ok : bool) (body : Blob).

(** What the calls made by one [cacheImage] do, when the call is looked at
    from start to end. *)
Record WriteIO := mkWriteIO {
  w_open_fails : bool;      (* caches.open rejects *)
  w_fetch : FetchResult;    (* how fetch(src) settles *)
  w_put_fails : bool        (* cache.put rejects *)
}.

(** How the [Image] created by [loadImageFromNetwork] ends: [onload] (with
    the value [img.src] then has), [onerror], or the ten-second timer. *)
Inductive ImgOutcome :=
| Loaded (img_src : string)
| Errored
| TimedOut.

Definition caches_open (fails : bool) : M unit :=
  if fails then throw (CacheFailure "open") else ret tt.

Definition cache_match (fails : bool) (url : string) : M (option Blob) :=
  if fails then throw (CacheFailure "match")
  else gets (fun w => cacheStore w !! url).

Definition response_blob (fails : bool) (response : Blob) : M Blob :=
  if fails then throw (CacheFailure "blob") else ret response.

Definition createObjectURL (uuid : string) (blob : Blob) : M string :=
  let url := "blob:" +:+ uuid in
  modify (fun w => set_objectUrls (<[url := blob]> (objectUrls w)) w) >>
  ret url.

Definition fetch (result : FetchResult) (src : string)
    : M (bool * Blob) :=
  modify (log_request (Fetch src)) >>
  match result with
  | FetchRejected => throw FetchFailure
  | FetchResponse ok body => ret (ok, body)
  end.

Definition cache_put (fails : bool) (url : string) (body : Blob) : M unit :=
  if fails then throw (CacheFailure "put")
  else modify (fun w => set_cacheStore (<[url := body]> (cacheStore w)) w).

(** [getCachedImage(url)] (lines 172-190). *)
Definition getCachedImage (io : ReadIO) (url : string) : M (option string) :=
  let* has := gets hasCaches in
  if negb has then ret None
  else
    try_catch
      (caches_open (r_open_fails io) >>
       let* response := cache_match (r_match_fails io) url in
       match response with
       | Some resp =>
           let* blob := response_blob (r_blob_fails io) resp in
           let* objectUrl := createObjectURL (r_uuid io) blob in
           ret (Some objectUrl)
       | None => ret None
       end)
      (fun _ => ret None).

(** [cacheImage(url, src)] (lines 193-213), from start to end: what the call
    does when nothing else runs between its [await]s.  In the event loop
    the call goes piece by piece ([cacheImage_begin] and the three
    resumptions below; [cacheImage_in_steps] relates the two). *)
Definition cacheImage (io : WriteIO) (url src : string) : M unit :=
  let* has := gets hasCaches in
  if negb has then ret tt
  else
    try_catch
      (if String.prefix "data:" src then ret tt
       else
         caches_open (w_open_fails io) >>
         let* response := fetch (w_fetch io) src in
         if fst response then cache_put (w_put_fails io) url (snd response)
         else ret tt)
      (fun _ => ret tt).

(** [cacheImage(url, src)] up to its first [await] (lines 193-203): the two
    guards, then [caches.open] is called and the call is suspended. *)
Definition cacheImage_begin (url src : string) : M unit :=
  let* has := gets hasCaches in
  if negb has then ret tt
  else
    try_catch
      (if String.prefix "data:" src then ret tt
       else
         modify (fun w => set_fills (fills w ++ [mkFill url src AwaitOpen]) w))
      (fun _ => ret tt).

(** [caches.open] settles (lines 203-204): [fetch(src)] is called.  [None]:
    the call of [cacheImage] is over. *)
Definition cacheImage_opened (f : Fill) (fails : bool) : M (option FillPhase) :=
  try_catch
    (caches_open fails >>
     modify (log_request (Fetch (fl_src f))) >>
     ret (Some AwaitFetch))
    (fun _ => ret None).

(** [fetch] settles (lines 204-207): for a response that is [ok],
    [cache.put] is called. *)
Definition cacheImage_fetched (f : Fill) (result : FetchResult)
    : M (option FillPhase) :=
  try_catch
    (match result with
     | FetchRejected => throw FetchFailure
     | FetchResponse ok body =>
         if ok then ret (Some (AwaitPut body)) else ret None
     end)
    (fun _ => ret None).

(** [cache.put] settles (lines 207-211): the entry is in the cache, or the
    rejection is caught. *)
Definition cacheImage_stored (f : Fill) (body : Blob) (fails : bool)
    : M (option FillPhase) :=
  try_catch
    (cache_put fails (fl_url f) body >> ret None)
    (fun _ => ret None).

(** Resuming the [j]-th suspended call of [cacheImage] with [body]: the call
    leaves the list when it ends and stays, at its new [await], otherwise. *)
Definition resume_fill (j : nat) (f : Fill) (body : M (option FillPhase))
    : M unit :=
  let* next := body in
  match next with
  | Some ph =>
      modify (fun w =>
        set_fills (<[j := mkFill (fl_url f) (fl_src f) ph]> (fills w)) w)
  | None => modify (fun w => set_fills (delete j (fills w)) w)
  end.

(** ** [loadImage] after its first [await] *)

(** Does the body of the [try] block run to its end, or stop at an [await]? *)
Inductive Status :=
| Done
| Suspended (at_ : Phase).

(** [loadImageFromNetwork(queueItem)] up to the point where it hands back
    its promise (lines 139-168): mark the element, create the [Image], arm
    the timeout, assign [img.src]. *)
Definition loadImageFromNetwork_begin (queueItem : QueueItem) (w : World)
    : World :=
  let imageUrl := el_dataset_src (dom w (element queueItem)) in
  let w1 := update_element (element queueItem) (classList_add "image-loading") w in
  log_request (ImgLoad (to_string imageUrl)) w1.

(** The promise of [loadImageFromNetwork] settles (lines 150-164). *)
Definition loadImageFromNetwork_settle (queueItem : QueueItem)
    (out : ImgOutcome) : M unit :=
  match out with
  | Loaded img_src =>
      modify (update_element (element queueItem) (set_el_src img_src))
  | Errored => throw ImageErrorEvent
  | TimedOut => throw LoadTimeout
  end.

(** Lines 111-113. *)
Definition mark_loaded (el : ElemRef) : World -> World :=
  update_element el
    (fun e =>
       classList_remove "image-error"
         (classList_remove "image-loading" (classList_add "image-loaded" e))).

(** The [try] block from the first [await] on (lines 98-113). *)
Definition loadImage_try_cache (ex : Execution) (io : ReadIO) : M Status :=
  let el := element (ex_item ex) in
  let* cachedImage := getCachedImage io (ex_url ex) in
  if truthy_opt cachedImage then
    modify (update_element el (set_el_src (to_string cachedImage))) >>
    modify (mark_loaded el) >>
    ret Done
  else
    modify (loadImageFromNetwork_begin (ex_item ex)) >>
    ret (Suspended AwaitNetwork).

(** The [try] block from the second [await] on (lines 105-113).
    [cacheImage] is called and not awaited: it runs to its first [await]
    and the block goes on. *)
Definition loadImage_try_network (ex : Execution) (out : ImgOutcome)
    : M Status :=
  let el := element (ex_item ex) in
  loadImageFromNetwork_settle (ex_item ex) out >>
  let* src := gets (fun w => el_src (dom w el)) in
  spawn (cacheImage_begin (ex_url ex) src) >>
  modify (mark_loaded el) >>
  ret Done.

(** The [catch] block (lines 114-130). *)
Definition loadImage_catch (queueItem : QueueItem) (_ : Exception) : M unit :=
  let* maxRetries := gets maxRetries in
  let* retryDelay := gets retryDelay in
  if retries queueItem <? maxRetries then
    let queueItem' := set_retries (retries queueItem + 1) queueItem in
    modify (fun w =>
      set_timers
        (timers w ++
           [mkTimer (element queueItem) queueItem'
              (retryDelay * 2 ^ retries queueItem')]) w)
  else
    modify (update_element (element queueItem)
      (fun e =>
         classList_remove "image-loading"
           (classList_add "image-error" (set_el_src placeholder e)))).

(** The [finally] block (lines 131-135). *)
Definition loadImage_finally : M unit :=
  modify (fun w => processQueue (set_running (running w - 1) w)).

(** [try { body } catch (error) { handler } finally { finalizer }] around a
    body that may stop at an [await]: a suspended body has not left the
    [try] block, so neither handler nor finalizer runs yet. *)
Definition try_catch_finally (body : M Status)
    (handler : Exception -> M unit) (finalizer : M unit) : M Status :=
  fun w =>
    match body w with
    | (Normal (Suspended ph), w1) => (Normal (Suspended ph), w1)
    | (Normal Done, w1) =>
        match finalizer w1 with
        | (Normal _, w2) => (Normal Done, w2)
        | (Throw e, w2) => (Throw e, w2)
        end
    | (Throw e, w1) =>
        match handler e w1 with
        | (Normal _, w2) =>
            match finalizer w2 with
            | (Normal _, w3) => (Normal Done, w3)
            | (Throw e', w3) => (Throw e', w3)
            end
        | (Throw e', w2) =>
            match finalizer w2 with
            | (Normal _, w3) => (Throw e', w3)
            | (Throw e'', w3) => (Throw e'', w3)
            end
        end
    end.

(** Resuming the [i]-th suspended execution with [body]: the execution
    leaves the list when the call ends and stays, at its new [await],
    otherwise. *)
Definition resume (i : nat) (ex : Execution) (body : M Status) : M unit :=
  let* status :=
    try_catch_finally
      (let* status := body in
       match status with
       | Done => modify (fun w => set_executions (delete i (executions w)) w)
       | Suspended ph =>
           modify (fun w =>
             set_executions
               (<[i := mkExec (ex_item ex) (ex_url ex) ph]> (executions w)) w)
       end >>
       ret status)
      (fun e =>
         modify (fun w => set_executions (delete i (executions w)) w) >>
         loadImage_catch (ex_item ex) e)
      loadImage_finally in
  ret tt.

(** ** Events *)

Inductive Event :=
| AddImage (imgElement : option ElemRef) (priority_arg : option Z)
    (rnd : string) (now : Z)
| Clear
| CacheSettled (i : nat) (io : ReadIO)
| NetworkSettled (i : nat) (out : ImgOutcome)
| TimerFired (i : nat) (rnd : string) (now : Z)
| FillOpened (j : nat) (fails : bool)
| FillFetched (j : nat) (result : FetchResult)
| FillStored (j : nat) (fails : bool).

(** The double nearest to an integer, ties to the even significand: the
    integers up to [2 ^ 53] in absolute value are doubles; beyond, the
    doubles between [2 ^ n] and [2 ^ (n + 1)] are the multiples of
    [2 ^ (n - 52)]. *)
Definition round_to_double (z : Z) : Z :=
  let a := Z.abs z in
  if a <=? 2 ^ 53 then z
  else
    let ulp := 2 ^ (Z.log2 a - 52) in
    let q := a / ulp in
    let r := a mod ulp in
    let q' :=
      if 2 * r <? ulp then q
      else if ulp <? 2 * r then q + 1
      else if Z.even q then q else q + 1 in
    Z.sgn z * (q' * ulp).

(** [a - b] on numbers that hold integers. *)
Definition js_minus (a b : Z) : Z := round_to_double (a - b).

(** The callback of the retry timer (lines 121-124). *)
Definition retry_callback (t : Timer) (rnd : string) (now : Z) : World -> World :=
  addImage (Some (tm_element t)) (Some (js_minus (priority (tm_item t)) 1))
    rnd now.

(** One step of the event loop.  [None]: the event cannot occur in [w]
    (no such execution, timer or call of [cacheImage], or it is at another
    [await]). *)
Definition step (ev : Event) (w : World) : option (Completion unit * World) :=
  match ev with
  | AddImage imgElement priority_arg rnd now =>
      Some (Normal tt, addImage imgElement priority_arg rnd now w)
  | Clear => Some (Normal tt, clear w)
  | CacheSettled i io =>
      match executions w !! i with
      | Some ex =>
          match ex_phase ex with
          | AwaitCache => Some (resume i ex (loadImage_try_cache ex io) w)
          | AwaitNetwork => None
          end
      | None => None
      end
  | NetworkSettled i out =>
      match executions w !! i with
      | Some ex =>
          match ex_phase ex with
          | AwaitNetwork => Some (resume i ex (loadImage_try_network ex out) w)
          | AwaitCache => None
          end
      | None => None
      end
  | TimerFired i rnd now =>
      match timers w !! i with
      | Some t =>
          Some (Normal tt,
                retry_callback t rnd now (set_timers (delete i (timers w)) w))
      | None => None
      end
  | FillOpened j fails =>
      match fills w !! j with
      | Some f =>
          match fl_phase f with
          | AwaitOpen => Some (resume_fill j f (cacheImage_opened f fails) w)
          | _ => None
          end
      | None => None
      end
  | FillFetched j result =>
      match fills w !! j with
      | Some f =>
          match fl_phase f with
          | AwaitFetch => Some (resume_fill j f (cacheImage_fetched f result) w)
          | _ => None
          end
      | None => None
      end
  | FillStored j fails =>
      match fills w !! j with
      | Some f =>
          match fl_phase f with
          | AwaitPut body =>
              Some (resume_fill j f (cacheImage_stored f body fails) w)
          | _ => None
          end
      | None => None
      end
  end.

(** [new ImageLoadQueue(maxConcurrent = 2)] (lines 10-20) in a browser whose
    DOM is [d], whose Cache API is present or not, and whose cache holds [c].
    [initCache] only opens the cache, inside its own [try]. *)
Definition new_ImageLoadQueue (maxConcurrent_arg : option Z)
    (d : ElemRef -> Element) (caches : bool) (c : gmap string Blob) : World :=
  mkWorld [] 0 (default 2 maxConcurrent_arg) "bili-monitor-image-cache" 2 500
    d [] [] caches c ∅ [] [] [].

(** The worlds the loader can be in: those a sequence of events leads to. *)
Inductive reachable (w0 : World) : World -> Prop :=
| reachable_init : reachable w0 w0
| reachable_step w ev c w' :
    reachable w0 w -> step ev w = Some (c, w') -> reachable w0 w'.

(** Running a list of events; an event that cannot occur is skipped. *)
Fixpoint run (evs : list Event) (w : World) : World :=
  match evs with
  | [] => w
  | ev :: evs' =>
      match step ev w with
      | Some (_, w') => run evs' w'
      | None => run evs' w
      end
  end.

(** * The vocabulary of the statements *)

(** ** The queue *)

(** [a] may stand before [b]: its priority is not lower. *)
Definition precedes (a b : QueueItem) : Prop := priority b <= priority a.

Definition descending (q : list QueueItem) : Prop := StronglySorted precedes q.

(** The id of the element of a queue entry, as [findIndex] reads it. *)
Definition id_of (w : World) (it : QueueItem) : string :=
  el_id (dom w (element it)).

(** The element of a queue entry has a truthy [dataset.src]. *)
Definition has_src (w : World) (it : QueueItem) : Prop :=
  truthy_opt (el_dataset_src (dom w (element it))) = true.

#[local] Instance has_src_dec w it : Decision (has_src w it).
Proof. unfold has_src. apply _. Defined.

(** The condition of the loop of [processQueue]. *)
Definition free_slot (w : World) : Prop :=
  running w < maxConcurrent w /\ queue w <> [].

(** How many executions a call of [processQueue] can start: as many as there
    are queued entries and free slots. *)
Definition startable (w : World) : nat :=
  Nat.min (length (queue w)) (Z.to_nat (maxConcurrent w - running w)).

(** The specification's "first-submitted first", with "submitted" read off
    the [timestamp] each entry gets when it is pushed: of two queued entries
    of equal priority the one with the earlier timestamp is nearer the
    head. *)
Definition first_submitted_first (w : World) : Prop :=
  forall i j a b,
    queue w !! i = Some a -> queue w !! j = Some b ->
    priority a = priority b -> timestamp a < timestamp b -> (i < j)%nat.

(** The same with "submitted" read as the last call of [addImage] for the
    target: [last_submitted evs el] is the time of the last [addImage] for
    [el] among the events [evs]. *)
Fixpoint last_submitted (evs : list Event) (el : ElemRef) : option Z :=
  match evs with
  | [] => None
  | ev :: evs' =>
      match last_submitted evs' el, ev with
      | Some t, _ => Some t
      | None, AddImage (Some el') _ _ now =>
          if decide (el' = el) then Some now else None
      | None, _ => None
      end
  end.

Definition last_submitted_first (evs : list Event) (w : World) : Prop :=
  forall i j a b ta tb,
    queue w !! i = Some a -> queue w !! j = Some b ->
    priority a = priority b ->
    last_submitted evs (element a) = Some ta ->
    last_submitted evs (element b) = Some tb ->
    ta < tb -> (i < j)%nat.

(** ** The pieces of the code, named *)

(** One turn of the loop of [processQueue] for an entry whose element has a
    source: the entry leaves the queue and its execution starts. *)
Definition dispatch (queueItem : QueueItem) (rest : list QueueItem)
    (w : World) : World :=
  let w1 := set_running (running w + 1) (set_queue rest w) in
  set_executions
    (executions w1
       ++ [mkExec queueItem
             (to_string (el_dataset_src (dom w (element queueItem))))
             AwaitCache]) w1.

(** One turn for an entry whose element has no source: [loadImage] hands it
    to [completeImage], which finds nothing to delete. *)
Definition discard (rest : list QueueItem) (w : World) : World :=
  set_running (running w - 1) (set_queue rest w).

(** The execution that [loadImage] sets up for a queue entry. *)
Definition start (w : World) (it : QueueItem) : Execution :=
  mkExec it (to_string (el_dataset_src (dom w (element it)))) AwaitCache.

(** The id under which [addImage] looks the element up. *)
Definition imageId_of (el : ElemRef) (rnd : string) (w : World) : string :=
  if truthy (el_id (dom w el)) then el_id (dom w el) else "img-" +:+ rnd.

(** The world after [imgElement.id = imgElement.id || imageId]. *)
Definition named (el : ElemRef) (rnd : string) (w : World) : World :=
  update_element el
    (fun e =>
       set_el_id (if truthy (el_id e) then el_id e else imageId_of el rnd w) e)
    w.

(** What the [catch] block does to the world. *)
Definition catch_effect (queueItem : QueueItem) (w : World) : World :=
  if retries queueItem <? maxRetries w then
    set_timers
      (timers w ++
         [mkTimer (element queueItem)
            (set_retries (retries queueItem + 1) queueItem)
            (retryDelay w * 2 ^ (retries queueItem + 1))]) w
  else
    update_element (element queueItem)
      (fun e =>
         classList_remove "image-loading"
           (classList_add "image-error" (set_el_src placeholder e))) w.

(** The end of a call of [loadImage]: the execution is over, then the
    [finally] block gives back the slot. *)
Definition finish (i : nat) (w : World) : World :=
  set_running (running w - 1) (set_executions (delete i (executions w)) w).

(** A call of [loadImage] stops at its next [await]. *)
Definition suspend (i : nat) (ex : Execution) (ph : Phase) (w : World)
    : World :=
  set_executions (<[i := mkExec (ex_item ex) (ex_url ex) ph]> (executions w)) w.

(** Does [cacheImage] get as far as calling [fetch]? *)
Definition reaches_fetch (w : World) (io : WriteIO) (src : string) : bool :=
  hasCaches w && negb (String.prefix "data:" src) && negb (w_open_fails io).

(** A hit: the Cache API is there, the cache holds [bytes] under [url], and
    none of the calls of [getCachedImage] fails. *)
Definition cache_hit (w : World) (io : ReadIO) (url : string) (bytes : Blob)
    : Prop :=
  hasCaches w = true
  /\ cacheStore w !! url = Some bytes
  /\ r_open_fails io = false
  /\ r_match_fails io = false
  /\ r_blob_fails io = false.

(** Unfolding the monad. *)
Ltac unfold_M :=
  unfold getCachedImage, cacheImage, cacheImage_begin, cacheImage_opened,
    cacheImage_fetched, cacheImage_stored, resume_fill, loadImage_try_cache,
    loadImage_try_network, loadImage_catch, loadImageFromNetwork_settle,
    caches_open, cache_match, response_blob, createObjectURL, fetch,
    cache_put, spawn, try_catch, bind, gets, modify, throw, ret in *.

(** ** Relations between worlds *)

(** [w'] differs from [w] only in what the scheduler never looks at: the
    queue, the counter, the configuration, the executions and the timers
    are the same, and every element has kept its source and, if queued, its
    id. *)
Record same_view (w w' : World) : Prop := mkSameView {
  sv_queue : queue w' = queue w;
  sv_running : running w' = running w;
  sv_maxConcurrent : maxConcurrent w' = maxConcurrent w;
  sv_maxRetries : maxRetries w' = maxRetries w;
  sv_retryDelay : retryDelay w' = retryDelay w;
  sv_trace : running_trace w' = running_trace w;
  sv_executions : executions w' = executions w;
  sv_timers : timers w' = timers w;
  sv_id : Forall (fun it => id_of w' it = id_of w it) (queue w);
  sv_src : forall r, el_dataset_src (dom w' r) = el_dataset_src (dom w r)
}.

(** [w'] differs from [w] at most in the queue, the counter, its history
    and the list of executions. *)
Record scheduler_only (w w' : World) : Prop := mkSchedulerOnly {
  so_maxConcurrent : maxConcurrent w' = maxConcurrent w;
  so_cacheName : cacheName w' = cacheName w;
  so_maxRetries : maxRetries w' = maxRetries w;
  so_retryDelay : retryDelay w' = retryDelay w;
  so_dom : dom w' = dom w;
  so_timers : timers w' = timers w;
  so_hasCaches : hasCaches w' = hasCaches w;
  so_cacheStore : cacheStore w' = cacheStore w;
  so_objectUrls : objectUrls w' = objectUrls w;
  so_netlog : netlog w' = netlog w;
  so_fills : fills w' = fills w
}.

(** [w'] differs from [w] at most in what a call of [cacheImage] touches
    after its first [await]: the requests issued, the cache, and the list
    of such calls. *)
Record fill_only (w w' : World) : Prop := mkFillOnly {
  fo_queue : queue w' = queue w;
  fo_running : running w' = running w;
  fo_maxConcurrent : maxConcurrent w' = maxConcurrent w;
  fo_cacheName : cacheName w' = cacheName w;
  fo_maxRetries : maxRetries w' = maxRetries w;
  fo_retryDelay : retryDelay w' = retryDelay w;
  fo_dom : dom w' = dom w;
  fo_executions : executions w' = executions w;
  fo_timers : timers w' = timers w;
  fo_hasCaches : hasCaches w' = hasCaches w;
  fo_objectUrls : objectUrls w' = objectUrls w;
  fo_trace : running_trace w' = running_trace w
}.

(** The events that resume a call of [cacheImage]. *)
Definition is_fill (ev : Event) : bool :=
  match ev with
  | FillOpened _ _ | FillFetched _ _ | FillStored _ _ => true
  | _ => false
  end.

(** What is fixed when the loader is built. *)
Definition config (w : World) : Z * string * Z * Z * bool :=
  (maxConcurrent w, cacheName w, maxRetries w, retryDelay w, hasCaches w).

(** No element carries [image-error] in [w'] that did not in [w]. *)
Definition no_new_error (w w' : World) : Prop :=
  forall r, "image-error" ∈ el_classList (dom w' r) ->
            "image-error" ∈ el_classList (dom w r).

(** The world that has the scheduler's fields (queue, counter, its history,
    executions) of [s] and everything else of [w]. *)
Definition with_scheduler (s w : World) : World :=
  mkWorld (queue s) (running s) (maxConcurrent w) (cacheName w) (maxRetries w)
    (retryDelay w) (dom w) (executions s) (timers w) (hasCaches w)
    (cacheStore w) (objectUrls w) (netlog w) (running_trace s) (fills w).

(** [b] is a world in which [clear] was called, [a] the world in which it
    was not: outside the scheduler they are the same; [b] has an empty
    queue; the executions of [b] are the first of those of [a]. *)
Record cleared_twin (a b : World) : Prop := mkTwin {
  twin_outside : b = with_scheduler b a;
  twin_queue : queue b = [];
  twin_executions : executions b `prefix_of` executions a
}.

(** What a request leaves behind: the DOM, the retry timers, the requests
    issued, the cache and the object URLs. *)
Definition outcome (w : World)
    : (ElemRef -> Element) * list Timer * list NetRequest
      * gmap string Blob * gmap string Blob :=
  (dom w, timers w, netlog w, cacheStore w, objectUrls w).

(** A settlement: the event that resumes a suspended call, of [loadImage]
    or of [cacheImage]. *)
Definition is_settlement (ev : Event) : bool :=
  match ev with
  | CacheSettled _ _ | NetworkSettled _ _
  | FillOpened _ _ | FillFetched _ _ | FillStored _ _ => true
  | _ => false
  end.

(** Running a list of events, each of which must be able to occur. *)
Fixpoint run_all (evs : list Event) (w : World) : option World :=
  match evs with
  | [] => Some w
  | ev :: evs' =>
      match step ev w with
      | Some (_, w') => run_all evs' w'
      | None => None
      end
  end.

(** ** The invariant of the loader

    The constants of the constructor; the counter counts the suspended
    executions and never was negative, nor above a non-negative
    [maxConcurrent]; every queued element has a source and a non-empty id,
    and no two have the same id; the queue is sorted; every entry, queued or
    loading, has [retries = 0]; every armed timer holds an entry with
    [retries = 1] and waits 1000 ms. *)
Record Inv (w : World) : Prop := mkInv {
  inv_config : maxRetries w = 2 /\ retryDelay w = 500;
  inv_running : running w = Z.of_nat (length (executions w));
  inv_bound : 0 <= maxConcurrent w -> running w <= maxConcurrent w;
  inv_trace_lo : Forall (fun r => 0 <= r) (running_trace w);
  inv_trace_hi :
    0 <= maxConcurrent w ->
    Forall (fun r => r <= maxConcurrent w) (running_trace w);
  inv_src : Forall (has_src w) (queue w);
  inv_ids : NoDup (id_of w <$> queue w);
  inv_named : Forall (fun it => truthy (id_of w it) = true) (queue w);
  inv_sorted : descending (queue w);
  inv_retries_queue : Forall (fun it => retries it = 0) (queue w);
  inv_retries_exec : Forall (fun ex => retries (ex_item ex) = 0) (executions w);
  inv_timers :
    Forall (fun t => retries (tm_item t) = 1 /\ tm_delay t = 1000) (timers w)
}.

(** ** A page to run the loader on

    Cover images as [renderMonitors] builds them (lines 527-529): the first
    four have an id and a source, the others a source only. *)

Definition page : ElemRef -> Element :=
  fun r =>
    match r with
    | 0%nat => mkElement "cover-img-1" (Some "/proxy/image?url=a") "" ["cover-img"]
    | 1%nat => mkElement "cover-img-2" (Some "/proxy/image?url=b") "" ["cover-img"]
    | 2%nat => mkElement "cover-img-3" (Some "/proxy/image?url=c") "" ["cover-img"]
    | 3%nat => mkElement "cover-img-4" (Some "/proxy/image?url=d") "" ["cover-img"]
    | _ => mkElement "" (Some "/proxy/image?url=e") "" ["cover-img"]
    end.

(** [const imageLoadQueue = new ImageLoadQueue(2)] (line 235), on that page,
    with the Cache API and an empty cache. *)
Definition imageLoadQueue : World := new_ImageLoadQueue (Some 2) page true ∅.

(** A browser without the Cache API. *)
Definition without_caches : World := new_ImageLoadQueue (Some 2) page false ∅.

(** A cache that answers, and a [fetch] and [put] that succeed. *)
Definition cache_ok : ReadIO := mkReadIO false false false "0001".
Definition put_ok : WriteIO := mkWriteIO false (FetchResponse true "PNG") false.

Definition cover_a : string := "/proxy/image?url=a".
Definition cover_a_loaded : string := "https://host/proxy/image?url=a".

(** Three images are submitted; the first misses the cache and loads. *)
Definition three_submitted : list Event :=
  [AddImage (Some 0%nat) None "r1" 10;
   AddImage (Some 1%nat) None "r2" 11;
   AddImage (Some 2%nat) None "r3" 12;
   CacheSettled 0 cache_ok;
   NetworkSettled 0 (Loaded cover_a_loaded)].

Definition after_three_submitted : World := run three_submitted imageLoadQueue.

(** Two images are loading and the third waits. *)
Definition third_waits : World :=
  run [AddImage (Some 0%nat) None "r1" 10;
       AddImage (Some 1%nat) None "r2" 11;
       AddImage (Some 2%nat) None "r3" 12] imageLoadQueue.

(** The first of the requests in flight in [third_waits] misses the cache
    and loads. *)
Definition first_loads : list Event :=
  [CacheSettled 0 cache_ok; NetworkSettled 0 (Loaded cover_a_loaded)].

(** Both slots are taken; the third image is queued at priority 0 and the
    fourth at priority 5; then the third is added again, at priority 5. *)
Definition reprioritised : list Event :=
  [AddImage (Some 0%nat) None "r1" 10;
   AddImage (Some 1%nat) None "r2" 11;
   AddImage (Some 2%nat) None "r3" 12;
   AddImage (Some 3%nat) (Some 5) "r4" 13;
   AddImage (Some 2%nat) (Some 5) "r5" 14].

(** The same, but the third image is first queued at priority 9 and then
    added again at priority 5. *)
Definition lowered : list Event :=
  [AddImage (Some 0%nat) None "r1" 10;
   AddImage (Some 1%nat) None "r2" 11;
   AddImage (Some 2%nat) (Some 9) "r3" 12;
   AddImage (Some 3%nat) (Some 5) "r4" 13;
   AddImage (Some 2%nat) (Some 5) "r5" 14].


(** One image is submitted; the cache is empty and every load of it times
    out.  Each timer is fired when it expires. *)
Definition attempt_fails : list Event :=
  [CacheSettled 0 cache_ok; NetworkSettled 0 TimedOut].

Definition always_failing : list Event :=
  [AddImage (Some 0%nat) None "r1" 10]
  ++ attempt_fails ++ [TimerFired 0 "r2" 1010]
  ++ attempt_fails ++ [TimerFired 0 "r3" 2010]
  ++ attempt_fails.

(** The page drops the source of the third image while it waits in
    [third_waits]: something the loader never does itself. *)
Definition source_dropped : World :=
  update_element 2 delete_dataset_src third_waits.

(** * More of the loader and of its callers *)

(** ** [renderMonitors] and the queue

    What [renderMonitors] (lines 492-576) does to the loader: it calls
    [imageLoadQueue.clear()] (line 496) and then, for each monitor in turn,
    [imageLoadQueue.addImage(imgElement)] with the cover it has just put in
    the grid (lines 566-569).  Building the grid is not modelled: the covers
    are given, each with the values [Math.random] and [Date.now] take in its
    call of [addImage]. *)
Definition addImage_each (imgs : list (ElemRef * string * Z)) (w : World)
    : World :=
  fold_left
    (fun w '(imgElement, rnd, now) => addImage (Some imgElement) None rnd now w)
    imgs w.

Definition renderMonitors_queue (imgs : list (ElemRef * string * Z))
    (w : World) : World :=
  addImage_each imgs (clear w).

(** The queue entry [addImage] builds for a cover submitted that way. *)
Definition cover_item (img : ElemRef * string * Z) : QueueItem :=
  mkItem (fst (fst img)) 0 0 (snd img).

(** ** Classes *)

(** Every class [c] an element has in [w] it still has in [w']. *)
Definition keeps_class (c : string) (w w' : World) : Prop :=
  forall r, c ∈ el_classList (dom w r) -> c ∈ el_classList (dom w' r).

(** * The page around the loader

    The rest of [main.js] is the page: it talks to the API of the server
    and shows what it answers.  The model keeps what these functions read
    and write: the two globals, [localStorage], the [data-theme] attribute,
    the elements they reach through [getElementById], the notifications
    shown, the requests sent and the calls of other [async] functions they
    start without awaiting them. *)

(** ** Values of the API

    What [res.json()] gives: a JSON value.  Numbers: the integers, which is
    what the API sends for [code], [id], [archived] and [is_active].  An
    object holds its properties, each name once. *)
#[warnings="-register-all"]
Inductive JsValue :=
| VUndefined
| VNull
| VBool (b : bool)
| VNum (n : Z)
| VStr (s : string)
| VObj (props : list (string * JsValue))
| VArr (items : list JsValue).

(** [if (v)], [!v], [v && ...], [v || ...]. *)
Definition truthy_value (v : JsValue) : bool :=
  match v with
  | VUndefined | VNull => false
  | VBool b => b
  | VNum n => negb (n =? 0)
  | VStr s => truthy s
  | VObj _ | VArr _ => true
  end.

(** [v === 0]. *)
Definition is_zero (v : JsValue) : bool :=
  match v with
  | VNum 0 => true
  | _ => false
  end.

Fixpoint own_property (k : string) (props : list (string * JsValue))
    : JsValue :=
  match props with
  | [] => VUndefined
  | (k', v) :: rest => if String.eqb k' k then v else own_property k rest
  end.

Inductive PageError :=
| TypeError
| SyntaxError.

Inductive Outcome (A : Type) :=
| Returns (a : A)
| Throws (e : PageError).
Arguments Returns {A} a.
Arguments Throws {A} e.

(** [v.k] for the names the page reads ([code], [msg], [monitors],
    [archived]): a [TypeError] on [null] and [undefined], the property of
    an object, [undefined] on every other value. *)
Definition prop (k : string) (v : JsValue) : Outcome JsValue :=
  match v with
  | VUndefined | VNull => Throws TypeError
  | VObj props => Returns (own_property k props)
  | VBool _ | VNum _ | VStr _ | VArr _ => Returns VUndefined
  end.

(** ** The state of the page *)

(** An element of the document, with what the page sets on it. *)
Record PElement := mkPElement {
  pe_textContent : string;
  pe_classList : list string;
  pe_src : string;
  pe_display : string
}.

(** A request given to [fetch]; [rq_body] is the value before
    [JSON.stringify]. *)
Record Request := mkRequest {
  rq_url : string;
  rq_method : string;
  rq_headers : list (string * string);
  rq_body : option JsValue
}.

(** [showNotification(title, message, type)]. *)
Record Notification := mkNotification {
  nt_title : string;
  nt_message : JsValue;
  nt_type : string
}.

(** The [async] functions the page starts without [await]. *)
Inductive Call :=
| LoadAllData
| LoadPublicData
| LoadMonitors
| LoadStatus
| RefreshRecentUpdates.

Record Page := mkPage {
  currentToken : option string;          (* [null] or a string (line 3) *)
  currentFilter : string;                (* line 4 *)
  localStorage : gmap string string;
  data_theme : option string;            (* attribute of [<html>] *)
  elements : gmap string PElement;       (* the document, by id *)
  notifications : list Notification;     (* newest first *)
  requests : list Request;               (* oldest first *)
  calls : list Call                      (* oldest first *)
}.

Definition set_currentToken (t : option string) (p : Page) : Page :=
  mkPage t (currentFilter p) (localStorage p) (data_theme p) (elements p)
    (notifications p) (requests p) (calls p).

Definition set_currentFilter (f : string) (p : Page) : Page :=
  mkPage (currentToken p) f (localStorage p) (data_theme p) (elements p)
    (notifications p) (requests p) (calls p).

Definition set_localStorage (s : gmap string string) (p : Page) : Page :=
  mkPage (currentToken p) (currentFilter p) s (data_theme p) (elements p)
    (notifications p) (requests p) (calls p).

Definition set_data_theme (t : option string) (p : Page) : Page :=
  mkPage (currentToken p) (currentFilter p) (localStorage p) t (elements p)
    (notifications p) (requests p) (calls p).

Definition set_elements (e : gmap string PElement) (p : Page) : Page :=
  mkPage (currentToken p) (currentFilter p) (localStorage p) (data_theme p) e
    (notifications p) (requests p) (calls p).

Definition set_notifications (n : list Notification) (p : Page) : Page :=
  mkPage (currentToken p) (currentFilter p) (localStorage p) (data_theme p)
    (elements p) n (requests p) (calls p).

Definition set_requests (r : list Request) (p : Page) : Page :=
  mkPage (currentToken p) (currentFilter p) (localStorage p) (data_theme p)
    (elements p) (notifications p) r (calls p).

Definition set_calls (c : list Call) (p : Page) : Page :=
  mkPage (currentToken p) (currentFilter p) (localStorage p) (data_theme p)
    (elements p) (notifications p) (requests p) c.

(** ** Code of the page that can throw *)

Definition P (A : Type) : Type := Page -> Outcome A * Page.

Definition p_ret {A} (a : A) : P A := fun p => (Returns a, p).

Definition p_throw {A} (e : PageError) : P A := fun p => (Throws e, p).

Definition p_bind {A B} (m : P A) (k : A -> P B) : P B :=
  fun p =>
    match m p with
    | (Returns a, p1) => k a p1
    | (Throws e, p1) => (Throws e, p1)
    end.

Definition p_gets {A} (f : Page -> A) : P A := fun p => (Returns (f p), p).

Definition p_get : P Page := fun p => (Returns p, p).

Definition p_modify (f : Page -> Page) : P unit := fun p => (Returns tt, f p).

(** The value of an expression that may throw. *)
Definition p_lift {A} (o : Outcome A) : P A := fun p => (o, p).

(** [try { m } catch (e) { handler(e) }]. *)
Definition p_try_catch {A} (m : P A) (handler : PageError -> P A) : P A :=
  fun p =>
    match m p with
    | (Returns a, p1) => (Returns a, p1)
    | (Throws e, p1) => handler e p1
    end.

Notation "'let+' x := m 'in' k" := (p_bind m (fun x => k))
  (at level 10, x name, m at level 100, k at level 200).
Notation "m >+ k" := (p_bind m (fun _ => k))
  (at level 100, k at level 200, right associativity).

(** [fetch(...)]: the request leaves the page. *)
Definition send (r : Request) : P unit :=
  p_modify (fun p => set_requests (requests p ++ [r]) p).

(** A call of an [async] function that is not awaited: it is started, and
    what it does comes later. *)
Definition start_call (c : Call) : P unit :=
  p_modify (fun p => set_calls (calls p ++ [c]) p).

(** [document.getElementById(id).x = ...]: a [TypeError] where the document
    has no such element. *)
Definition on_element (id : string) (f : PElement -> PElement) : P unit :=
  fun p =>
    match elements p !! id with
    | Some e => (Returns tt, set_elements (<[id := f e]> (elements p)) p)
    | None => (Throws TypeError, p)
    end.

Definition set_pe_textContent (s : string) (e : PElement) : PElement :=
  mkPElement s (pe_classList e) (pe_src e) (pe_display e).

Definition set_pe_src (s : string) (e : PElement) : PElement :=
  mkPElement (pe_textContent e) (pe_classList e) s (pe_display e).

Definition set_pe_display (s : string) (e : PElement) : PElement :=
  mkPElement (pe_textContent e) (pe_classList e) (pe_src e) s.

Definition pe_classList_remove (c : string) (e : PElement) : PElement :=
  mkPElement (pe_textContent e)
    (filter (fun c' => c' <> c) (pe_classList e)) (pe_src e) (pe_display e).

Definition localStorage_setItem (k v : string) : P unit :=
  p_modify (fun p => set_localStorage (<[k := v]> (localStorage p)) p).

Definition localStorage_removeItem (k : string) : P unit :=
  p_modify (fun p => set_localStorage (delete k (localStorage p)) p).

(** What the network and the server make of one [fetch]: the promise
    rejects, or a response arrives with its [status], and [res.json()]
    resolves to a value or rejects ([None]). *)
Inductive FetchOutcome :=
| Rejected
| Responded (status : Z) (json : option JsValue).

(** ** Authentication (lines 266-337) *)

(** [showAuthError] (lines 304-306). *)
Definition showAuthError (msg : string) : P unit :=
  on_element "auth-msg" (set_pe_textContent msg).

(** [showNotification] (lines 1019-1066): the notification is put before
    the others.  Its timers (show, hide after [duration]) are not
    modelled. *)
Definition showNotification (title : string) (message : JsValue)
    (type : string) : P unit :=
  p_modify (fun p =>
    set_notifications (mkNotification title message type :: notifications p) p).

(** [closeModal] (lines 423-435). *)
Definition closeModal (id : string) : P unit :=
  on_element id (pe_classList_remove "active") >+
  if String.eqb id "auth-modal" then
    on_element "app-main" (set_pe_display "block") >+
    let+ token := p_gets currentToken in
    if negb (truthy_opt token) then start_call LoadPublicData
    else start_call LoadAllData
  else p_ret tt.

(** [fetchAPI] (lines 315-337), up to its [await fetch]: the request it
    builds from its arguments and from [currentToken]. *)
Definition fetchAPI_request (endpoint method : string) (body : JsValue)
    (p : Page) : Request :=
  mkRequest ("/api" +:+ endpoint) method
    (("Content-Type", "application/json")
       :: (if truthy_opt (currentToken p)
           then [("Authorization", to_string (currentToken p))]
           else []))
    (if truthy_value body then Some body else None).

(** [fetchAPI] from the moment [fetch] settles (lines 326-336).  Between
    the response and the end of [res.json()] the function touches
    nothing, so the two resumptions are one step. *)
Definition fetchAPI_settle (out : FetchOutcome) : P JsValue :=
  p_try_catch
    (match out with
     | Rejected => p_throw TypeError
     | Responded status json =>
         if status =? 401 then
           showAuthError "会话过期，请重新登录" >+ p_ret VNull
         else
           match json with
           | Some v => p_ret v
           | None => p_throw SyntaxError
           end
     end)
    (fun _ => p_ret VNull).

(** [verifyToken] (lines 266-296), up to its [await fetch]. *)
Definition verifyToken_request (token : string) : Request :=
  mkRequest "/api/login" "POST" [("Content-Type", "application/json")]
    (Some (VObj [("token", VStr token)])).

(** [verifyToken] from the moment [fetch] settles.  [switchToAdminMode]
    (lines 363-415) rewrites markup that is not part of this model; what
    matters here is whether it returns or throws (it throws where the page
    has no [#monitor-grid]), which is [admin]. *)
Definition verifyToken_settle (token : string) (admin : Outcome unit)
    (out : FetchOutcome) : P unit :=
  p_try_catch
    (match out with
     | Rejected => p_throw TypeError
     | Responded status json =>
         match json with
         | None => p_throw SyntaxError
         | Some data =>
             if status =? 200 then
               p_modify (set_currentToken (Some token)) >+
               localStorage_setItem "bili_monitor_token" token >+
               on_element "auth-modal" (pe_classList_remove "active") >+
               p_lift admin >+
               start_call LoadAllData
             else
               showAuthError "令牌无效，请重试" >+
               localStorage_removeItem "bili_monitor_token" >+
               p_modify (set_currentToken None) >+
               start_call LoadPublicData
         end
     end)
    (fun _ =>
       showAuthError "无法连接服务器" >+
       start_call LoadPublicData).

(** ** The list of monitors (lines 704-725) *)

(** [loadMonitors] up to its first [await]: which request it sends. *)
Definition loadMonitors_request (p : Page) : Request :=
  if truthy_opt (currentToken p) then fetchAPI_request "/status" "GET" VNull p
  else mkRequest "/api/public/status" "GET" [] None.

(** [data] (lines 705-712): through [fetchAPI] with a token, else straight
    from [fetch] and [res.json()], outside any [try]. *)
Definition loadMonitors_data (with_token : bool) (out : FetchOutcome)
    : P JsValue :=
  if with_token then fetchAPI_settle out
  else
    match out with
    | Rejected => p_throw TypeError
    | Responded _ (Some v) => p_ret v
    | Responded _ None => p_throw SyntaxError
    end.

(** [items.filter(item => keep(item.archived))]: the items are visited in
    order, and reading [archived] of [null] throws. *)
Fixpoint filter_items (keep : JsValue -> bool) (items : list JsValue)
    : Outcome (list JsValue) :=
  match items with
  | [] => Returns []
  | item :: rest =>
      match prop "archived" item with
      | Throws e => Throws e
      | Returns a =>
          match filter_items keep rest with
          | Throws e => Throws e
          | Returns kept => Returns (if keep a then item :: kept else kept)
          end
      end
  end.

(** [monitors.filter(...)]: only an array has [filter]. *)
Definition array_filter (keep : JsValue -> bool) (monitors : JsValue)
    : Outcome JsValue :=
  match monitors with
  | VArr items =>
      match filter_items keep items with
      | Returns kept => Returns (VArr kept)
      | Throws e => Throws e
      end
  | _ => Throws TypeError
  end.

(** Lines 714-722: what [loadMonitors] gives to [renderMonitors]; [None]
    where it returns before. *)
Definition loadMonitors_select (data : JsValue) : P (option JsValue) :=
  if negb (truthy_value data) then p_ret None
  else
    let+ m := p_lift (prop "monitors" data) in
    let monitors := if truthy_value m then m else VArr [] in
    let+ currentFilter := p_gets currentFilter in
    if String.eqb currentFilter "active" then
      let+ shown :=
        p_lift (array_filter (fun a => negb (truthy_value a)) monitors) in
      p_ret (Some shown)
    else if String.eqb currentFilter "archived" then
      let+ shown := p_lift (array_filter truthy_value monitors) in
      p_ret (Some shown)
    else p_ret (Some monitors).

(** [loadMonitors] from the moment the request settles. *)
Definition loadMonitors_settle (with_token : bool) (out : FetchOutcome)
    : P (option JsValue) :=
  let+ data := loadMonitors_data with_token out in
  loadMonitors_select data.

(** The request failed, or what came back is not JSON. *)
Definition failed (out : FetchOutcome) : bool :=
  match out with
  | Rejected | Responded _ None => true
  | Responded _ (Some _) => false
  end.

(** [item.archived] as the filter sees it. *)
Definition archived (item : JsValue) : bool :=
  match prop "archived" item with
  | Returns a => truthy_value a
  | Throws _ => false
  end.

(** ** Actions on a monitor (lines 790-861) *)

(** [res && res.code === 0]. *)
Definition succeeded (res : JsValue) : bool :=
  truthy_value res
  && match prop "code" res with
     | Returns code => is_zero code
     | Throws _ => false
     end.

(** [res.msg || fallback]. *)
Definition msg_or (fallback : string) (res : JsValue) : P JsValue :=
  let+ msg := p_lift (prop "msg" res) in
  p_ret (if truthy_value msg then msg else VStr fallback).

(** [controlMonitor] (lines 790-797) from the answer on. *)
Definition controlMonitor_settle (action : string) (out : FetchOutcome)
    : P unit :=
  let+ res := fetchAPI_settle out in
  if succeeded res then
    (if String.eqb action "check_now"
     then showNotification "操作成功" (VStr "已触发立即检查") "success"
     else p_ret tt) >+
    start_call LoadStatus >+
    start_call RefreshRecentUpdates
  else p_ret tt.

(** [deleteMonitor] (lines 831-835): the user answers [confirm], then the
    request goes out. *)
Definition deleteMonitor_begin (id : JsValue) (confirmed : bool) : P bool :=
  if negb confirmed then p_ret false
  else
    let+ p := p_get in
    send (fetchAPI_request "/monitor/delete" "POST" (VObj [("id", id)]) p) >+
    p_ret true.

Definition deleteMonitor_settle (out : FetchOutcome) : P unit :=
  let+ res := fetchAPI_settle out in
  if succeeded res then start_call LoadMonitors else p_ret tt.

(** [toggleMonitorActive] (lines 837-847). *)
Definition toggleMonitorActive_begin (id isActive : JsValue)
    (confirmed : bool) : P bool :=
  if negb confirmed then p_ret false
  else
    let+ p := p_get in
    send (fetchAPI_request "/monitor/toggle_active" "POST"
            (VObj [("id", id);
                   ("is_active", VNum (if truthy_value isActive then 0 else 1))])
            p) >+
    p_ret true.

Definition toggleMonitorActive_settle (out : FetchOutcome) : P unit :=
  let+ res := fetchAPI_settle out in
  if succeeded res then
    let+ msg := p_lift (prop "msg" res) in
    showNotification "操作成功" msg "success" >+
    start_call LoadMonitors
  else
    let+ msg := msg_or "操作失败" res in
    showNotification "操作失败" msg "error".

(** [toggleArchive] (lines 850-861). *)
Definition toggleArchive_begin (id archived : JsValue) (confirmed : bool)
    : P bool :=
  if negb confirmed then p_ret false
  else
    let+ p := p_get in
    send (fetchAPI_request "/monitor/archive" "POST"
            (VObj [("id", id); ("archived", archived)]) p) >+
    p_ret true.

Definition toggleArchive_settle (out : FetchOutcome) : P unit :=
  let+ res := fetchAPI_settle out in
  if succeeded res then
    let+ msg := p_lift (prop "msg" res) in
    showNotification "操作成功" msg "success" >+
    start_call LoadMonitors
  else
    let+ msg := msg_or "操作失败" res in
    showNotification "操作失败" msg "error".

(** [fetchAPI] resolves to [null]. *)
Definition no_answer (out : FetchOutcome) : bool :=
  match out with
  | Rejected => true
  | Responded status json =>
      (status =? 401)
      || match json with
         | None | Some VNull => true
         | Some _ => false
         end
  end.

(** ** The theme (lines 246-249, 1101-1107) *)

(** The first two lines of the [DOMContentLoaded] handler. *)
Definition init_theme : P unit :=
  let+ saved := p_gets (fun p => localStorage p !! "theme") in
  let savedTheme := if truthy_opt saved then to_string saved else "light" in
  p_modify (set_data_theme (Some savedTheme)).

Definition toggleTheme : P unit :=
  let+ current := p_gets data_theme in
  let next :=
    match current with
    | Some c => if String.eqb c "dark" then "light" else "dark"
    | None => "dark"
    end in
  p_modify (set_data_theme (Some next)) >+
  localStorage_setItem "theme" next.

(** ** The background (lines 238-242, 1158-1164, 1240-1265) *)

Definition presetBackgrounds : list string :=
  ["https://images.unsplash.com/photo-1478720568477-152d9b164e26?ixlib=rb-1.2.1&auto=format&fit=crop&w=1950&q=80";
   "https://images.unsplash.com/photo-1518770660439-4636190af475?ixlib=rb-1.2.1&auto=format&fit=crop&w=1950&q=80";
   "https://images.unsplash.com/photo-1506748686214-e9df14d4d9d0?ixlib=rb-1.2.1&auto=format&fit=crop&w=1950&q=80"].

(** [setBackground] (lines 1246-1265) up to its [await]. *)
Definition setBackground_begin (url : string) : P unit :=
  on_element "background-image" (set_pe_src url) >+
  localStorage_setItem "background_image" url >+
  let+ p := p_get in
  send (fetchAPI_request "/settings/save" "POST"
          (VObj [("background_image", VStr url)]) p).

(** [setBackground] from the answer on.  The transition of lines 1260-1264
    (a scale set and reset by a timer) is not modelled. *)
Definition setBackground_settle (out : FetchOutcome) : P unit :=
  p_try_catch (let+ _ := fetchAPI_settle out in p_ret tt) (fun _ => p_ret tt).

(** [setPresetBackground] (lines 1158-1164); [true]: a request is out. *)
Definition setPresetBackground_begin (index : Z) : P bool :=
  if (1 <=? index) && (index <=? Z.of_nat (length presetBackgrounds)) then
    let bgUrl := to_string (presetBackgrounds !! Z.to_nat (index - 1)) in
    setBackground_begin bgUrl >+ p_ret true
  else p_ret false.

Definition setPresetBackground_settle (out : FetchOutcome) : P unit :=
  setBackground_settle out >+ closeModal "background-modal".

(** [resetBackground] (lines 1240-1243). *)
Definition resetBackground_begin : P unit :=
  setBackground_begin (to_string (presetBackgrounds !! 0%nat)).

Definition resetBackground_settle (out : FetchOutcome) : P unit :=
  setBackground_settle out >+ closeModal "background-modal".

(** A page to run the functions on: logged in, with the elements they
    name. *)
Definition blank : PElement := mkPElement "" [] "" "".

Definition admin_page : Page :=
  mkPage (Some "secret") "active" {["bili_monitor_token" := "secret"]}
    (Some "light")
    (<["auth-msg" := blank]>
       (<["auth-modal" := mkPElement "" ["modal"; "active"] "" ""]>
          (<["background-modal" := mkPElement "" ["modal"; "active"] "" ""]>
             (<["background-image" := blank]>
                (<["app-main" := blank]> ∅)))))
    [] [] [].

(** Nothing changed but, possibly, the text of [#auth-msg]. *)
Definition only_auth_msg (p p' : Page) : Prop :=
  currentToken p' = currentToken p
  /\ currentFilter p' = currentFilter p
  /\ localStorage p' = localStorage p
  /\ data_theme p' = data_theme p
  /\ notifications p' = notifications p
  /\ requests p' = requests p
  /\ calls p' = calls p
  /\ forall id, id <> "auth-msg" -> elements p' !! id = elements p !! id.

Ltac unfold_P :=
  unfold showAuthError, showNotification, send, start_call,
    localStorage_setItem, localStorage_removeItem, on_element, p_try_catch,
    p_bind, p_ret, p_throw, p_gets, p_get, p_modify, p_lift in *.

Ltac page_simpl :=
  cbv beta iota zeta;
  cbn [fst snd currentToken currentFilter localStorage data_theme elements
       notifications requests calls set_currentToken set_currentFilter
       set_localStorage set_data_theme set_elements set_notifications
       set_requests set_calls].

Ltac page_case :=
  match goal with
  | |- context [<[?k := _]> _ !! ?k] => rewrite lookup_insert_eq
  | |- context [<[_ := _]> _ !! _] => rewrite lookup_insert_ne by done
  | |- context [delete ?k _ !! ?k] => rewrite lookup_delete_eq
  | H : ?x = _ |- context [match ?x with _ => _ end] => rewrite H
  | |- context [match elements ?p !! ?k with _ => _ end] =>
      destruct (elements p !! k) eqn:?
  end.

Ltac page_run := unfold_P; page_simpl; repeat (page_case; page_simpl).

(** * Properties *)

(** ** The sort *)

Lemma insert_sorted_head x l :
  (forall y, head l = Some y -> precedes x y) ->
  insert_sorted byPriority x l = x :: l.
Proof.
  destruct l as [|y l]; intros H; simpl; [done|].
  specialize (H y eq_refl). unfold precedes in H. unfold byPriority.
  destruct (Z.leb_spec (priority y - priority x) 0); [done | lia].
Qed.

Lemma insert_sorted_perm x l : insert_sorted byPriority x l ≡ₚ x :: l.
Proof.
  induction l as [|y l IH]; simpl; [done|].
  destruct (byPriority x y <=? 0); [done|].
  rewrite IH. apply Permutation_swap.
Qed.

Lemma sort_perm l : sort byPriority l ≡ₚ l.
Proof.
  induction l as [|x l IH]; simpl; [done|].
  by rewrite insert_sorted_perm, IH.
Qed.

Lemma sort_length l : length (sort byPriority l) = length l.
Proof. by rewrite sort_perm. Qed.

Lemma insert_sorted_descending x l :
  descending l -> descending (insert_sorted byPriority x l).
Proof.
  unfold descending. induction 1 as [|y l Hl IH Hy]; simpl.
  - repeat constructor.
  - unfold byPriority at 1.
    destruct (Z.leb_spec (priority y - priority x) 0) as [Hle|Hgt].
    + constructor; [by constructor|].
      constructor; [unfold precedes; lia|].
      eapply Forall_impl; [exact Hy|]. unfold precedes. intros; lia.
    + constructor; [done|].
      rewrite insert_sorted_perm. constructor; [unfold precedes; lia | done].
Qed.

Lemma sort_descending l : descending (sort byPriority l).
Proof.
  induction l as [|x l IH]; simpl.
  - constructor.
  - by apply insert_sorted_descending.
Qed.

(** Sorting a sorted queue changes nothing. *)
Lemma sort_descending_id l : descending l -> sort byPriority l = l.
Proof.
  induction 1 as [|x l Hl IH Hx]; simpl; [done|].
  rewrite IH. apply insert_sorted_head.
  intros y Hy. destruct l; simplify_eq/=. by inversion Hx.
Qed.

(** The sort is stable: entries of one priority keep their order. *)
Lemma insert_sorted_stable p x l :
  filter (fun y => priority y = p) (insert_sorted byPriority x l)
  = filter (fun y => priority y = p) (x :: l).
Proof.
  induction l as [|y l IH]; simpl; [done|].
  unfold byPriority at 1.
  destruct (Z.leb_spec (priority y - priority x) 0) as [Hle|Hgt]; [done|].
  rewrite !filter_cons in *.
  destruct (decide (priority y = p)), (decide (priority x = p));
    try lia; by rewrite IH.
Qed.

Lemma sort_stable p l :
  filter (fun y => priority y = p) (sort byPriority l)
  = filter (fun y => priority y = p) l.
Proof.
  induction l as [|x l IH]; simpl; [done|].
  rewrite insert_sorted_stable, !filter_cons. by rewrite IH.
Qed.

(** Two sorted queues whose entries of each priority are the same, in the
    same order, are equal: a stable sort by priority has one result, and
    [sort byPriority] computes it. *)
Lemma descending_stable_unique l1 l2 :
  descending l1 -> descending l2 ->
  (forall p, filter (fun y => priority y = p) l1
             = filter (fun y => priority y = p) l2) ->
  l1 = l2.
Proof.
  intros H1. revert l2. induction H1 as [|x l1 Hl1 IH Hx]; intros l2 H2 Hf.
  - destruct l2 as [|y l2]; [done|].
    specialize (Hf (priority y)). by rewrite filter_cons_True in Hf.
  - destruct H2 as [|y l2 Hl2 Hy].
    { specialize (Hf (priority x)). by rewrite filter_cons_True in Hf. }
    assert (Hxy : priority x = priority y).
    { assert (Hyin : y ∈ x :: l1).
      { pose proof (Hf (priority y)) as H.
        rewrite (filter_cons_True _ y) in H by done.
        assert (y ∈ filter (fun z => priority z = priority y) (x :: l1))
          as Hin by (rewrite H; left).
        by apply list_elem_of_filter in Hin as [_ ?]. }
      assert (Hxin : x ∈ y :: l2).
      { pose proof (Hf (priority x)) as H.
        rewrite (filter_cons_True _ x) in H by done.
        assert (x ∈ filter (fun z => priority z = priority x) (y :: l2))
          as Hin by (rewrite <- H; left).
        by apply list_elem_of_filter in Hin as [_ ?]. }
      rewrite Forall_forall in Hx, Hy. unfold precedes in *.
      apply elem_of_cons in Hyin as [->|Hyin]; [done|].
      apply elem_of_cons in Hxin as [->|Hxin]; [done|].
      specialize (Hx _ Hyin). specialize (Hy _ Hxin). lia. }
    pose proof (Hf (priority x)) as Hp.
    rewrite (filter_cons_True _ x), (filter_cons_True _ y) in Hp by done.
    injection Hp as -> Hp. f_equal. apply IH; [done|].
    intros p. destruct (decide (priority y = p)) as [<-|Hne]; [done|].
    specialize (Hf p). by rewrite !filter_cons_False in Hf.
Qed.

Lemma sort_is_the_stable_sort l l' :
  descending l' ->
  (forall p, filter (fun y => priority y = p) l'
             = filter (fun y => priority y = p) l) ->
  l' = sort byPriority l.
Proof.
  intros Hd Hf. apply descending_stable_unique; [done|apply sort_descending|].
  intros p. by rewrite sort_stable.
Qed.

Lemma filter_all `(P : QueueItem -> Prop) `{!forall x, Decision (P x)} l :
  Forall P l -> filter P l = l.
Proof.
  induction 1 as [|x l Hx _ IH]; [done|].
  by rewrite filter_cons_True, IH.
Qed.

Lemma filter_none `(P : QueueItem -> Prop) `{!forall x, Decision (P x)} l :
  Forall (fun x => ~ P x) l -> filter P l = [].
Proof.
  induction 1 as [|x l Hx _ IH]; [done|].
  by rewrite filter_cons_False, IH.
Qed.

(** [push] then [sort] on a sorted queue: the new entry goes behind every
    entry whose priority is not lower, and before the others. *)
Lemma sort_push q x :
  descending q ->
  sort byPriority (q ++ [x])
  = filter (fun y => priority x <= priority y) q
    ++ x :: filter (fun y => priority y < priority x) q.
Proof.
  induction 1 as [|y q Hq IH Hy]; [done|].
  simpl. rewrite IH. rewrite !filter_cons.
  destruct (decide (priority x <= priority y)) as [Hxy|Hxy].
  - rewrite decide_False by lia. simpl.
    apply insert_sorted_head. intros z Hz.
    destruct (filter _ q) as [|h t] eqn:Hf; simpl in Hz; simplify_eq.
    + unfold precedes; lia.
    + assert (Hin : z ∈ filter (fun y => priority x <= priority y) q)
        by (rewrite Hf; left).
      apply list_elem_of_filter in Hin as [_ Hin].
      rewrite Forall_forall in Hy. by apply Hy.
  - rewrite (decide_True (P := priority y < priority x)) by lia.
    rewrite (filter_none (fun y => priority x <= priority y)).
    2:{ eapply Forall_impl; [exact Hy|]. unfold precedes. intros; lia. }
    rewrite (filter_all (fun y => priority y < priority x)).
    2:{ eapply Forall_impl; [exact Hy|]. unfold precedes. intros; lia. }
    simpl. unfold byPriority at 1.
    destruct (Z.leb_spec (priority x - priority y) 0); [lia|].
    f_equal. apply insert_sorted_head.
    intros z Hz. destruct q; simplify_eq/=. by inversion Hy.
Qed.

(** ** The scheduler loop *)

Lemma free_slot_cond w :
  (running w <? maxConcurrent w) && (0 <? Z.of_nat (length (queue w))) = true
  <-> free_slot w.
Proof.
  unfold free_slot. rewrite andb_true_iff, Z.ltb_lt, Z.ltb_lt.
  destruct (queue w); simpl; split; intros [? ?]; split; try done; lia.
Qed.

Lemma loadImage_begin_dispatch k it rest w :
  has_src w it ->
  loadImage_begin k it (set_queue rest w) = dispatch it rest w.
Proof.
  unfold has_src, loadImage_begin, dispatch. simpl. by intros ->.
Qed.

Lemma loadImage_begin_discard k it rest w :
  ~ has_src w it ->
  loadImage_begin k it (set_queue rest w) = k (discard rest w).
Proof.
  unfold has_src, loadImage_begin, completeImage, discard. simpl.
  by destruct (truthy_opt _).
Qed.

(** Whatever holds before the loop and survives each turn holds after it. *)
Lemma processQueue_fuel_ind (P : World -> Prop) :
  (forall w it rest,
      queue w = it :: rest -> running w < maxConcurrent w ->
      has_src w it -> P w -> P (dispatch it rest w)) ->
  (forall w it rest,
      queue w = it :: rest -> running w < maxConcurrent w ->
      ~ has_src w it -> P w -> P (discard rest w)) ->
  forall fuel w, P w -> P (processQueue_fuel fuel w).
Proof.
  intros Hd Hc. induction fuel as [|fuel IH]; intros w Hw; simpl; [done|].
  destruct ((running w <? maxConcurrent w) && _) eqn:Hcond; [|done].
  apply free_slot_cond in Hcond as [Hlt _].
  destruct (queue w) as [|it rest] eqn:Hq; [done|].
  apply IH.
  destruct (decide (has_src w it)) as [Hs|Hs].
  - rewrite loadImage_begin_dispatch by done. eauto.
  - rewrite loadImage_begin_discard by done. eauto.
Qed.

Lemma processQueue_ind (P : World -> Prop) :
  (forall w it rest,
      queue w = it :: rest -> running w < maxConcurrent w ->
      has_src w it -> P w -> P (dispatch it rest w)) ->
  (forall w it rest,
      queue w = it :: rest -> running w < maxConcurrent w ->
      ~ has_src w it -> P w -> P (discard rest w)) ->
  forall w, P w -> P (processQueue w).
Proof. intros Hd Hc w. apply processQueue_fuel_ind; done. Qed.

(** The loop leaves the queue no longer than it found it. *)
Lemma processQueue_fuel_length fuel w :
  (length (queue (processQueue_fuel fuel w)) <= length (queue w))%nat.
Proof.
  apply (processQueue_fuel_ind
           (fun w' => (length (queue w') <= length (queue w))%nat));
    [| |done]; intros w' it rest Hq _ _ Hw'; simpl; rewrite Hq in Hw';
    simpl in Hw'; lia.
Qed.

(** With [S (length queue)] units of fuel the loop ends because its
    condition fails, not because the fuel is spent. *)
Lemma processQueue_fuel_enough fuel w :
  (length (queue w) < fuel)%nat -> ~ free_slot (processQueue_fuel fuel w).
Proof.
  revert w. induction fuel as [|fuel IH]; intros w Hlen; [lia|]. simpl.
  destruct ((running w <? maxConcurrent w) && _) eqn:Hcond.
  2:{ intros Hf. apply free_slot_cond in Hf. congruence. }
  destruct (queue w) as [|it rest] eqn:Hq.
  { intros [_ Hne]. done. }
  simpl in Hlen. apply IH.
  destruct (decide (has_src w it)) as [Hs|Hs].
  - rewrite loadImage_begin_dispatch by done. simpl. lia.
  - rewrite loadImage_begin_discard by done.
    pose proof (processQueue_fuel_length fuel (discard rest w)) as Hl.
    simpl in Hl. lia.
Qed.

(** More fuel than that changes nothing. *)
Lemma processQueue_fuel_stable fuel w :
  ~ free_slot w -> processQueue_fuel fuel w = w.
Proof.
  intros Hf. destruct fuel; simpl; [done|].
  destruct ((running w <? maxConcurrent w) && _) eqn:Hcond; [|done].
  by apply free_slot_cond in Hcond.
Qed.

Lemma processQueue_fuel_irrelevant fuel1 fuel2 w :
  (length (queue w) < fuel1)%nat -> (length (queue w) < fuel2)%nat ->
  processQueue_fuel fuel1 w = processQueue_fuel fuel2 w.
Proof.
  revert fuel2 w. induction fuel1 as [|fuel1 IH]; intros fuel2 w H1 H2; [lia|].
  destruct fuel2 as [|fuel2]; [lia|]. simpl.
  destruct ((running w <? maxConcurrent w) && _) eqn:Hcond; [|done].
  destruct (queue w) as [|it rest] eqn:Hq; [done|]. simpl in *.
  destruct (decide (has_src w it)) as [Hs|Hs].
  - rewrite !loadImage_begin_dispatch by done. apply IH; simpl; lia.
  - rewrite !loadImage_begin_discard by done.
    rewrite (IH fuel2 (discard rest w)) by (simpl; lia).
    assert (Hnf : ~ free_slot (processQueue_fuel fuel2 (discard rest w)))
      by (apply processQueue_fuel_enough; simpl; lia).
    rewrite (processQueue_fuel_stable fuel1) by done.
    by rewrite (processQueue_fuel_stable fuel2 (processQueue_fuel fuel2 _)).
Qed.

Lemma processQueue_work_conserving w : ~ free_slot (processQueue w).
Proof. apply processQueue_fuel_enough. lia. Qed.

(** ** What the scheduler sees of a world *)

Lemma same_view_refl w : same_view w w.
Proof. constructor; try done. by apply Forall_true. Qed.

Lemma same_view_trans w1 w2 w3 :
  same_view w1 w2 -> same_view w2 w3 -> same_view w1 w3.
Proof.
  intros [Hq ? ? ? ? ? ? ? Hid ?] [Hq' ? ? ? ? ? ? ? Hid' ?].
  constructor; try congruence.
  rewrite Hq in Hid'. rewrite Forall_forall in *.
  intros it Hit. rewrite Hid', Hid; done.
Qed.

(** A change that keeps all ids and sources is invisible to the scheduler. *)
Lemma same_view_intro w w' :
  queue w' = queue w -> running w' = running w ->
  maxConcurrent w' = maxConcurrent w -> maxRetries w' = maxRetries w ->
  retryDelay w' = retryDelay w -> running_trace w' = running_trace w ->
  executions w' = executions w -> timers w' = timers w ->
  (forall r, el_id (dom w' r) = el_id (dom w r)) ->
  (forall r, el_dataset_src (dom w' r) = el_dataset_src (dom w r)) ->
  same_view w w'.
Proof.
  intros. constructor; try done.
  apply Forall_forall. intros it _. unfold id_of. done.
Qed.

Lemma same_view_update_element r f w :
  (forall e, el_id (f e) = el_id e) ->
  (forall e, el_dataset_src (f e) = el_dataset_src e) ->
  same_view w (update_element r f w).
Proof.
  intros Hid Hsrc. apply same_view_intro; try done; intros r'; simpl;
    (destruct (decide (r = r')) as [->|Hne];
     [rewrite fn_lookup_insert | rewrite fn_lookup_insert_ne by done]); done.
Qed.

Lemma same_view_set_objectUrls o w : same_view w (set_objectUrls o w).
Proof. by apply same_view_intro. Qed.

Lemma same_view_set_cacheStore c w : same_view w (set_cacheStore c w).
Proof. by apply same_view_intro. Qed.

Lemma same_view_log_request r w : same_view w (log_request r w).
Proof. by apply same_view_intro. Qed.

Lemma same_view_mark_loaded el w : same_view w (mark_loaded el w).
Proof. by apply same_view_update_element. Qed.

Lemma same_view_loadImageFromNetwork_begin it w :
  same_view w (loadImageFromNetwork_begin it w).
Proof.
  unfold loadImageFromNetwork_begin.
  eapply same_view_trans; [|apply same_view_log_request].
  by apply same_view_update_element.
Qed.

(** [getCachedImage] always completes normally, and changes nothing but the
    registry of object URLs. *)
Lemma getCachedImage_normal io url w :
  exists r o, getCachedImage io url w = (Normal r, set_objectUrls o w).
Proof.
  assert (Hw : w = set_objectUrls (objectUrls w) w) by by destruct w.
  assert (Hnone : exists (r : option string) o,
             (Normal (@None string), w) = (Normal r, set_objectUrls o w)).
  { exists None, (objectUrls w). by f_equal. }
  unfold_M.
  destruct (hasCaches w); simpl; [|done].
  destruct (r_open_fails io); simpl; [done|].
  destruct (r_match_fails io); simpl; [done|].
  destruct (cacheStore w !! url); simpl; [|done].
  destruct (r_blob_fails io); simpl; [done|]. by eauto.
Qed.

(** A hit gives the object URL made for the cached bytes. *)
Lemma getCachedImage_hit w io url bytes :
  cache_hit w io url bytes ->
  getCachedImage io url w
  = (Normal (Some ("blob:" +:+ r_uuid io)),
     set_objectUrls (<["blob:" +:+ r_uuid io := bytes]> (objectUrls w)) w).
Proof.
  intros (Hc & Hs & Ho & Hm & Hb). unfold_M.
  rewrite Hc. simpl. rewrite Ho. simpl. rewrite Hm. simpl. rewrite Hs.
  simpl. by rewrite Hb.
Qed.

(** [cacheImage] always completes normally. *)
Lemma cacheImage_normal io url src w :
  exists w', cacheImage io url src w = (Normal tt, w').
Proof.
  unfold_M.
  destruct (hasCaches w); simpl; [|by eauto].
  destruct (String.prefix "data:" src); simpl; [by eauto|].
  destruct (w_open_fails io); simpl; [by eauto|].
  destruct (w_fetch io) as [|[] body]; simpl; [by eauto| |by eauto].
  destruct (w_put_fails io); simpl; by eauto.
Qed.

Lemma same_view_cacheImage io url src w :
  same_view w (snd (cacheImage io url src w)).
Proof.
  unfold_M.
  destruct (hasCaches w); simpl; [|by apply same_view_intro].
  destruct (String.prefix "data:" src); simpl; [by apply same_view_intro|].
  destruct (w_open_fails io); simpl; [by apply same_view_intro|].
  destruct (w_fetch io) as [|[] body]; simpl;
    [by apply same_view_intro| |by apply same_view_intro].
  destruct (w_put_fails io); simpl; by apply same_view_intro.
Qed.

Lemma same_view_getCachedImage io url w :
  same_view w (snd (getCachedImage io url w)).
Proof.
  destruct (getCachedImage_normal io url w) as (r & o & ->).
  by apply same_view_intro.
Qed.

(** ** The invariant of the loader *)

Lemma Inv_same_view w w' : same_view w w' -> Inv w -> Inv w'.
Proof.
  intros [Hq Hr Hm Hmr Hrd Ht He Htm Hid Hsrc] Hinv.
  assert (Hs : forall it, has_src w it -> has_src w' it).
  { intros it. unfold has_src. by rewrite Hsrc. }
  constructor; rewrite ?Hq, ?Hr, ?Hm, ?Hmr, ?Hrd, ?Ht, ?He, ?Htm;
    try apply Hinv.
  - eapply Forall_impl; [apply (inv_src _ Hinv)|]. exact Hs.
  - apply Forall_fmap_ext in Hid. rewrite Hid. apply Hinv.
  - pose proof (inv_named _ Hinv) as Hn. rewrite Forall_forall in *.
    intros it Hit. rewrite Hid by done. by apply Hn.
Qed.

(** Starting an execution keeps the invariant. *)
Lemma Inv_dispatch w it rest :
  queue w = it :: rest -> running w < maxConcurrent w ->
  Inv w -> Inv (dispatch it rest w).
Proof.
  intros Hq Hlt Hinv.
  pose proof (inv_src _ Hinv) as Hsrc.
  pose proof (inv_ids _ Hinv) as Hids.
  pose proof (inv_named _ Hinv) as Hnamed.
  pose proof (inv_sorted _ Hinv) as Hsorted.
  pose proof (inv_retries_queue _ Hinv) as Hrq.
  pose proof (inv_running _ Hinv) as Hrun.
  rewrite Hq in *.
  constructor; simpl; try apply Hinv.
  - rewrite length_app. simpl. lia.
  - lia.
  - constructor; [lia | apply Hinv].
  - intros Hmax. constructor; [lia | by apply Hinv].
  - by inversion Hsrc.
  - by inversion Hids.
  - by inversion Hnamed.
  - by inversion Hsorted.
  - by inversion Hrq.
  - apply Forall_app. split; [apply Hinv|]. constructor; [|done]. simpl.
    by inversion Hrq.
Qed.

Lemma Inv_processQueue w : Inv w -> Inv (processQueue w).
Proof.
  apply processQueue_ind.
  - intros w' it rest Hq Hlt _. by apply Inv_dispatch.
  - intros w' it rest Hq _ Hs Hinv. destruct Hs.
    pose proof (inv_src _ Hinv) as H. rewrite Hq in H. by inversion H.
Qed.

(** ** Resuming an execution *)

Lemma loadImage_catch_normal queueItem e w :
  loadImage_catch queueItem e w = (Normal tt, catch_effect queueItem w).
Proof.
  unfold catch_effect. unfold_M.
  by destruct (retries queueItem <? maxRetries w).
Qed.

Lemma resume_unfold i ex body w :
  resume i ex body w =
    match body w with
    | (Normal (Suspended ph), w1) => (Normal tt, suspend i ex ph w1)
    | (Normal Done, w1) => (Normal tt, processQueue (finish i w1))
    | (Throw e, w1) =>
        (Normal tt, processQueue (finish i (catch_effect (ex_item ex) w1)))
    end.
Proof.
  unfold resume, try_catch_finally, loadImage_finally, bind, ret, modify.
  destruct (body w) as [[[|ph]|e] w1]; simpl; try done.
  rewrite loadImage_catch_normal. simpl.
  unfold finish, catch_effect. simpl.
  by destruct (retries (ex_item ex) <? maxRetries w1).
Qed.

(** A resumed call of [loadImage] completes normally, whatever the code it
    resumes does. *)
Lemma resume_normal i ex body w :
  resume i ex body w = (Normal tt, snd (resume i ex body w)).
Proof.
  rewrite resume_unfold. by destruct (body w) as [[[|ph]|e] w1].
Qed.

Lemma catch_effect_executions queueItem w :
  executions (catch_effect queueItem w) = executions w.
Proof. unfold catch_effect. by destruct (_ <? _). Qed.

(** The [catch] block keeps the invariant: the attempt has [retries = 0],
    so a timer is armed, for 500 * 2 ^ 1 milliseconds. *)
Lemma Inv_catch_effect queueItem w :
  retries queueItem = 0 -> Inv w -> Inv (catch_effect queueItem w).
Proof.
  intros Hr Hinv. pose proof (inv_config _ Hinv) as [Hmr Hrd].
  unfold catch_effect. rewrite Hr, Hmr, Hrd. simpl.
  constructor; simpl; try apply Hinv.
  apply Forall_app. split; [apply Hinv|]. by constructor.
Qed.

Lemma loadImage_try_cache_unfold ex io w :
  exists r o,
    getCachedImage io (ex_url ex) w = (Normal r, set_objectUrls o w)
    /\ loadImage_try_cache ex io w =
       if truthy_opt r then
         (Normal Done,
          mark_loaded (element (ex_item ex))
            (update_element (element (ex_item ex))
               (set_el_src (to_string r)) (set_objectUrls o w)))
       else
         (Normal (Suspended AwaitNetwork),
          loadImageFromNetwork_begin (ex_item ex) (set_objectUrls o w)).
Proof.
  destruct (getCachedImage_normal io (ex_url ex) w) as (r & o & Hg).
  exists r, o. split; [done|].
  unfold loadImage_try_cache, bind at 1. rewrite Hg.
  by destruct (truthy_opt r).
Qed.

(** [cacheImage] up to its first [await]: the call is suspended at
    [caches.open], unless a guard ends it at once. *)
Lemma cacheImage_begin_unfold url src w :
  cacheImage_begin url src w
  = (Normal tt,
     if hasCaches w && negb (String.prefix "data:" src)
     then set_fills (fills w ++ [mkFill url src AwaitOpen]) w
     else w).
Proof.
  unfold_M. destruct (hasCaches w); simpl; [|done].
  by destruct (String.prefix "data:" src).
Qed.

Lemma same_view_set_fills f w : same_view w (set_fills f w).
Proof. by apply same_view_intro. Qed.

Lemma same_view_cacheImage_begin url src w :
  same_view w (snd (cacheImage_begin url src w)).
Proof.
  rewrite cacheImage_begin_unfold. cbn [snd].
  destruct (_ && _); [apply same_view_set_fills | apply same_view_refl].
Qed.

Lemma loadImage_try_network_unfold ex out w :
  loadImage_try_network ex out w =
    match out with
    | Loaded img_src =>
        let el := element (ex_item ex) in
        let w1 := update_element el (set_el_src img_src) w in
        (Normal Done,
         mark_loaded el
           (snd (cacheImage_begin (ex_url ex) (el_src (dom w1 el)) w1)))
    | Errored => (Throw ImageErrorEvent, w)
    | TimedOut => (Throw LoadTimeout, w)
    end.
Proof.
  unfold loadImage_try_network, loadImageFromNetwork_settle, bind, modify,
    gets, spawn, ret, throw.
  by destruct out.
Qed.

Lemma same_view_try_cache ex io w :
  same_view w (snd (loadImage_try_cache ex io w)).
Proof.
  destruct (loadImage_try_cache_unfold ex io w) as (r & o & _ & ->).
  destruct (truthy_opt r); simpl.
  - eapply same_view_trans; [apply (same_view_set_objectUrls o)|].
    eapply same_view_trans; [|apply same_view_mark_loaded].
    by apply same_view_update_element.
  - eapply same_view_trans; [apply (same_view_set_objectUrls o)|].
    apply same_view_loadImageFromNetwork_begin.
Qed.

Lemma same_view_try_network ex out w :
  same_view w (snd (loadImage_try_network ex out w)).
Proof.
  rewrite loadImage_try_network_unfold.
  destruct out; simpl; try apply same_view_refl.
  eapply same_view_trans; [|apply same_view_mark_loaded].
  eapply same_view_trans; [|apply same_view_cacheImage_begin].
  by apply same_view_update_element.
Qed.

Lemma Inv_finish i w :
  is_Some (executions w !! i) -> Inv w -> Inv (finish i w).
Proof.
  intros Hi Hinv.
  pose proof (inv_running _ Hinv) as Hrun.
  pose proof (inv_bound _ Hinv) as Hb.
  apply lookup_lt_is_Some in Hi.
  constructor; simpl; try apply Hinv.
  - rewrite length_delete by (apply lookup_lt_is_Some; done). lia.
  - lia.
  - constructor; [lia | apply Hinv].
  - intros Hmax. constructor; [lia | by apply Hinv].
  - apply Forall_delete, Hinv.
Qed.

Lemma Inv_suspend i ex ph w :
  executions w !! i = Some ex -> Inv w -> Inv (suspend i ex ph w).
Proof.
  intros Hi Hinv.
  constructor; simpl; try apply Hinv.
  - rewrite length_insert. apply Hinv.
  - apply Forall_insert; [apply Hinv|]. simpl.
    pose proof (inv_retries_exec _ Hinv) as H.
    rewrite Forall_lookup in H. by apply (H i ex).
Qed.

Lemma Inv_resume i ex body w :
  (forall w, same_view w (snd (body w))) ->
  executions w !! i = Some ex -> Inv w ->
  Inv (snd (resume i ex body w)).
Proof.
  intros Hbody Hi Hinv. rewrite resume_unfold.
  specialize (Hbody w).
  destruct (body w) as [[[|ph]|e] w1]; simpl in *.
  - apply Inv_processQueue, Inv_finish.
    + rewrite (sv_executions _ _ Hbody). eauto.
    + by apply (Inv_same_view w).
  - apply Inv_suspend.
    + by rewrite (sv_executions _ _ Hbody).
    + by apply (Inv_same_view w).
  - apply Inv_processQueue, Inv_finish.
    + rewrite catch_effect_executions, (sv_executions _ _ Hbody). eauto.
    + apply Inv_catch_effect; [|by apply (Inv_same_view w)].
      pose proof (inv_retries_exec _ Hinv) as Hre.
      rewrite Forall_lookup in Hre. by apply (Hre i ex).
Qed.

(** ** [addImage] *)

Lemma addImage_unfold el priority_arg rnd now w :
  addImage (Some el) priority_arg rnd now w =
    if negb (truthy_opt (el_dataset_src (dom w el))) then w
    else
      let w1 := named el rnd w in
      match list_find (fun item => id_of w1 item = imageId_of el rnd w)
              (queue w) with
      | Some (existingIndex, _) =>
          set_queue
            (sort byPriority
               (alter (set_priority (default 0 priority_arg)) existingIndex
                  (queue w))) w1
      | None =>
          processQueue
            (set_queue
               (sort byPriority
                  (queue w ++ [mkItem el (default 0 priority_arg) 0 now])) w1)
      end.
Proof. reflexivity. Qed.

Lemma imageId_of_truthy el rnd w : truthy (imageId_of el rnd w) = true.
Proof.
  unfold imageId_of. destruct (truthy (el_id (dom w el))) eqn:H; done.
Qed.

Lemma named_id el rnd w : el_id (dom (named el rnd w) el) = imageId_of el rnd w.
Proof.
  unfold named, imageId_of. simpl. rewrite fn_lookup_insert. simpl.
  by destruct (truthy (el_id (dom w el))).
Qed.

Lemma named_other el rnd w r : r <> el -> dom (named el rnd w) r = dom w r.
Proof. intros Hne. unfold named. simpl. by rewrite fn_lookup_insert_ne. Qed.

Lemma named_src el rnd w r :
  el_dataset_src (dom (named el rnd w) r) = el_dataset_src (dom w r).
Proof.
  unfold named. simpl. destruct (decide (el = r)) as [->|Hne].
  - by rewrite fn_lookup_insert.
  - by rewrite fn_lookup_insert_ne.
Qed.

(** An element that already has an id keeps it. *)
Lemma named_keeps_id el rnd w r :
  truthy (el_id (dom w r)) = true ->
  el_id (dom (named el rnd w) r) = el_id (dom w r).
Proof.
  intros Ht. unfold named. simpl. destruct (decide (el = r)) as [->|Hne].
  - rewrite fn_lookup_insert. simpl. by rewrite Ht.
  - by rewrite fn_lookup_insert_ne.
Qed.

Lemma same_view_named el rnd w :
  Forall (fun it => truthy (id_of w it) = true) (queue w) ->
  same_view w (named el rnd w).
Proof.
  intros Hn. constructor; try done.
  - eapply Forall_impl; [exact Hn|]. intros it Hit.
    by apply named_keeps_id.
  - intros r. apply named_src.
Qed.

Lemma fmap_id_of_alter w p (i : nat) (q : list QueueItem) :
  id_of w <$> alter (set_priority p) i q = id_of w <$> q.
Proof.
  revert i. induction q as [|x q IH]; intros [|i]; simpl; try done.
  f_equal. apply IH.
Qed.

Lemma Inv_reprioritise w p i :
  Inv w ->
  Inv (set_queue (sort byPriority (alter (set_priority p) i (queue w))) w).
Proof.
  intros Hinv.
  constructor; simpl; try apply Hinv;
    change (has_src (set_queue ?q w)) with (has_src w);
    change (id_of (set_queue ?q w)) with (id_of w).
  - rewrite sort_perm. apply Forall_alter; [apply Hinv|]. by intros.
  - rewrite sort_perm, fmap_id_of_alter. apply Hinv.
  - rewrite sort_perm. apply Forall_alter; [apply Hinv|]. by intros.
  - apply sort_descending.
  - rewrite sort_perm. apply Forall_alter; [apply Hinv|]. by intros.
Qed.

Lemma Inv_push w it :
  Inv w -> has_src w it -> truthy (id_of w it) = true -> retries it = 0 ->
  Forall (fun x => id_of w x <> id_of w it) (queue w) ->
  Inv (set_queue (sort byPriority (queue w ++ [it])) w).
Proof.
  intros Hinv Hs Hn Hr Hfresh.
  constructor; simpl; try apply Hinv;
    change (has_src (set_queue ?q w)) with (has_src w);
    change (id_of (set_queue ?q w)) with (id_of w).
  - rewrite sort_perm. apply Forall_app. split; [apply Hinv|]. by constructor.
  - rewrite sort_perm, fmap_app. apply NoDup_app. split; [apply Hinv|].
    split; [|apply NoDup_singleton].
    intros s Hin Hin'. apply list_elem_of_singleton in Hin'. subst s.
    apply list_elem_of_fmap in Hin as (x & Hx & Hxin).
    rewrite Forall_forall in Hfresh. by apply (Hfresh x).
  - rewrite sort_perm. apply Forall_app. split; [apply Hinv|]. by constructor.
  - apply sort_descending.
  - rewrite sort_perm. apply Forall_app. split; [apply Hinv|]. by constructor.
Qed.

Lemma Inv_addImage imgElement priority_arg rnd now w :
  Inv w -> Inv (addImage imgElement priority_arg rnd now w).
Proof.
  intros Hinv. destruct imgElement as [el|]; [|done].
  rewrite addImage_unfold.
  destruct (truthy_opt (el_dataset_src (dom w el))) eqn:Hsrc; simpl; [|done].
  assert (Hinv1 : Inv (named el rnd w)).
  { eapply Inv_same_view; [|done]. apply same_view_named, Hinv. }
  destruct (list_find _ _) as [[i it]|] eqn:Hfind.
  - by apply (Inv_reprioritise (named el rnd w)).
  - apply Inv_processQueue.
    apply (Inv_push (named el rnd w)); try done.
    + unfold has_src. cbn [element]. by rewrite named_src.
    + unfold id_of. cbn [element]. rewrite named_id. apply imageId_of_truthy.
    + apply list_find_None in Hfind.
      eapply Forall_impl; [exact Hfind|]. intros x Hx. cbn beta in *.
      unfold id_of at 2. cbn [element]. by rewrite named_id.
Qed.

(** A settlement of a call of [cacheImage] completes normally and touches
    nothing but the requests issued, the cache and the list of such
    calls. *)
Lemma fill_step ev w c w' :
  is_fill ev = true -> step ev w = Some (c, w') ->
  c = Normal tt /\ fill_only w w'.
Proof.
  intros Hev Hstep.
  destruct ev as [| | | | |j fails|j result|j fails]; try done;
    simpl in Hstep;
    (destruct (fills w !! j) as [f|]; [|done]);
    destruct (fl_phase f) as [| |body]; try done; unfold_M.
  - destruct fails; simpl in Hstep; by simplify_eq.
  - destruct result as [|[] body]; simpl in Hstep; by simplify_eq.
  - destruct fails; simpl in Hstep; by simplify_eq.
Qed.

Lemma fill_only_same_view w w' : fill_only w w' -> same_view w w'.
Proof.
  intros []. apply same_view_intro; try done.
  all: unfold id_of; intros; congruence.
Qed.

(** Every step keeps the invariant. *)
Lemma Inv_step ev w c w' : Inv w -> step ev w = Some (c, w') -> Inv w'.
Proof.
  intros Hinv Hstep.
  destruct (is_fill ev) eqn:Hfill.
  { destruct (fill_step ev w c w' Hfill Hstep) as [_ Hf].
    apply (Inv_same_view w); [by apply fill_only_same_view | done]. }
  destruct ev as [el p rnd now| |i io|i out|i rnd now| | |]; try done;
    simpl in Hstep.
  - simplify_eq. by apply Inv_addImage.
  - simplify_eq. constructor; simpl; try apply Hinv; try constructor.
  - destruct (executions w !! i) as [ex|] eqn:Hi; [|done].
    destruct (ex_phase ex); [|done]. simplify_eq.
    replace w' with (snd (resume i ex (loadImage_try_cache ex io) w))
      by (by rewrite Hstep).
    apply Inv_resume; try done. apply same_view_try_cache.
  - destruct (executions w !! i) as [ex|] eqn:Hi; [|done].
    destruct (ex_phase ex); [done|]. simplify_eq.
    replace w' with (snd (resume i ex (loadImage_try_network ex out) w))
      by (by rewrite Hstep).
    apply Inv_resume; try done. apply same_view_try_network.
  - destruct (timers w !! i) as [t|] eqn:Hi; [|done]. simplify_eq.
    apply Inv_addImage.
    constructor; simpl; try apply Hinv. apply Forall_delete, Hinv.
Qed.

Lemma Inv_new maxConcurrent_arg d caches c :
  Inv (new_ImageLoadQueue maxConcurrent_arg d caches c).
Proof. constructor; simpl; try done; try constructor. Qed.

Lemma Inv_reachable w0 w : Inv w0 -> reachable w0 w -> Inv w.
Proof.
  intros H0. induction 1 as [|w ev c w' _ IH Hstep]; [done|].
  by eapply Inv_step.
Qed.

(** ** What the scheduler leaves alone *)

Lemma processQueue_scheduler_only w : scheduler_only w (processQueue w).
Proof.
  apply (processQueue_ind (scheduler_only w)); [| |by constructor];
    intros w' it rest _ _ _ []; by constructor.
Qed.

(** The executions the loop starts are appended, all at their first
    [await]; those already suspended stay as they are. *)
Lemma processQueue_executions w :
  exists new,
    executions (processQueue w) = executions w ++ new
    /\ Forall (fun ex => ex_phase ex = AwaitCache) new.
Proof.
  apply (processQueue_ind (fun w' =>
    exists new, executions w' = executions w ++ new
                /\ Forall (fun ex => ex_phase ex = AwaitCache) new)).
  - intros w' it rest _ _ _ (new & He & Hnew).
    eexists (new ++ [_]). simpl. rewrite He, <- app_assoc. split; [done|].
    apply Forall_app. split; [done|]. by constructor.
  - intros w' it rest _ _ _ (new & He & Hnew). by exists new.
  - exists []. by rewrite app_nil_r.
Qed.

Lemma config_processQueue w : config (processQueue w) = config w.
Proof.
  destruct (processQueue_scheduler_only w). unfold config. congruence.
Qed.

Lemma config_addImage imgElement priority_arg rnd now w :
  config (addImage imgElement priority_arg rnd now w) = config w.
Proof.
  destruct imgElement as [el|]; [|done]. rewrite addImage_unfold.
  destruct (negb _); [done|]. cbn zeta.
  destruct (list_find _ _) as [[i it]|]; [done|].
  by rewrite config_processQueue.
Qed.

Lemma config_getCachedImage io url w :
  config (snd (getCachedImage io url w)) = config w.
Proof. by destruct (getCachedImage_normal io url w) as (r & o & ->). Qed.

Lemma config_cacheImage_begin url src w :
  config (snd (cacheImage_begin url src w)) = config w.
Proof. rewrite cacheImage_begin_unfold. cbn [snd]. by destruct (_ && _). Qed.

Lemma config_cacheImage io url src w :
  config (snd (cacheImage io url src w)) = config w.
Proof.
  unfold_M.
  destruct (hasCaches w) eqn:Hc; simpl; [|done].
  destruct (String.prefix "data:" src); simpl; [done|].
  destruct (w_open_fails io); simpl; [done|].
  destruct (w_fetch io) as [|[] body]; simpl; [done| |done].
  destruct (w_put_fails io); simpl; done.
Qed.

Lemma config_catch_effect it w : config (catch_effect it w) = config w.
Proof. unfold catch_effect. by destruct (_ <? _). Qed.

Lemma config_try_cache ex io w :
  config (snd (loadImage_try_cache ex io w)) = config w.
Proof.
  destruct (loadImage_try_cache_unfold ex io w) as (r & o & _ & ->).
  by destruct (truthy_opt r).
Qed.

Lemma config_try_network ex out w :
  config (snd (loadImage_try_network ex out w)) = config w.
Proof.
  rewrite loadImage_try_network_unfold. destruct out; try done. simpl.
  unfold config. simpl. apply config_cacheImage_begin.
Qed.

Lemma config_resume i ex body w :
  (forall w, config (snd (body w)) = config w) ->
  config (snd (resume i ex body w)) = config w.
Proof.
  intros Hbody. rewrite resume_unfold. specialize (Hbody w).
  destruct (body w) as [[[|ph]|e] w1]; simpl in *.
  - by rewrite config_processQueue.
  - done.
  - rewrite config_processQueue.
    transitivity (config (catch_effect (ex_item ex) w1)); [done|].
    by rewrite config_catch_effect.
Qed.

Lemma config_step ev w c w' : step ev w = Some (c, w') -> config w' = config w.
Proof.
  intros Hstep.
  destruct (is_fill ev) eqn:Hfill.
  { destruct (fill_step ev w c w' Hfill Hstep) as [_ []].
    unfold config. congruence. }
  destruct ev as [el p rnd now| |i io|i out|i rnd now| | |]; try done;
    simpl in Hstep.
  - simplify_eq. apply config_addImage.
  - by simplify_eq.
  - destruct (executions w !! i) as [ex|]; [|done].
    destruct (ex_phase ex); [|done]. simplify_eq.
    replace w' with (snd (resume i ex (loadImage_try_cache ex io) w))
      by (by rewrite Hstep).
    apply config_resume. apply config_try_cache.
  - destruct (executions w !! i) as [ex|]; [|done].
    destruct (ex_phase ex); [done|]. simplify_eq.
    replace w' with (snd (resume i ex (loadImage_try_network ex out) w))
      by (by rewrite Hstep).
    apply config_resume. apply config_try_network.
  - destruct (timers w !! i) as [t|]; [|done]. simplify_eq.
    unfold retry_callback. by rewrite config_addImage.
Qed.

Lemma config_reachable w0 w : reachable w0 w -> config w = config w0.
Proof.
  induction 1 as [|w ev c w' _ IH Hstep]; [done|].
  rewrite <- IH. by eapply config_step.
Qed.

Lemma reachable_run w0 evs w : reachable w0 w -> reachable w0 (run evs w).
Proof.
  revert w. induction evs as [|ev evs IH]; intros w Hw; simpl; [done|].
  destruct (step ev w) as [[c w']|] eqn:Hstep; [|by apply IH].
  apply IH. by eapply reachable_step.
Qed.

(** ** Bounded concurrency *)

(** C1.  From [new ImageLoadQueue(n)] with [n >= 0], whatever events occur
    ([addImage], [clear], settlements of the cache and of the network, retry
    timers): [maxConcurrent] stays [n]; the counter [running] lies between 0
    and [maxConcurrent]; so did every value ever written to it; and it
    counts exactly the suspended calls of [loadImage]. *)
Theorem running_within_bounds maxConcurrent_arg d caches c w :
  0 <= default 2 maxConcurrent_arg ->
  reachable (new_ImageLoadQueue maxConcurrent_arg d caches c) w ->
  maxConcurrent w = default 2 maxConcurrent_arg
  /\ 0 <= running w <= maxConcurrent w
  /\ Forall (fun r => 0 <= r <= maxConcurrent w) (running_trace w)
  /\ running w = Z.of_nat (length (executions w)).
Proof.
  intros Hmax Hreach.
  assert (Hm : maxConcurrent w = default 2 maxConcurrent_arg).
  { apply config_reachable in Hreach. unfold config in Hreach.
    by simplify_eq/=. }
  pose proof (Inv_reachable _ _ (Inv_new _ _ _ _) Hreach) as Hinv.
  rewrite <- Hm in Hmax.
  pose proof (inv_running _ Hinv) as Hrun.
  pose proof (inv_bound _ Hinv Hmax) as Hb.
  pose proof (inv_trace_lo _ Hinv) as Hlo.
  pose proof (inv_trace_hi _ Hinv Hmax) as Hhi.
  repeat split; try done; try lia.
  rewrite Forall_forall in *. intros r Hr. split; eauto.
Qed.

Lemma running_within_bounds_witness :
  maxConcurrent after_three_submitted = 2
  /\ 0 <= running after_three_submitted <= maxConcurrent after_three_submitted
  /\ Forall (fun r => 0 <= r <= maxConcurrent after_three_submitted)
       (running_trace after_three_submitted)
  /\ running after_three_submitted
     = Z.of_nat (length (executions after_three_submitted)).
Proof.
  apply (running_within_bounds (Some 2) page true ∅).
  - simpl. lia.
  - apply reachable_run, reachable_init.
Defined.

(** The values the counter took on the way to [after_three_submitted],
    latest first. *)
Example running_trace_after_three_submitted :
  running_trace after_three_submitted = [2; 1; 2; 1]
  /\ running after_three_submitted = 2.
Proof. by vm_compute. Qed.

(** The bound rests on the page leaving [data-src] alone, as it does (no
    other code of main.js writes it).  Were the source of a queued image
    dropped, [loadImage] would go through [completeImage], which counts
    down a [running] that was never counted up for that entry: here the
    counter ends at -1 with nothing in flight. *)
Example running_after_source_dropped :
  (fun w => (running w, length (executions w)))
    <$> run_all (first_loads ++ [CacheSettled 0 cache_ok;
                                 NetworkSettled 0 Errored])
          source_dropped
  = Some (-1, 0%nat).
Proof. by vm_compute. Qed.

(** ** Work conservation *)

Lemma free_slot_same_view w w' : same_view w w' -> free_slot w' -> free_slot w.
Proof.
  intros Hsv [Hlt Hq]. unfold free_slot.
  by rewrite <- (sv_running _ _ Hsv), <- (sv_maxConcurrent _ _ Hsv),
    <- (sv_queue _ _ Hsv).
Qed.

Lemma work_addImage imgElement priority_arg rnd now w :
  ~ free_slot w -> ~ free_slot (addImage imgElement priority_arg rnd now w).
Proof.
  intros Hw. destruct imgElement as [el|]; [|done].
  rewrite addImage_unfold. destruct (negb _); [done|]. cbn zeta.
  destruct (list_find _ _) as [[i it]|].
  - intros [Hlt Hq]. apply Hw. split; [done|]. simpl in Hq.
    intros Hnil. apply Hq. rewrite Hnil. by destruct i.
  - apply processQueue_work_conserving.
Qed.

Lemma work_resume i ex body w :
  (forall w, same_view w (snd (body w))) ->
  ~ free_slot w -> ~ free_slot (snd (resume i ex body w)).
Proof.
  intros Hbody Hw. rewrite resume_unfold. specialize (Hbody w).
  destruct (body w) as [[[|ph]|e] w1]; simpl in *.
  - apply processQueue_work_conserving.
  - intros Hf. apply Hw. by apply (free_slot_same_view w w1).
  - apply processQueue_work_conserving.
Qed.

Lemma work_step ev w c w' :
  ~ free_slot w -> step ev w = Some (c, w') -> ~ free_slot w'.
Proof.
  intros Hw Hstep.
  destruct (is_fill ev) eqn:Hfill.
  { destruct (fill_step ev w c w' Hfill Hstep) as [_ Hf].
    intros Hfree. apply Hw.
    apply (free_slot_same_view w w'); [by apply fill_only_same_view | done]. }
  destruct ev as [el p rnd now| |i io|i out|i rnd now| | |]; try done;
    simpl in Hstep.
  - simplify_eq. by apply work_addImage.
  - simplify_eq. by intros [_ Hq].
  - destruct (executions w !! i) as [ex|]; [|done].
    destruct (ex_phase ex); [|done]. simplify_eq.
    replace w' with (snd (resume i ex (loadImage_try_cache ex io) w))
      by (by rewrite Hstep).
    apply work_resume; [apply same_view_try_cache | done].
  - destruct (executions w !! i) as [ex|]; [|done].
    destruct (ex_phase ex); [done|]. simplify_eq.
    replace w' with (snd (resume i ex (loadImage_try_network ex out) w))
      by (by rewrite Hstep).
    apply work_resume; [apply same_view_try_network | done].
  - destruct (timers w !! i) as [t|]; [|done]. simplify_eq.
    by apply work_addImage.
Qed.

Lemma work_reachable maxConcurrent_arg d caches c w :
  reachable (new_ImageLoadQueue maxConcurrent_arg d caches c) w ->
  ~ free_slot w.
Proof.
  induction 1 as [|w ev k w' _ IH Hstep].
  - by intros [_ Hq].
  - by eapply work_step.
Qed.

(** With every queued element having a source, the loop starts the first
    [startable w] entries, in order. *)
Lemma processQueue_fuel_count fuel w :
  (length (queue w) < fuel)%nat ->
  Forall (has_src w) (queue w) ->
  queue (processQueue_fuel fuel w) = drop (startable w) (queue w)
  /\ executions (processQueue_fuel fuel w)
     = executions w ++ (start w <$> take (startable w) (queue w))
  /\ running (processQueue_fuel fuel w) = running w + Z.of_nat (startable w)
  /\ dom (processQueue_fuel fuel w) = dom w.
Proof.
  revert w. induction fuel as [|fuel IH]; intros w Hlen Hsrc; [lia|].
  simpl. unfold startable.
  destruct ((running w <? maxConcurrent w) && _) eqn:Hcond.
  - apply free_slot_cond in Hcond as [Hlt Hne].
    destruct (queue w) as [|it rest] eqn:Hq; [done|].
    inversion Hsrc as [|? ? Hit Hrest]; subst.
    rewrite loadImage_begin_dispatch by done.
    destruct (IH (dispatch it rest w)) as (H1 & H2 & H3 & H4).
    { simpl in *. lia. }
    { done. }
    unfold startable in *. simpl in H1, H2, H3, H4. simpl length.
    replace (Z.to_nat (maxConcurrent w - running w))
      with (S (Z.to_nat (maxConcurrent w - (running w + 1)))) by lia.
    simpl. rewrite H1, H2, H3, H4, <- app_assoc. simpl.
    repeat split; try done. lia.
  - assert (Hk : Nat.min (length (queue w))
                   (Z.to_nat (maxConcurrent w - running w)) = 0%nat).
    { apply andb_false_iff in Hcond as [Hc|Hc].
      - apply Z.ltb_ge in Hc. lia.
      - apply Z.ltb_ge in Hc. lia. }
    rewrite Hk. simpl. rewrite app_nil_r. repeat split; try done. lia.
Qed.

Lemma processQueue_startable w :
  Forall (has_src w) (queue w) ->
  queue (processQueue w) = drop (startable w) (queue w)
  /\ executions (processQueue w)
     = executions w ++ (start w <$> take (startable w) (queue w))
  /\ running (processQueue w) = running w + Z.of_nat (startable w).
Proof.
  intros Hsrc.
  destruct (processQueue_fuel_count (S (length (queue w))) w)
    as (H1 & H2 & H3 & _); [lia|done|].
  done.
Qed.

(** The [catch] block leaves the scheduler's fields and every source as
    they are. *)
Lemma catch_effect_frame it w :
  queue (catch_effect it w) = queue w
  /\ running (catch_effect it w) = running w
  /\ maxConcurrent (catch_effect it w) = maxConcurrent w
  /\ executions (catch_effect it w) = executions w
  /\ forall r, el_dataset_src (dom (catch_effect it w) r)
               = el_dataset_src (dom w r).
Proof.
  unfold catch_effect. destruct (_ <? _); repeat split; try done.
  intros r. simpl. destruct (decide (element it = r)) as [->|Hne].
  - by rewrite fn_lookup_insert.
  - by rewrite fn_lookup_insert_ne.
Qed.

(** A call of [loadImage] that ends while the loader is full and entries
    wait: the slot it gives back goes to the head of the queue. *)
Lemma resume_starts_next i ex body w it rest :
  Inv w -> 0 <= maxConcurrent w -> ~ free_slot w ->
  queue w = it :: rest ->
  (forall w, same_view w (snd (body w))) ->
  (forall ph, fst (body w) <> Normal (Suspended ph)) ->
  queue (snd (resume i ex body w)) = rest
  /\ executions (snd (resume i ex body w))
     = delete i (executions w) ++ [start w it]
  /\ running (snd (resume i ex body w)) = running w.
Proof.
  intros Hinv Hmax Hfull Hq Hbody Hdone.
  assert (Hrun : running w = maxConcurrent w).
  { pose proof (inv_bound _ Hinv Hmax).
    destruct (decide (running w < maxConcurrent w)); [|lia].
    destruct Hfull. split; [done|by rewrite Hq]. }
  assert (Hgoal : forall w2,
    queue w2 = queue w -> running w2 = running w - 1 ->
    maxConcurrent w2 = maxConcurrent w ->
    executions w2 = delete i (executions w) ->
    (forall r, el_dataset_src (dom w2 r) = el_dataset_src (dom w r)) ->
    queue (processQueue w2) = rest
    /\ executions (processQueue w2) = delete i (executions w) ++ [start w it]
    /\ running (processQueue w2) = running w).
  { intros w2 H2q H2r H2m H2e H2s.
    destruct (processQueue_startable w2) as (H1 & H2 & H3).
    { rewrite H2q. eapply Forall_impl; [apply (inv_src _ Hinv)|].
      intros x Hx. unfold has_src in *. by rewrite H2s. }
    assert (Hk : startable w2 = 1%nat).
    { unfold startable. rewrite H2q, H2r, H2m, Hq. simpl length. lia. }
    rewrite Hk, H2q, Hq in H1, H2. rewrite Hk in H3.
    simpl in H1, H2. rewrite ?drop_0 in H1. rewrite ?take_0 in H2.
    split; [done|]. split; [|lia].
    rewrite H2, H2e. unfold start. by rewrite H2s. }
  rewrite resume_unfold. specialize (Hbody w). specialize (Hdone).
  destruct (body w) as [[[|ph]|e] w1]; cbn [fst snd] in *.
  - apply Hgoal; cbn [queue running maxConcurrent executions dom finish
                      set_running set_executions].
    + apply (sv_queue _ _ Hbody).
    + by rewrite (sv_running _ _ Hbody).
    + apply (sv_maxConcurrent _ _ Hbody).
    + by rewrite (sv_executions _ _ Hbody).
    + apply (sv_src _ _ Hbody).
  - by destruct (Hdone ph).
  - destruct (catch_effect_frame (ex_item ex) w1) as (Hc1 & Hc2 & Hc3 & Hc4 & Hc5).
    apply Hgoal; cbn [queue running maxConcurrent executions dom finish
                      set_running set_executions].
    + rewrite Hc1. apply (sv_queue _ _ Hbody).
    + by rewrite Hc2, (sv_running _ _ Hbody).
    + rewrite Hc3. apply (sv_maxConcurrent _ _ Hbody).
    + by rewrite Hc4, (sv_executions _ _ Hbody).
    + intros r. rewrite Hc5. apply (sv_src _ _ Hbody).
Qed.

(** [addImage] for a new target while a slot is free: the image starts
    loading at once. *)
Lemma addImage_starts el priority_arg rnd now w :
  Inv w -> ~ free_slot w ->
  truthy_opt (el_dataset_src (dom w el)) = true ->
  running w < maxConcurrent w ->
  let w' := addImage (Some el) priority_arg rnd now w in
  queue w' = []
  /\ executions w'
     = executions w
       ++ [mkExec (mkItem el (default 0 priority_arg) 0 now)
             (to_string (el_dataset_src (dom w el))) AwaitCache]
  /\ running w' = running w + 1.
Proof.
  intros Hinv Hfull Hsrc Hlt w'.
  assert (Hq : queue w = []).
  { destruct (queue w) eqn:Hq; [done|]. destruct Hfull.
    split; [done|by rewrite Hq]. }
  unfold w'. rewrite addImage_unfold, Hsrc, Hq. cbn [negb list_find app sort
    insert_sorted]. cbv zeta. cbn [fmap option_fmap option_map].
  set (it := mkItem el (default 0 priority_arg) 0 now).
  destruct (processQueue_startable (set_queue [it] (named el rnd w)))
    as (H1 & H2 & H3).
  { repeat constructor. unfold has_src. cbn [queue dom set_queue element it].
    by rewrite named_src. }
  assert (Hk : startable (set_queue [it] (named el rnd w)) = 1%nat).
  { unfold startable.
    change (queue (set_queue [it] (named el rnd w))) with [it].
    change (maxConcurrent (set_queue [it] (named el rnd w)))
      with (maxConcurrent w).
    change (running (set_queue [it] (named el rnd w))) with (running w).
    simpl length. lia. }
  rewrite Hk in H1, H2, H3. cbn [queue set_queue] in H1, H2.
  rewrite H1, H2, H3. split; [done|]. split; [|done].
  cbn [take fmap list_fmap]. unfold start.
  cbn [dom set_queue element it executions]. by rewrite named_src.
Qed.

(** C6.  When [processQueue] returns, there is no free slot: it is not the
    case that [running < maxConcurrent] while the queue is non-empty; and
    the slots were filled from the queue: with every queued element having
    a source, the call starts the first [min (queued, free slots)] entries,
    in order, each as an execution at its first [await].  In every world
    the loader reaches there is no free slot and every queued element has a
    source; a submission that finds a slot free starts at once; and when a
    call of [loadImage] ends (the network load settles, or the cache
    lookup is a hit) while entries wait, the head of the queue is started
    in the same step. *)
Theorem work_conservation maxConcurrent_arg d caches c w :
  ~ (running (processQueue w) < maxConcurrent (processQueue w)
     /\ queue (processQueue w) <> [])
  /\ (Forall (has_src w) (queue w) ->
      queue (processQueue w) = drop (startable w) (queue w)
      /\ executions (processQueue w)
         = executions w ++ (start w <$> take (startable w) (queue w))
      /\ running (processQueue w) = running w + Z.of_nat (startable w))
  /\ (reachable (new_ImageLoadQueue maxConcurrent_arg d caches c) w ->
      ~ (running w < maxConcurrent w /\ queue w <> [])
      /\ Forall (has_src w) (queue w)
      /\ (forall el priority_arg rnd now,
            truthy_opt (el_dataset_src (dom w el)) = true ->
            running w < maxConcurrent w ->
            let w' := addImage (Some el) priority_arg rnd now w in
            queue w' = []
            /\ executions w'
               = executions w
                 ++ [mkExec (mkItem el (default 0 priority_arg) 0 now)
                       (to_string (el_dataset_src (dom w el))) AwaitCache]
            /\ running w' = running w + 1)
      /\ (forall it rest i out k w',
            0 <= maxConcurrent w -> queue w = it :: rest ->
            step (NetworkSettled i out) w = Some (k, w') ->
            queue w' = rest
            /\ executions w' = delete i (executions w) ++ [start w it]
            /\ running w' = running w)
      /\ (forall it rest i io ex bytes k w',
            0 <= maxConcurrent w -> queue w = it :: rest ->
            executions w !! i = Some ex ->
            cache_hit w io (ex_url ex) bytes ->
            step (CacheSettled i io) w = Some (k, w') ->
            queue w' = rest
            /\ executions w' = delete i (executions w) ++ [start w it]
            /\ running w' = running w)).
Proof.
  split; [apply processQueue_work_conserving|].
  split; [apply processQueue_startable|].
  intros Hreach.
  pose proof (Inv_reachable _ _ (Inv_new _ _ _ _) Hreach) as Hinv.
  pose proof (work_reachable _ _ _ _ _ Hreach) as Hfull.
  split; [done|]. split; [apply Hinv|]. split; [|split].
  - intros el priority_arg rnd now Hsrc Hlt. by apply addImage_starts.
  - intros it rest i out k w' Hmax Hq Hstep. simpl in Hstep.
    destruct (executions w !! i) as [ex|] eqn:Hi; [|done].
    destruct (ex_phase ex); [done|]. simplify_eq.
    replace w' with (snd (resume i ex (loadImage_try_network ex out) w))
      by (by rewrite Hstep).
    apply resume_starts_next; try done.
    + apply same_view_try_network.
    + intros ph. rewrite loadImage_try_network_unfold. by destruct out.
  - intros it rest i io ex bytes k w' Hmax Hq Hi Hhit Hstep. simpl in Hstep.
    rewrite Hi in Hstep. destruct (ex_phase ex); [|done]. simplify_eq.
    replace w' with (snd (resume i ex (loadImage_try_cache ex io) w))
      by (by rewrite Hstep).
    apply resume_starts_next; try done.
    + apply same_view_try_cache.
    + intros ph.
      destruct (loadImage_try_cache_unfold ex io w) as (r & o & Hg & ->).
      rewrite (getCachedImage_hit _ _ _ _ Hhit) in Hg. by simplify_eq.
Qed.

Lemma work_conservation_witness :
  ~ (running third_waits < maxConcurrent third_waits
     /\ queue third_waits <> [])
  /\ queue (run [NetworkSettled 0 Errored]
              (run [CacheSettled 0 cache_ok] third_waits))
     = []
  /\ executions (run [NetworkSettled 0 Errored]
                   (run [CacheSettled 0 cache_ok] third_waits))
     = [mkExec (mkItem 1 0 0 11) "/proxy/image?url=b" AwaitCache;
        mkExec (mkItem 2 0 0 12) "/proxy/image?url=c" AwaitCache].
Proof.
  assert (Hr : reachable imageLoadQueue third_waits)
    by apply reachable_run, reachable_init.
  destruct (work_conservation (Some 2) page true ∅ third_waits)
    as (_ & _ & H).
  destruct (H Hr) as (H1 & _). clear H.
  split; [exact H1|].
  destruct (work_conservation (Some 2) page true ∅
              (run [CacheSettled 0 cache_ok] third_waits))
    as (_ & _ & H).
  destruct (H (reachable_run _ _ _ Hr)) as (_ & _ & _ & H2 & _). clear H.
  destruct (H2 (mkItem 2 0 0 12) [] 0%nat Errored (Normal tt)
              (run [NetworkSettled 0 Errored]
                 (run [CacheSettled 0 cache_ok] third_waits)))
    as (H3 & H4 & _); [by vm_compute..|].
  split; [exact H3|]. rewrite H4. by vm_compute.
Defined.

(** ** One entry per target *)

Lemma alter_as_insert (f : QueueItem -> QueueItem) (l : list QueueItem) i x :
  l !! i = Some x -> alter f i l = <[i := f x]> l.
Proof.
  revert i. induction l as [|y l IH]; intros [|i] Hi; simplify_eq/=; [done|].
  f_equal. by apply IH.
Qed.

Lemma named_is_same el rnd w r :
  truthy (el_id (dom w el)) = true -> dom (named el rnd w) r = dom w r.
Proof.
  intros Ht. unfold named. simpl. destruct (decide (el = r)) as [->|Hne].
  - rewrite fn_lookup_insert. rewrite Ht. by destruct (dom w r).
  - by rewrite fn_lookup_insert_ne.
Qed.

(** [addImage] for an element whose id is that of a queued entry. *)
Lemma addImage_pending el priority_arg rnd now w i it :
  Inv w ->
  queue w !! i = Some it ->
  id_of w it = el_id (dom w el) ->
  truthy_opt (el_dataset_src (dom w el)) = true ->
  let w' := addImage (Some el) priority_arg rnd now w in
  queue w'
  = sort byPriority (<[i := set_priority (default 0 priority_arg) it]> (queue w))
  /\ running w' = running w
  /\ executions w' = executions w
  /\ running_trace w' = running_trace w
  /\ netlog w' = netlog w
  /\ timers w' = timers w
  /\ forall r, dom w' r = dom w r.
Proof.
  intros Hinv Hi Hid Hsrc. cbn zeta. rewrite addImage_unfold, Hsrc. cbn.
  pose proof (inv_named _ Hinv) as Hn.
  pose proof (inv_ids _ Hinv) as Hnd.
  assert (Ht : truthy (el_id (dom w el)) = true).
  { rewrite Forall_lookup in Hn. rewrite <- Hid. by apply (Hn i). }
  assert (Himg : imageId_of el rnd w = el_id (dom w el)).
  { unfold imageId_of. by rewrite Ht. }
  destruct (list_find _ _) as [[j y]|] eqn:Hfind.
  - apply list_find_Some in Hfind as (Hj & Hy & _).
    assert (j = i) as ->.
    { apply (NoDup_lookup _ j i (id_of w y) Hnd).
      - by rewrite list_lookup_fmap, Hj.
      - rewrite list_lookup_fmap, Hi. simpl. f_equal.
        rewrite Hid, <- Himg, <- Hy. unfold id_of.
        by rewrite named_is_same. }
    simplify_eq. rewrite (alter_as_insert _ _ _ _ Hi). simpl.
    repeat split; try done. intros r. by apply named_is_same.
  - apply list_find_None in Hfind. rewrite Forall_lookup in Hfind.
    destruct (Hfind i it Hi). rewrite Himg, <- Hid. unfold id_of.
    by rewrite named_is_same.
Qed.

(** C4.  In every world the loader reaches, no two queue entries have the
    same element id.  And [addImage] for an element that has a source and
    whose id is that of a queued entry changes that entry's priority to the
    new one (default 0) and re-sorts: the queue is the old one, up to
    order, with that entry replaced by the entry of the same element,
    retries and timestamp and of the new priority; the entry of that id has
    the new priority, and every other entry is one of the old queue; the
    queue still has one entry per id; no execution starts ([running], the
    executions, the requests issued and the timers are the same) and no
    element changes. *)
Theorem one_entry_per_target maxConcurrent_arg d caches c w :
  reachable (new_ImageLoadQueue maxConcurrent_arg d caches c) w ->
  NoDup (id_of w <$> queue w)
  /\ forall el priority_arg rnd now i it,
       queue w !! i = Some it ->
       id_of w it = el_id (dom w el) ->
       truthy_opt (el_dataset_src (dom w el)) = true ->
       let w' := addImage (Some el) priority_arg rnd now w in
       queue w'
         ≡ₚ <[i := mkItem (element it) (default 0 priority_arg) (retries it)
                       (timestamp it)]> (queue w)
       /\ (exists x, x ∈ queue w' /\ id_of w' x = el_id (dom w el))
       /\ (forall x, x ∈ queue w' -> id_of w' x = el_id (dom w el) ->
                     priority x = default 0 priority_arg
                     /\ element x = element it
                     /\ retries x = retries it
                     /\ timestamp x = timestamp it)
       /\ (forall x, x ∈ queue w' -> id_of w' x <> el_id (dom w el) ->
                     x ∈ queue w)
       /\ length (queue w') = length (queue w)
       /\ NoDup (id_of w' <$> queue w')
       /\ running w' = running w
       /\ executions w' = executions w
       /\ netlog w' = netlog w
       /\ timers w' = timers w
       /\ forall r, dom w' r = dom w r.
Proof.
  intros Hreach.
  pose proof (Inv_reachable _ _ (Inv_new _ _ _ _) Hreach) as Hinv.
  split; [apply Hinv|].
  intros el priority_arg rnd now i it Hi Hid Hsrc w'.
  destruct (addImage_pending el priority_arg rnd now w i it Hinv Hi Hid Hsrc)
    as (Hq & Hr & He & _ & Hl & Ht & Hd).
  fold w' in Hq, Hr, He, Hl, Ht, Hd.
  set (it' := mkItem (element it) (default 0 priority_arg) (retries it)
                (timestamp it)).
  change (set_priority (default 0 priority_arg) it) with it' in Hq.
  assert (Hlt : (i < length (queue w))%nat) by by eapply lookup_lt_Some.
  assert (Hid' : forall x, id_of w' x = id_of w x).
  { intros x. unfold id_of. by rewrite Hd. }
  assert (Hmem : forall x, x ∈ queue w' <->
                           x = it' \/ exists j, j <> i /\ queue w !! j = Some x).
  { intros x. rewrite Hq, sort_perm, list_elem_of_lookup. split.
    - intros [j Hj]. destruct (decide (j = i)) as [->|Hne].
      + rewrite list_lookup_insert_eq in Hj by done. left. by simplify_eq.
      + rewrite list_lookup_insert_ne in Hj by done. right. by exists j.
    - intros [->|(j & Hne & Hj)].
      + exists i. by apply list_lookup_insert_eq.
      + exists j. by rewrite list_lookup_insert_ne. }
  assert (Hother : forall j x, j <> i -> queue w !! j = Some x ->
                               id_of w x <> el_id (dom w el)).
  { intros j x Hne Hj Hx. apply Hne.
    apply (NoDup_lookup _ j i (id_of w x) (inv_ids _ Hinv)).
    - by rewrite list_lookup_fmap, Hj.
    - rewrite list_lookup_fmap, Hi. simpl. by rewrite Hid, Hx. }
  split; [rewrite Hq; apply sort_perm|].
  split; [exists it'; split; [apply Hmem; by left|by rewrite Hid']|].
  split.
  { intros x Hx Hxid. apply Hmem in Hx as [->|(j & Hne & Hj)]; [done|].
    destruct (Hother j x Hne Hj). by rewrite <- Hid'. }
  split.
  { intros x Hx Hxid. apply Hmem in Hx as [->|(j & Hne & Hj)].
    - destruct Hxid. by rewrite Hid'.
    - by eapply list_elem_of_lookup_2. }
  repeat split; try done.
  - rewrite Hq, sort_length. apply length_insert.
  - apply (inv_ids w'). by apply Inv_addImage.
Qed.

(** ** The order of dispatch *)

Lemma descending_lookup q i j a b :
  descending q -> (i < j)%nat ->
  q !! i = Some a -> q !! j = Some b -> precedes a b.
Proof.
  intros Hq. revert i j. induction Hq as [|x q Hq IH Hx]; intros i j Hij Hi Hj.
  { done. }
  destruct j as [|j]; [lia|]. simpl in Hj. destruct i as [|i].
  - simplify_eq/=. rewrite Forall_forall in Hx. apply Hx.
    by eapply list_elem_of_lookup_2.
  - simpl in Hi. apply (IH i j); [lia|done..].
Qed.

(** In a sorted queue a strictly higher priority stands nearer the head. *)
Lemma descending_higher_first q i j a b :
  descending q -> q !! i = Some a -> q !! j = Some b ->
  priority b < priority a -> (i < j)%nat.
Proof.
  intros Hq Hi Hj Hlt.
  destruct (decide (i < j)%nat) as [|Hge]; [done|].
  destruct (decide (i = j)) as [->|Hne]; [simplify_eq; lia|].
  assert (precedes b a) by (apply (descending_lookup q j i); [done|lia|done..]).
  unfold precedes in *. lia.
Qed.

(** If every queued element has a source, the loop starts executions for a
    prefix of the queue, head first, and leaves the rest. *)
Lemma processQueue_prefix w :
  Forall (has_src w) (queue w) ->
  exists k,
    queue (processQueue w) = drop k (queue w)
    /\ executions (processQueue w)
       = executions w ++ (start w <$> take k (queue w)).
Proof.
  intros Hsrc.
  enough (dom (processQueue w) = dom w /\
          exists k,
            queue (processQueue w) = drop k (queue w)
            /\ executions (processQueue w)
               = executions w ++ (start w <$> take k (queue w)))
    as [_ H] by done.
  apply (processQueue_ind (fun w' =>
    dom w' = dom w /\
    exists k,
      queue w' = drop k (queue w)
      /\ executions w'
         = executions w ++ (start w <$> take k (queue w)))).
  - intros w' it rest Hq _ _ (Hdom & k & Hk & He).
    assert (Hlook : queue w !! k = Some it).
    { rewrite <- (Nat.add_0_r k), <- lookup_drop, <- Hk, Hq. done. }
    split; [done|]. exists (S k). simpl. split.
    + rewrite (drop_S _ _ _ Hlook) in Hk. congruence.
    + rewrite He, (take_S_r _ _ _ Hlook), fmap_app, <- app_assoc.
      unfold start. simpl. by rewrite Hdom.
  - intros w' it rest Hq _ Hs (Hdom & k & Hk & He). destruct Hs.
    assert (Hlook : queue w !! k = Some it).
    { rewrite <- (Nat.add_0_r k), <- lookup_drop, <- Hk, Hq. done. }
    rewrite Forall_lookup in Hsrc. specialize (Hsrc k it Hlook).
    unfold has_src in *. by rewrite Hdom.
  - split; [done|]. exists 0%nat. simpl. by rewrite app_nil_r.
Qed.

(** [addImage] for a new target while every slot is taken. *)
Lemma addImage_new_waiting el priority_arg rnd now w :
  Inv w ->
  truthy_opt (el_dataset_src (dom w el)) = true ->
  Forall (fun x => id_of w x <> imageId_of el rnd w) (queue w) ->
  maxConcurrent w <= running w ->
  let p := default 0 priority_arg in
  queue (addImage (Some el) priority_arg rnd now w)
  = filter (fun y => p <= priority y) (queue w)
    ++ mkItem el p 0 now :: filter (fun y => priority y < p) (queue w).
Proof.
  intros Hinv Hsrc Hfresh Hfull p. rewrite addImage_unfold, Hsrc.
  cbn [negb]. cbv zeta.
  pose proof (inv_named _ Hinv) as Hn.
  destruct (list_find _ _) as [[j y]|] eqn:Hfind.
  - apply list_find_Some in Hfind as (Hj & Hy & _).
    rewrite Forall_lookup in Hfresh, Hn. destruct (Hfresh j y Hj).
    rewrite <- Hy. unfold id_of. symmetry. apply named_keeps_id.
    by apply (Hn j).
  - unfold processQueue. rewrite processQueue_fuel_stable.
    + simpl. apply (sort_push (queue w)), Hinv.
    + intros [Hlt _]. simpl in Hlt. lia.
Qed.

(** C5, as stated, fails, whichever submission counts.  After
    [reprioritised] the queue holds the fourth image (pushed at 13) before
    the third (pushed at 12), both at priority 5: the first pushed is not
    first.  After [lowered] it holds the third image (last added at 14)
    before the fourth (added at 13), both at priority 5: the first added is
    not first either. *)
Lemma first_submitted_not_first :
  (reachable imageLoadQueue (run reprioritised imageLoadQueue)
   /\ queue (run reprioritised imageLoadQueue)
      = [mkItem 3 5 0 13; mkItem 2 5 0 12]
   /\ ~ first_submitted_first (run reprioritised imageLoadQueue))
  /\ (reachable imageLoadQueue (run lowered imageLoadQueue)
      /\ queue (run lowered imageLoadQueue)
         = [mkItem 2 5 0 12; mkItem 3 5 0 13]
      /\ ~ last_submitted_first lowered (run lowered imageLoadQueue)).
Proof.
  split.
  - split; [apply reachable_run, reachable_init|].
    split; [by vm_compute|].
    intros H.
    specialize (H 1%nat 0%nat (mkItem 2 5 0 12) (mkItem 3 5 0 13)).
    assert (1 < 0)%nat; [|lia].
    apply H; by vm_compute.
  - split; [apply reachable_run, reachable_init|].
    split; [by vm_compute|].
    intros H.
    specialize (H 1%nat 0%nat (mkItem 3 5 0 13) (mkItem 2 5 0 12) 13 14).
    assert (1 < 0)%nat; [|lia].
    apply H; by vm_compute.
Qed.

(** C5, amended.  In every world the loader reaches:
    - the queue is sorted by descending priority, so of two queued entries
      the one with strictly higher priority is nearer the head;
    - a scheduler step starts executions for a prefix of the queue, head
      first, and leaves the rest queued;
    - a new target added while others are queued goes behind every queued
      entry whose priority is not lower, and before the others;
    - adding a queued target again gives it the new priority and re-sorts
      stably: among the entries of each priority the order is the one they
      had in the queue before the sort, whenever they were submitted. *)
Theorem dispatch_order maxConcurrent_arg d caches c w :
  reachable (new_ImageLoadQueue maxConcurrent_arg d caches c) w ->
  descending (queue w)
  /\ (forall i j a b,
        queue w !! i = Some a -> queue w !! j = Some b ->
        priority b < priority a -> (i < j)%nat)
  /\ (forall w1,
        queue w1 = queue w -> dom w1 = dom w ->
        exists k,
          queue (processQueue w1) = drop k (queue w)
          /\ executions (processQueue w1)
             = executions w1 ++ (start w <$> take k (queue w)))
  /\ (forall el priority_arg rnd now,
        truthy_opt (el_dataset_src (dom w el)) = true ->
        Forall (fun x => id_of w x <> imageId_of el rnd w) (queue w) ->
        queue w <> [] ->
        let p := default 0 priority_arg in
        queue (addImage (Some el) priority_arg rnd now w)
        = filter (fun y => p <= priority y) (queue w)
          ++ mkItem el p 0 now :: filter (fun y => priority y < p) (queue w))
  /\ (forall el priority_arg rnd now i it,
        queue w !! i = Some it ->
        id_of w it = el_id (dom w el) ->
        truthy_opt (el_dataset_src (dom w el)) = true ->
        let w' := addImage (Some el) priority_arg rnd now w in
        descending (queue w')
        /\ forall p',
             filter (fun y => priority y = p') (queue w')
             = filter (fun y => priority y = p')
                 (<[i := set_priority (default 0 priority_arg) it]> (queue w))).
Proof.
  intros Hreach.
  pose proof (Inv_reachable _ _ (Inv_new _ _ _ _) Hreach) as Hinv.
  pose proof (work_reachable _ _ _ _ _ Hreach) as Hwork.
  split; [apply Hinv|]. split; [|split; [|split]].
  - intros i j a b. apply descending_higher_first, Hinv.
  - intros w1 Hq Hdom.
    destruct (processQueue_prefix w1) as (k & Hk & He).
    { rewrite Hq. unfold has_src. rewrite Hdom. apply Hinv. }
    exists k. rewrite Hk, He, Hq. split; [done|].
    unfold start. by rewrite Hdom.
  - intros el priority_arg rnd now Hsrc Hfresh Hne p.
    apply addImage_new_waiting; try done.
    destruct (decide (running w < maxConcurrent w)); [|lia].
    destruct Hwork. by split.
  - intros el priority_arg rnd now i it Hi Hid Hsrc w'.
    destruct (addImage_pending el priority_arg rnd now w i it Hinv Hi Hid Hsrc)
      as (Hq & _).
    fold w' in Hq. rewrite Hq. split; [apply sort_descending|].
    intros p'. apply sort_stable.
Qed.

(** ** Cache first *)

Lemma classList_add_elem c e : c ∈ el_classList (classList_add c e).
Proof.
  unfold classList_add. simpl. case_bool_decide; [done|].
  apply elem_of_app. right. left.
Qed.

Lemma classList_remove_elem c c' e :
  c ∈ el_classList (classList_remove c' e) <-> c ∈ el_classList e /\ c <> c'.
Proof.
  unfold classList_remove. simpl. rewrite list_elem_of_filter. tauto.
Qed.

(** The element after lines 112-113. *)
Lemma mark_loaded_element el w :
  let e := dom (mark_loaded el w) el in
  el_src e = el_src (dom w el)
  /\ "image-loaded" ∈ el_classList e
  /\ ("image-loading" ∉ el_classList e)
  /\ ("image-error" ∉ el_classList e).
Proof.
  unfold mark_loaded. simpl. rewrite fn_lookup_insert.
  split; [done|]. rewrite !classList_remove_elem. split; [|split].
  - split; [split|]; [apply classList_add_elem|done..].
  - intros [[_ H] _]. done.
  - intros [_ H]. done.
Qed.


(** ** Errors stay inside *)

(** C9.  Nothing the loader runs hands an exception to its caller.
    [getCachedImage] and [cacheImage] complete normally whatever the Cache
    API and [fetch] do.  A resumed [loadImage] completes normally whatever
    the code it resumes does, be it a throw: the [catch] and [finally]
    blocks do not throw.  Hence every step of the loader ([addImage],
    [clear], a settlement, a retry timer) completes normally, in every
    world; and [getQueueStatus] is a plain read of three fields. *)
Theorem no_error_escapes :
  (forall io url w, exists r w', getCachedImage io url w = (Normal r, w'))
  /\ (forall io url src w, exists w', cacheImage io url src w = (Normal tt, w'))
  /\ (forall i ex body w, exists w', resume i ex body w = (Normal tt, w'))
  /\ (forall ev w,
        match step ev w with
        | Some (c, _) => c = Normal tt
        | None => True
        end)
  /\ (forall w,
        getQueueStatus w
        = mkStatus (Z.of_nat (length (queue w))) (running w) (maxConcurrent w)).
Proof.
  assert (Hres : forall i ex body w,
             exists w', resume i ex body w = (Normal tt, w')).
  { intros i ex body w. rewrite resume_normal. eauto. }
  split; [|split; [|split; [|split]]].
  - intros io url w.
    destruct (getCachedImage_normal io url w) as (r & o & ->). eauto.
  - apply cacheImage_normal.
  - exact Hres.
  - intros ev w. destruct (is_fill ev) eqn:Hfill.
    { destruct (step ev w) as [[c w']|] eqn:Hstep; [|done].
      by destruct (fill_step ev w c w' Hfill Hstep). }
    destruct ev as [el p rnd now| |i io|i out|i rnd now| | |]; simpl;
      try done.
    + destruct (executions w !! i) as [ex|]; [|done].
      destruct (ex_phase ex); [|done].
      by destruct (Hres i ex (loadImage_try_cache ex io) w) as (w' & ->).
    + destruct (executions w !! i) as [ex|]; [|done].
      destruct (ex_phase ex); [done|].
      by destruct (Hres i ex (loadImage_try_network ex out) w) as (w' & ->).
    + by destruct (timers w !! i).
  - done.
Qed.

(** ** Filling the cache *)

(** C10, as stated, fails: where the Cache API is missing, [cacheImage]
    returns at once and fetches nothing, though the source is not a
    [data:] URL. *)
Lemma cacheImage_may_not_fetch :
  ~ (String.prefix "data:" cover_a_loaded = false ->
     Fetch cover_a_loaded
     ∈ netlog (snd (cacheImage put_ok cover_a cover_a_loaded without_caches))).
Proof.
  intros H. specialize (H eq_refl). vm_compute in H.
  by apply elem_of_nil in H.
Qed.

(** C10, amended.  [cacheImage] completes normally and leaves the queue, the
    counter [running], its history, the executions, the DOM and the timers
    as they are.  It issues one [fetch], of the [src] it is given, exactly
    when the Cache API is present, [src] is not a [data:] URL and the cache
    opens, and none otherwise; the counter does not move for it.  The body
    of an [ok] response is stored under [url], unless [put] fails. *)
Theorem cacheImage_effect io url src w :
  let w' := snd (cacheImage io url src w) in
  fst (cacheImage io url src w) = Normal tt
  /\ queue w' = queue w
  /\ running w' = running w
  /\ running_trace w' = running_trace w
  /\ executions w' = executions w
  /\ dom w' = dom w
  /\ timers w' = timers w
  /\ netlog w'
     = (if reaches_fetch w io src then netlog w ++ [Fetch src] else netlog w)
  /\ cacheStore w'
     = (if reaches_fetch w io src then
          match w_fetch io with
          | FetchResponse true body =>
              if w_put_fails io then cacheStore w
              else <[url := body]> (cacheStore w)
          | _ => cacheStore w
          end
        else cacheStore w).
Proof.
  unfold reaches_fetch. unfold_M.
  destruct (hasCaches w); simpl; [|done].
  destruct (String.prefix "data:" src); simpl; [done|].
  destruct (w_open_fails io); simpl; [done|].
  destruct (w_fetch io) as [|[] body]; simpl; [done| |done].
  by destruct (w_put_fails io).
Qed.

(** The call of [cacheImage] seen from start to end is the call run piece
    by piece with nothing in between: the part up to the first [await],
    then the three settlements, as far as the call gets. *)
Lemma cacheImage_in_steps io url src w :
  run [FillOpened (length (fills w)) (w_open_fails io);
       FillFetched (length (fills w)) (w_fetch io);
       FillStored (length (fills w)) (w_put_fails io)]
    (snd (cacheImage_begin url src w))
  = snd (cacheImage io url src w).
Proof.
  rewrite cacheImage_begin_unfold. cbn [snd].
  assert (Hnone : fills w !! length (fills w) = None)
    by by apply lookup_ge_None_2.
  assert (Hself : set_fills (fills w) w = w) by by destruct w.
  assert (Hrhs : snd (cacheImage io url src w)
    = if hasCaches w && negb (String.prefix "data:" src) then
        if w_open_fails io then w
        else
          match w_fetch io with
          | FetchRejected => log_request (Fetch src) w
          | FetchResponse ok body =>
              if ok && negb (w_put_fails io) then
                set_cacheStore (<[url := body]> (cacheStore w))
                  (log_request (Fetch src) w)
              else log_request (Fetch src) w
          end
      else w).
  { unfold_M. destruct (hasCaches w); simpl; [|done].
    destruct (String.prefix "data:" src); simpl; [done|].
    destruct (w_open_fails io); simpl; [done|].
    destruct (w_fetch io) as [|[] body]; simpl; [done| |done].
    by destruct (w_put_fails io). }
  rewrite Hrhs. clear Hrhs.
  destruct (hasCaches w && negb (String.prefix "data:" src)).
  2: { cbn [run step]. by rewrite Hnone. }
  set (f := mkFill url src AwaitOpen).
  set (j := length (fills w)) in *.
  assert (Hlook : forall g, (fills w ++ [g]) !! j = Some g)
    by (intros g; by apply list_lookup_middle).
  assert (Hdel : forall g, delete j (fills w ++ [g]) = fills w)
    by (intros g; unfold j; by rewrite delete_middle, app_nil_r).
  assert (Hins : forall g h, <[j := h]> (fills w ++ [g]) = fills w ++ [h]).
  { intros g h. unfold j. rewrite insert_app_r_alt by done.
    by rewrite Nat.sub_diag. }
  cbn [run step fills set_fills]. rewrite Hlook. cbn [fl_phase f].
  unfold_M. destruct (w_open_fails io); cbn [fst snd].
  { cbn [run step fills set_fills]. rewrite Hdel, Hnone.
    by destruct w. }
  cbn [run step fills set_fills log_request]. rewrite Hins, Hlook.
  cbn [fl_phase].
  destruct (w_fetch io) as [|[] body]; cbn [fst snd andb].
  - cbn [run step fills set_fills]. rewrite Hdel, Hnone. by destruct w.
  - cbn [run step fills set_fills]. rewrite Hins, Hlook. cbn [fl_phase].
    destruct (w_put_fails io); cbn [fst snd negb fills set_fills set_cacheStore];
      rewrite Hdel; by destruct w.
  - cbn [run step fills set_fills]. rewrite Hdel, Hnone. by destruct w.
Qed.

(** ** [clear] and the requests in flight *)

(** The code between two [await]s of [loadImage] neither reads nor writes
    the scheduler's fields. *)
Lemma getCachedImage_with_scheduler s io url w :
  getCachedImage io url (with_scheduler s w)
  = (fst (getCachedImage io url w),
     with_scheduler s (snd (getCachedImage io url w))).
Proof.
  unfold_M. simpl.
  destruct (hasCaches w); simpl; [|done].
  destruct (r_open_fails io); simpl; [done|].
  destruct (r_match_fails io); simpl; [done|].
  destruct (cacheStore w !! url); simpl; [|done].
  destruct (r_blob_fails io); simpl; done.
Qed.

Lemma try_cache_with_scheduler s ex io w :
  loadImage_try_cache ex io (with_scheduler s w)
  = (fst (loadImage_try_cache ex io w),
     with_scheduler s (snd (loadImage_try_cache ex io w))).
Proof.
  unfold loadImage_try_cache, bind, modify, ret.
  rewrite getCachedImage_with_scheduler.
  destruct (getCachedImage io (ex_url ex) w) as [[r|e] w1]; simpl; [|done].
  by destruct (truthy_opt r).
Qed.

Lemma cacheImage_with_scheduler s io url src w :
  snd (cacheImage io url src (with_scheduler s w))
  = with_scheduler s (snd (cacheImage io url src w)).
Proof.
  unfold_M. simpl.
  destruct (hasCaches w); simpl; [|done].
  destruct (String.prefix "data:" src); simpl; [done|].
  destruct (w_open_fails io); simpl; [done|].
  destruct (w_fetch io) as [|[] body]; simpl; [done| |done].
  by destruct (w_put_fails io).
Qed.

Lemma cacheImage_begin_with_scheduler s url src w :
  snd (cacheImage_begin url src (with_scheduler s w))
  = with_scheduler s (snd (cacheImage_begin url src w)).
Proof.
  rewrite !cacheImage_begin_unfold. cbn [snd].
  change (hasCaches (with_scheduler s w)) with (hasCaches w).
  by destruct (_ && _).
Qed.

Lemma try_network_with_scheduler s ex out w :
  loadImage_try_network ex out (with_scheduler s w)
  = (fst (loadImage_try_network ex out w),
     with_scheduler s (snd (loadImage_try_network ex out w))).
Proof.
  rewrite !loadImage_try_network_unfold. destruct out; try done.
  cbn zeta. cbn [fst snd]. f_equal.
  set (el := element (ex_item ex)).
  change (update_element el (set_el_src img_src) (with_scheduler s w))
    with (with_scheduler s (update_element el (set_el_src img_src) w)).
  rewrite cacheImage_begin_with_scheduler. done.
Qed.

(** Nor does the code between two [await]s of [cacheImage]. *)
Lemma fill_step_with_scheduler s ev w :
  is_fill ev = true ->
  step ev (with_scheduler s w)
  = match step ev w with
    | Some (c, w') => Some (c, with_scheduler s w')
    | None => None
    end.
Proof.
  intros Hev.
  destruct ev as [| | | | |j fails|j result|j fails]; try done; simpl;
    (destruct (fills w !! j) as [f|]; [|done]);
    destruct (fl_phase f) as [| |body]; try done; unfold_M.
  - by destruct fails.
  - by destruct result as [|[] body].
  - by destruct fails.
Qed.

Lemma catch_effect_with_scheduler s it w :
  catch_effect it (with_scheduler s w) = with_scheduler s (catch_effect it w).
Proof. unfold catch_effect. simpl. by destruct (_ <? _). Qed.

Lemma processQueue_empty w : queue w = [] -> processQueue w = w.
Proof.
  intros Hq. apply processQueue_fuel_stable. intros [_ Hne]. done.
Qed.

Lemma with_scheduler_self w : with_scheduler w w = w.
Proof. by destruct w. Qed.

Lemma delete_app_lt {A} (l1 l2 : list A) i :
  (i < length l1)%nat -> delete i (l1 ++ l2) = delete i l1 ++ l2.
Proof.
  revert i. induction l1 as [|x l1 IH]; intros [|i] Hi; simpl in *;
    try lia; [done|].
  f_equal. apply IH. lia.
Qed.

Lemma with_scheduler_eq s w w' :
  scheduler_only w w' -> with_scheduler s w' = with_scheduler s w.
Proof. intros []. unfold with_scheduler. congruence. Qed.

Lemma twin_resume a b i ex body :
  (forall s w, body (with_scheduler s w)
               = (fst (body w), with_scheduler s (snd (body w)))) ->
  cleared_twin a b ->
  executions b !! i = Some ex ->
  cleared_twin (snd (resume i ex body a)) (snd (resume i ex body b)).
Proof.
  intros Hbody [Hout Hq [new Hnew]] Hi.
  assert (Hlt : (i < length (executions b))%nat) by by eapply lookup_lt_Some.
  assert (Hex : executions (snd (body a)) = executions a).
  { pose proof (Hbody a a) as H. rewrite with_scheduler_self in H.
    destruct (body a) as [c a1]. simpl in *.
    injection H as H. by rewrite H. }
  rewrite !resume_unfold. rewrite Hout, Hbody.
  destruct (body a) as [[[|ph]|e] a1]; cbn [fst snd] in *.
  - rewrite (processQueue_empty (finish i (with_scheduler b a1))) by done.
    destruct (processQueue_executions (finish i a1)) as (new' & He & _).
    constructor.
    + by rewrite (with_scheduler_eq _ _ _
                    (processQueue_scheduler_only (finish i a1))).
    + done.
    + rewrite He. simpl. rewrite Hex, Hnew, delete_app_lt by done.
      rewrite <- app_assoc. by apply prefix_app_r.
  - constructor.
    + done.
    + done.
    + simpl. rewrite Hex, Hnew, insert_app_l by done. by apply prefix_app_r.
  - rewrite catch_effect_with_scheduler.
    set (a2 := catch_effect (ex_item ex) a1).
    assert (Hex2 : executions a2 = executions a).
    { rewrite <- Hex. unfold a2, catch_effect. by destruct (_ <? _). }
    rewrite (processQueue_empty (finish i (with_scheduler b a2))) by done.
    destruct (processQueue_executions (finish i a2)) as (new' & He & _).
    constructor.
    + by rewrite (with_scheduler_eq _ _ _
                    (processQueue_scheduler_only (finish i a2))).
    + done.
    + rewrite He. simpl. rewrite Hex2, Hnew, delete_app_lt by done.
      rewrite <- app_assoc. by apply prefix_app_r.
Qed.

(** A settlement that can occur after [clear] can occur without it, and
    leaves the two worlds twins again. *)
Lemma twin_step a b ev c b' :
  cleared_twin a b -> is_settlement ev = true ->
  step ev b = Some (c, b') ->
  exists a', step ev a = Some (c, a') /\ cleared_twin a' b'.
Proof.
  intros Htwin Hev Hstep.
  destruct (is_fill ev) eqn:Hfill.
  { destruct Htwin as [Hout Hq Hpre].
    rewrite Hout, (fill_step_with_scheduler b ev a Hfill) in Hstep.
    destruct (step ev a) as [[c' a']|] eqn:Ha; [|done]. simplify_eq.
    destruct (fill_step ev a c a' Hfill Ha) as [_ Hf].
    exists a'. split; [done|]. constructor; [done|done|].
    cbn [executions with_scheduler]. by rewrite (fo_executions _ _ Hf). }
  destruct ev as [| |i io|i out| | | |]; try done; simpl in *.
  - destruct (executions b !! i) as [ex|] eqn:Hi; [|done].
    rewrite (prefix_lookup_Some _ _ _ _ Hi (twin_executions _ _ Htwin)).
    destruct (ex_phase ex); [|done].
    pose proof (twin_resume a b i ex (loadImage_try_cache ex io)
                  (fun s w => try_cache_with_scheduler s ex io w) Htwin Hi)
      as Hres.
    rewrite resume_normal in Hstep. rewrite resume_normal.
    simplify_eq. eauto.
  - destruct (executions b !! i) as [ex|] eqn:Hi; [|done].
    rewrite (prefix_lookup_Some _ _ _ _ Hi (twin_executions _ _ Htwin)).
    destruct (ex_phase ex); [done|].
    pose proof (twin_resume a b i ex (loadImage_try_network ex out)
                  (fun s w => try_network_with_scheduler s ex out w) Htwin Hi)
      as Hres.
    rewrite resume_normal in Hstep. rewrite resume_normal.
    simplify_eq. eauto.
Qed.

Lemma twin_run evs a b b' :
  cleared_twin a b -> forallb is_settlement evs = true ->
  run_all evs b = Some b' ->
  exists a', run_all evs a = Some a' /\ cleared_twin a' b'.
Proof.
  revert a b. induction evs as [|ev evs IH]; intros a b Htwin Hevs Hrun;
    simpl in *.
  - simplify_eq. eauto.
  - apply andb_true_iff in Hevs as [Hev Hevs].
    destruct (step ev b) as [[c b1]|] eqn:Hstep; [|done].
    destruct (twin_step a b ev c b1 Htwin Hev Hstep) as (a1 & -> & Htwin1).
    by apply (IH a1 b1).
Qed.

Lemma twin_clear w : cleared_twin w (clear w).
Proof. constructor; try done. Qed.

Lemma twin_outcome a b : cleared_twin a b -> outcome b = outcome a.
Proof. intros [Hout _ _]. rewrite Hout. done. Qed.

(** C8.  [clear()] empties the queue and changes no other field of the
    loader or of its environment.  And the requests in flight end as they
    would have without it: any sequence of settlements that can occur after
    [clear()] can occur, step for step, in the world where [clear()] was not
    called, and leaves the same DOM, retry timers, requests issued, cache
    and object URLs in both. *)
Theorem clear_isolation w :
  queue (clear w) = []
  /\ running (clear w) = running w
  /\ maxConcurrent (clear w) = maxConcurrent w
  /\ cacheName (clear w) = cacheName w
  /\ maxRetries (clear w) = maxRetries w
  /\ retryDelay (clear w) = retryDelay w
  /\ cacheStore (clear w) = cacheStore w
  /\ executions (clear w) = executions w
  /\ running_trace (clear w) = running_trace w
  /\ outcome (clear w) = outcome w
  /\ forall evs b,
       forallb is_settlement evs = true ->
       run_all evs (clear w) = Some b ->
       exists a, run_all evs w = Some a /\ outcome b = outcome a.
Proof.
  repeat split; try done.
  intros evs b Hevs Hrun.
  destruct (twin_run evs w (clear w) b (twin_clear w) Hevs Hrun)
    as (a & Ha & Htwin).
  exists a. split; [done|]. by apply twin_outcome.
Qed.

(** ** Retries *)

(** Subtraction is exact on the safe integers. *)
Lemma js_minus_safe a b :
  - 2 ^ 53 <= a - b <= 2 ^ 53 -> js_minus a b = a - b.
Proof.
  intros H. unfold js_minus, round_to_double.
  destruct (Z.leb_spec (Z.abs (a - b)) (2 ^ 53)); [done|lia].
Qed.

(** Below the safe integers [priority - 1] is [priority] again. *)
Lemma js_minus_saturates : js_minus (- 2 ^ 53) 1 = - 2 ^ 53.
Proof. reflexivity. Qed.

(** What line 118-124 do for an attempt that may be retried: the entry's
    counter goes up by one, and a timer is armed that will call [addImage]
    for the same element with [priority - 1], after
    [retryDelay * 2 ^ retries] milliseconds ([retries] already counted
    up). *)
Lemma retry_branch queueItem e w :
  retries queueItem < maxRetries w ->
  exists t,
    loadImage_catch queueItem e w = (Normal tt, set_timers (timers w ++ [t]) w)
    /\ tm_element t = element queueItem
    /\ retries (tm_item t) = retries queueItem + 1
    /\ tm_delay t = retryDelay w * 2 ^ retries (tm_item t)
    /\ forall rnd now w',
         retry_callback t rnd now w'
         = addImage (Some (element queueItem))
             (Some (js_minus (priority queueItem) 1)) rnd now w'.
Proof.
  intros Hlt. rewrite loadImage_catch_normal. unfold catch_effect.
  apply Z.ltb_lt in Hlt. rewrite Hlt. eexists. split; [reflexivity|]. done.
Qed.

Lemma no_new_error_dom w w' : dom w' = dom w -> no_new_error w w'.
Proof. intros H r. by rewrite H. Qed.

Lemma no_new_error_trans w1 w2 w3 :
  no_new_error w1 w2 -> no_new_error w2 w3 -> no_new_error w1 w3.
Proof. intros H1 H2 r H. by apply H1, H2. Qed.

Lemma no_new_error_update el f w :
  (forall e, "image-error" ∈ el_classList (f e) ->
             "image-error" ∈ el_classList e) ->
  no_new_error w (update_element el f w).
Proof.
  intros Hf r. simpl. destruct (decide (el = r)) as [->|Hne].
  - rewrite fn_lookup_insert. apply Hf.
  - by rewrite fn_lookup_insert_ne.
Qed.

Lemma cacheImage_dom io url src w : dom (snd (cacheImage io url src w)) = dom w.
Proof.
  unfold_M.
  destruct (hasCaches w); simpl; [|done].
  destruct (String.prefix "data:" src); simpl; [done|].
  destruct (w_open_fails io); simpl; [done|].
  destruct (w_fetch io) as [|[] body]; simpl; [done| |done].
  by destruct (w_put_fails io).
Qed.

Lemma cacheImage_begin_dom url src w :
  dom (snd (cacheImage_begin url src w)) = dom w.
Proof. rewrite cacheImage_begin_unfold. cbn [snd]. by destruct (_ && _). Qed.

Lemma no_new_error_mark_loaded el w : no_new_error w (mark_loaded el w).
Proof.
  apply no_new_error_update. intros e.
  rewrite !classList_remove_elem. by intros [_ ?].
Qed.

Lemma no_new_error_addImage imgElement priority_arg rnd now w :
  no_new_error w (addImage imgElement priority_arg rnd now w).
Proof.
  destruct imgElement as [el|]; [|by apply no_new_error_dom].
  rewrite addImage_unfold. destruct (negb _); [by apply no_new_error_dom|].
  cbv zeta.
  assert (Hn : no_new_error w (named el rnd w))
    by by apply no_new_error_update.
  destruct (list_find _ _) as [[i it]|]; [done|].
  eapply no_new_error_trans; [exact Hn|].
  apply no_new_error_dom.
  by rewrite (so_dom _ _ (processQueue_scheduler_only _)).
Qed.

Lemma no_new_error_try_cache ex io w :
  no_new_error w (snd (loadImage_try_cache ex io w)).
Proof.
  destruct (loadImage_try_cache_unfold ex io w) as (r & o & _ & ->).
  assert (Ho : no_new_error w (set_objectUrls o w))
    by by apply no_new_error_dom.
  destruct (truthy_opt r); simpl.
  - eapply no_new_error_trans; [|apply no_new_error_mark_loaded].
    eapply no_new_error_trans; [exact Ho|].
    by apply no_new_error_update.
  - unfold loadImageFromNetwork_begin.
    eapply no_new_error_trans; [|by apply no_new_error_dom].
    eapply no_new_error_trans; [exact Ho|].
    apply no_new_error_update. intros e.
    unfold classList_add. simpl. case_bool_decide; [done|].
    rewrite elem_of_app, list_elem_of_singleton. by intros [?|?].
Qed.

Lemma no_new_error_try_network ex out w :
  no_new_error w (snd (loadImage_try_network ex out w)).
Proof.
  rewrite loadImage_try_network_unfold.
  destruct out; simpl; try by apply no_new_error_dom.
  eapply no_new_error_trans; [|apply no_new_error_mark_loaded].
  eapply no_new_error_trans; [|apply no_new_error_dom, cacheImage_begin_dom].
  by apply no_new_error_update.
Qed.

Lemma no_new_error_resume i ex body w :
  (forall w, no_new_error w (snd (body w))) ->
  retries (ex_item ex) < maxRetries (snd (body w)) ->
  no_new_error w (snd (resume i ex body w)).
Proof.
  intros Hbody Hlt. rewrite resume_unfold. specialize (Hbody w).
  destruct (body w) as [[[|ph]|e] w1]; simpl in *.
  - eapply no_new_error_trans; [exact Hbody|]. apply no_new_error_dom.
    by rewrite (so_dom _ _ (processQueue_scheduler_only _)).
  - eapply no_new_error_trans; [exact Hbody|]. by apply no_new_error_dom.
  - eapply no_new_error_trans; [exact Hbody|]. apply no_new_error_dom.
    rewrite (so_dom _ _ (processQueue_scheduler_only _)).
    unfold catch_effect. apply Z.ltb_lt in Hlt. by rewrite Hlt.
Qed.

Lemma no_new_error_step ev w c w' :
  Inv w -> step ev w = Some (c, w') -> no_new_error w w'.
Proof.
  intros Hinv Hstep. pose proof (inv_config _ Hinv) as [Hmr _].
  pose proof (inv_retries_exec _ Hinv) as Hre. rewrite Forall_lookup in Hre.
  destruct (is_fill ev) eqn:Hfill.
  { destruct (fill_step ev w c w' Hfill Hstep) as [_ []].
    by apply no_new_error_dom. }
  destruct ev as [el p rnd now| |i io|i out|i rnd now| | |]; try done;
    simpl in Hstep.
  - simplify_eq. apply no_new_error_addImage.
  - simplify_eq. by apply no_new_error_dom.
  - destruct (executions w !! i) as [ex|] eqn:Hi; [|done].
    destruct (ex_phase ex); [|done]. simplify_eq.
    replace w' with (snd (resume i ex (loadImage_try_cache ex io) w))
      by (by rewrite Hstep).
    apply no_new_error_resume; [apply no_new_error_try_cache|].
    rewrite (sv_maxRetries _ _ (same_view_try_cache ex io w)), Hmr.
    rewrite (Hre i ex Hi). lia.
  - destruct (executions w !! i) as [ex|] eqn:Hi; [|done].
    destruct (ex_phase ex); [done|]. simplify_eq.
    replace w' with (snd (resume i ex (loadImage_try_network ex out) w))
      by (by rewrite Hstep).
    apply no_new_error_resume; [apply no_new_error_try_network|].
    rewrite (sv_maxRetries _ _ (same_view_try_network ex out w)), Hmr.
    rewrite (Hre i ex Hi). lia.
  - destruct (timers w !! i) as [t|]; [|done]. simplify_eq.
    eapply no_new_error_trans; [|apply no_new_error_addImage].
    by apply no_new_error_dom.
Qed.

(** No element is ever put in the [error] state: the branch that applies
    the placeholder (lines 125-130) is dead code. *)
Lemma error_state_unreachable maxConcurrent_arg d caches c w :
  reachable (new_ImageLoadQueue maxConcurrent_arg d caches c) w ->
  forall r, "image-error" ∈ el_classList (dom w r) ->
            "image-error" ∈ el_classList (d r).
Proof.
  intros Hreach. induction Hreach as [|w ev k w' Hreach IH Hstep]; [done|].
  intros r Hr. apply IH. eapply no_new_error_step; [|done..].
  eapply Inv_reachable; [apply Inv_new | done].
Qed.

(** C2 fails on the code.  After the third failed attempt (the second
    retry) the image is not in the [error] state: its [src] is not the
    placeholder and it does not carry [image-error]; a timer for a fourth
    attempt is armed instead; and when that fires, a fourth execution
    starts, again with [retries = 0]. *)
Theorem retries_never_exhausted :
  netlog <$> run_all always_failing imageLoadQueue
  = Some [ImgLoad "/proxy/image?url=a"; ImgLoad "/proxy/image?url=a";
          ImgLoad "/proxy/image?url=a"]
  /\ (fun w => dom w 0%nat) <$> run_all always_failing imageLoadQueue
     = Some (mkElement "cover-img-1" (Some "/proxy/image?url=a") ""
               ["cover-img"; "image-loading"])
  /\ timers <$> run_all always_failing imageLoadQueue
     = Some [mkTimer 0 (mkItem 0 (-2) 1 2010) 1000]
  /\ executions
       <$> run_all (always_failing ++ [TimerFired 0 "r4" 3010]) imageLoadQueue
     = Some [mkExec (mkItem 0 (-3) 0 3010) "/proxy/image?url=a" AwaitCache].
Proof. repeat split; by vm_compute. Qed.

(** C7 fails on the code.  The timer armed after the first failure waits
    1000 ms and lowers the priority from 0 to -1, as claimed; the timer
    armed after the second failure waits 1000 ms again, not 2000 ms. *)
Theorem backoff_does_not_grow :
  timers <$> run_all (take 3 always_failing) imageLoadQueue
  = Some [mkTimer 0 (mkItem 0 0 1 10) 1000]
  /\ executions <$> run_all (take 4 always_failing) imageLoadQueue
     = Some [mkExec (mkItem 0 (-1) 0 1010) "/proxy/image?url=a" AwaitCache]
  /\ timers <$> run_all (take 6 always_failing) imageLoadQueue
     = Some [mkTimer 0 (mkItem 0 (-1) 1 1010) 1000].
Proof. repeat split; by vm_compute. Qed.

(** In every world the loader reaches, every armed retry timer waits
    1000 ms, and every suspended execution has [retries = 0]. *)
Lemma retry_state_reachable maxConcurrent_arg d caches c w :
  reachable (new_ImageLoadQueue maxConcurrent_arg d caches c) w ->
  Forall (fun t => tm_delay t = 1000) (timers w)
  /\ Forall (fun ex => retries (ex_item ex) = 0) (executions w).
Proof.
  intros Hreach.
  pose proof (Inv_reachable _ _ (Inv_new _ _ _ _) Hreach) as Hinv.
  split; [|apply Hinv].
  eapply Forall_impl; [apply (inv_timers _ Hinv)|]. by intros t [_ ?].
Qed.

(** ** The theorems at work on the page *)

Lemma third_waits_reachable : reachable imageLoadQueue third_waits.
Proof. apply reachable_run, reachable_init. Qed.

Lemma one_entry_per_target_witness :
  NoDup (id_of third_waits <$> queue third_waits)
  /\ queue third_waits = [mkItem 2 0 0 12]
  /\ queue (addImage (Some 2%nat) (Some 5) "r4" 13 third_waits)
     ≡ₚ [mkItem 2 5 0 12]
  /\ (forall x,
        x ∈ queue (addImage (Some 2%nat) (Some 5) "r4" 13 third_waits) ->
        priority x = 5)
  /\ running (addImage (Some 2%nat) (Some 5) "r4" 13 third_waits)
     = running third_waits.
Proof.
  destruct (one_entry_per_target (Some 2) page true ∅ third_waits
              third_waits_reachable) as [H1 H2].
  split; [exact H1|]. split; [reflexivity|].
  destruct (H2 2%nat (Some 5) "r4" 13 0%nat (mkItem 2 0 0 12))
    as (H3 & _ & H4 & H5 & _ & _ & H6 & _); [by vm_compute..|].
  split; [exact H3|]. split; [|exact H6].
  intros x Hx.
  destruct (decide (id_of (addImage (Some 2%nat) (Some 5) "r4" 13 third_waits)
                      x = el_id (dom third_waits 2%nat))) as [Hid|Hid].
  - by destruct (H4 x Hx Hid).
  - specialize (H5 x Hx Hid). apply list_elem_of_singleton in H5.
    subst x. by destruct Hid.
Defined.

Lemma dispatch_order_witness :
  descending (queue third_waits)
  /\ queue (addImage (Some 3%nat) (Some 0) "r4" 13 third_waits)
     = [mkItem 2 0 0 12; mkItem 3 0 0 13].
Proof.
  destruct (dispatch_order (Some 2) page true ∅ third_waits
              third_waits_reachable) as (H1 & _ & _ & H2 & _).
  split; [exact H1|].
  rewrite (H2 3%nat (Some 0) "r4" 13); [by vm_compute| by vm_compute | |].
  - repeat constructor; by vm_compute.
  - by vm_compute.
Defined.


Lemma clear_isolation_witness :
  exists a b,
    run_all first_loads (clear third_waits) = Some b
    /\ run_all first_loads third_waits = Some a
    /\ outcome b = outcome a.
Proof.
  destruct (clear_isolation third_waits)
    as (_ & _ & _ & _ & _ & _ & _ & _ & _ & _ & H).
  destruct (H first_loads (run first_loads (clear third_waits)))
    as (a & Ha & Hout); [by vm_compute..|].
  exists a, (run first_loads (clear third_waits)).
  split; [by vm_compute|]. by split.
Defined.

(** * Further properties *)

(** ** How many executions a scheduler step starts *)

(** X1.  If every queued element has a source, a scheduler step starts
    exactly [min (queued, maxConcurrent - running)] executions (none if
    [running] is already at or above the limit): that many entries leave the
    head of the queue, in order, their executions are appended, [running]
    goes up by that number, and the sum of queued and running that
    [getQueueStatus] reports is the same before and after. *)
Theorem processQueue_count w :
  Forall (has_src w) (queue w) ->
  queue (processQueue w) = drop (startable w) (queue w)
  /\ executions (processQueue w)
     = executions w ++ (start w <$> take (startable w) (queue w))
  /\ running (processQueue w) = running w + Z.of_nat (startable w)
  /\ st_queued (getQueueStatus (processQueue w))
     + st_running (getQueueStatus (processQueue w))
     = st_queued (getQueueStatus w) + st_running (getQueueStatus w).
Proof.
  intros Hsrc.
  destruct (processQueue_startable w Hsrc) as (H1 & H2 & H3).
  repeat split; try done.
  simpl. rewrite H1, H3, length_drop. unfold startable. lia.
Qed.

Lemma processQueue_count_witness :
  queue (processQueue (finish 0 third_waits)) = []
  /\ running (processQueue (finish 0 third_waits)) = 2.
Proof.
  destruct (processQueue_count (finish 0 third_waits)) as (H1 & _ & H3 & _).
  - repeat constructor; by vm_compute.
  - split; [rewrite H1 | rewrite H3]; by vm_compute.
Defined.

(** X2.  A scheduler step right after a scheduler step does nothing. *)
Theorem processQueue_idempotent w :
  processQueue (processQueue w) = processQueue w.
Proof.
  apply processQueue_fuel_stable, processQueue_work_conserving.
Qed.

(** ** Submitting a page of covers *)

(** [addImage] for a target that is not queued: the entry is inserted
    behind the entries whose priority is not lower, then the scheduler
    runs. *)
Lemma addImage_new el priority_arg rnd now w :
  Inv w ->
  truthy_opt (el_dataset_src (dom w el)) = true ->
  Forall (fun x => id_of w x <> imageId_of el rnd w) (queue w) ->
  addImage (Some el) priority_arg rnd now w
  = processQueue
      (set_queue
         (filter (fun y => default 0 priority_arg <= priority y) (queue w)
          ++ mkItem el (default 0 priority_arg) 0 now
             :: filter (fun y => priority y < default 0 priority_arg) (queue w))
         (named el rnd w)).
Proof.
  intros Hinv Hsrc Hfresh. rewrite addImage_unfold, Hsrc.
  cbn [negb]. cbv zeta.
  pose proof (inv_named _ Hinv) as Hn.
  destruct (list_find _ _) as [[j y]|] eqn:Hfind.
  - apply list_find_Some in Hfind as (Hj & Hy & _).
    rewrite Forall_lookup in Hfresh, Hn. destruct (Hfresh j y Hj).
    rewrite <- Hy. unfold id_of. symmetry. apply named_keeps_id.
    by apply (Hn j).
  - by rewrite (sort_push (queue w)) by apply Hinv.
Qed.

Lemma elem_of_drop_l {A} (x : A) n (l : list A) : x ∈ drop n l -> x ∈ l.
Proof.
  intros [i Hi]%list_elem_of_lookup. rewrite lookup_drop in Hi.
  by eapply list_elem_of_lookup_2.
Qed.

Lemma start_ext w w' (l : list QueueItem) :
  (forall r, dom w r = dom w' r) -> start w <$> l = start w' <$> l.
Proof.
  intros H. induction l as [|x l IH]; [done|]. simpl. f_equal; [|done].
  unfold start. by rewrite H.
Qed.

Lemma Inv_addImage_each imgs w : Inv w -> Inv (addImage_each imgs w).
Proof.
  revert w. induction imgs as [|[[el rnd] now] imgs IH]; intros w Hinv; [done|].
  unfold addImage_each in *. cbn [fold_left]. apply IH. by apply Inv_addImage.
Qed.

Lemma addImage_each_order imgs w :
  Inv w -> queue w = [] ->
  Forall (fun img => truthy_opt (el_dataset_src (dom w img.1.1)) = true
                     /\ truthy (el_id (dom w img.1.1)) = true) imgs ->
  NoDup ((fun img => el_id (dom w img.1.1)) <$> imgs) ->
  let free := Z.to_nat (maxConcurrent w - running w) in
  let w' := addImage_each imgs w in
  queue w' = cover_item <$> drop free imgs
  /\ executions w'
     = executions w ++ ((fun img => start w (cover_item img)) <$> take free imgs)
  /\ running w' = running w + Z.of_nat (Nat.min (length imgs) free)
  /\ maxConcurrent w' = maxConcurrent w
  /\ forall r, dom w' r = dom w r.
Proof.
  intros Hinv Hq. cbv zeta.
  induction imgs as [|[[el rnd] now] l IH] using rev_ind; intros Hall Hnd.
  { simpl. rewrite Hq, drop_nil, take_nil, app_nil_r.
    repeat split; try done. lia. }
  apply Forall_app in Hall as [Hall Hx].
  apply Forall_singleton in Hx as [Hsrc Hid]. cbn [fst] in Hsrc, Hid.
  rewrite fmap_app in Hnd. apply NoDup_app in Hnd as (Hnd & Hfresh & _).
  destruct (IH Hall Hnd) as (IHq & IHe & IHr & IHm & IHd). clear IH.
  unfold addImage_each in *. rewrite fold_left_app. cbn [fold_left].
  set (wj := fold_left _ l w) in *.
  set (free := Z.to_nat (maxConcurrent w - running w)) in *.
  assert (Hinvj : Inv wj) by by apply Inv_addImage_each.
  assert (Hidj : imageId_of el rnd wj = el_id (dom w el)).
  { unfold imageId_of. by rewrite IHd, Hid. }
  assert (Hnamed : forall r, dom (named el rnd wj) r = dom w r).
  { intros r. rewrite named_is_same; [apply IHd|]. by rewrite IHd. }
  rewrite addImage_new; [|done|by rewrite IHd|].
  2:{ rewrite IHq. apply Forall_fmap, Forall_forall. intros img Himg. simpl.
      rewrite Hidj. unfold id_of. rewrite IHd. simpl. intros Heq.
      apply (Hfresh (el_id (dom w img.1.1))).
      - apply list_elem_of_fmap. exists img. split; [done|].
        by eapply elem_of_drop_l.
      - simpl. rewrite Heq. left. }
  cbn [default].
  rewrite (filter_all (fun y => 0 <= priority y)).
  2:{ rewrite IHq. apply Forall_fmap, Forall_forall. by intros. }
  rewrite (filter_none (fun y => priority y < 0)).
  2:{ rewrite IHq. apply Forall_fmap, Forall_forall. intros img _. simpl. lia. }
  set (W := set_queue _ _).
  destruct (processQueue_count W) as (H1 & H2 & H3 & _).
  { unfold W. simpl. apply Forall_app. split.
    - eapply Forall_impl; [apply (inv_src _ Hinvj)|]. intros it.
      unfold has_src. cbn [dom set_queue]. by rewrite Hnamed, IHd.
    - constructor; [|done]. unfold has_src. cbn [dom set_queue element].
      by rewrite Hnamed. }
  destruct (processQueue_scheduler_only W) as [Hm _ _ _ Hd _ _ _ _ _ _].
  assert (Hk : startable W
               = if decide (length l < free)%nat then 1%nat else 0%nat).
  { unfold startable, W. simpl. rewrite length_app, IHq, length_fmap,
      length_drop, IHm, IHr. simpl. case_decide; lia. }
  assert (HqW : queue W = (cover_item <$> drop free l) ++ [mkItem el 0 0 now]).
  { unfold W. cbn [queue set_queue]. by rewrite IHq. }
  assert (HeW : executions W = executions wj) by done.
  assert (HrW : running W = running wj) by done.
  assert (HmW : maxConcurrent W = maxConcurrent wj) by done.
  rewrite H1, H2, H3, Hm, Hk, HqW, HeW, HrW, HmW, IHe, IHr, IHm.
  rewrite (start_ext W w) by exact Hnamed.
  rewrite length_app. cbn [length].
  assert (Hdom : forall r, dom (processQueue W) r = dom w r).
  { intros r. rewrite Hd. apply Hnamed. }
  case_decide as Hlt.
  - rewrite (drop_ge l), (drop_ge (l ++ _)), (take_ge l), (take_ge (l ++ _))
      by (rewrite ?length_app; simpl; lia).
    simpl. rewrite fmap_app, <- app_assoc. simpl.
    repeat split; try done. lia.
  - rewrite (drop_app_le l), (take_app_le l) by lia.
    rewrite fmap_app, drop_0, app_nil_r. simpl.
    repeat split; try done. lia.
Qed.

(** X3.  [renderMonitors] on an idle or busy loader: after [clear()] and
    [addImage] for each cover in turn (covers with a source, non-empty and
    pairwise distinct ids), the first [maxConcurrent - running] covers are
    loading, started in page order behind the executions already in flight;
    the others wait in the queue in page order, all at priority 0; and no
    element has changed. *)
Theorem renderMonitors_queue_order maxConcurrent_arg d caches c imgs w :
  reachable (new_ImageLoadQueue maxConcurrent_arg d caches c) w ->
  Forall (fun img => truthy_opt (el_dataset_src (dom w img.1.1)) = true
                     /\ truthy (el_id (dom w img.1.1)) = true) imgs ->
  NoDup ((fun img => el_id (dom w img.1.1)) <$> imgs) ->
  let free := Z.to_nat (maxConcurrent w - running w) in
  let w' := renderMonitors_queue imgs w in
  queue w' = cover_item <$> drop free imgs
  /\ executions w'
     = executions w ++ ((fun img => start w (cover_item img)) <$> take free imgs)
  /\ running w' = running w + Z.of_nat (Nat.min (length imgs) free)
  /\ forall r, dom w' r = dom w r.
Proof.
  intros Hreach Hall Hnd. cbv zeta. unfold renderMonitors_queue.
  pose proof (Inv_reachable _ _ (Inv_new _ _ _ _) Hreach) as Hinv.
  destruct (addImage_each_order imgs (clear w)) as (H1 & H2 & H3 & _ & H5);
    try done.
  constructor; simpl; try apply Hinv; constructor.
Qed.

Lemma renderMonitors_queue_order_witness :
  queue (renderMonitors_queue [(0%nat, "r1", 10); (1%nat, "r2", 11);
                               (2%nat, "r3", 12); (3%nat, "r4", 13)]
           imageLoadQueue)
  = [mkItem 2 0 0 12; mkItem 3 0 0 13]
  /\ running (renderMonitors_queue [(0%nat, "r1", 10); (1%nat, "r2", 11);
                                    (2%nat, "r3", 12); (3%nat, "r4", 13)]
                imageLoadQueue)
     = 2.
Proof.
  destruct (renderMonitors_queue_order (Some 2) page true ∅
              [(0%nat, "r1", 10); (1%nat, "r2", 11);
               (2%nat, "r3", 12); (3%nat, "r4", 13)] imageLoadQueue)
    as (H1 & _ & H3 & _).
  - apply reachable_init.
  - repeat constructor.
  - apply (bool_decide_unpack _). by vm_compute.
  - split; [rewrite H1 | rewrite H3]; by vm_compute.
Defined.


(** ** What the loader leaves of an element *)

Lemma step_dom_processQueue w : dom (processQueue w) = dom w.
Proof. apply (so_dom _ _ (processQueue_scheduler_only w)). Qed.

Lemma addImage_src imgElement priority_arg rnd now w r :
  el_dataset_src (dom (addImage imgElement priority_arg rnd now w) r)
  = el_dataset_src (dom w r).
Proof.
  destruct imgElement as [el|]; [|done]. rewrite addImage_unfold.
  destruct (negb _); [done|]. cbv zeta.
  destruct (list_find _ _) as [[i it]|].
  - cbn [dom set_queue]. apply named_src.
  - rewrite step_dom_processQueue. cbn [dom set_queue]. apply named_src.
Qed.

Lemma catch_effect_src it w r :
  el_dataset_src (dom (catch_effect it w) r) = el_dataset_src (dom w r).
Proof.
  unfold catch_effect. destruct (_ <? _); [done|]. simpl.
  destruct (decide (element it = r)) as [->|Hne].
  - by rewrite fn_lookup_insert.
  - by rewrite fn_lookup_insert_ne.
Qed.

Lemma resume_src i ex body w r :
  (forall w, same_view w (snd (body w))) ->
  el_dataset_src (dom (snd (resume i ex body w)) r)
  = el_dataset_src (dom w r).
Proof.
  intros Hbody. rewrite resume_unfold. specialize (Hbody w).
  destruct (body w) as [[[|ph]|e] w1]; simpl in Hbody; cbn [snd].
  - rewrite step_dom_processQueue. apply (sv_src _ _ Hbody).
  - apply (sv_src _ _ Hbody).
  - rewrite step_dom_processQueue. cbn [dom finish set_running set_executions].
    rewrite catch_effect_src. apply (sv_src _ _ Hbody).
Qed.

Lemma fill_step_dom ev w :
  is_fill ev = true ->
  match step ev w with
  | Some (_, w') => dom w' = dom w
  | None => True
  end.
Proof.
  intros Hfill. destruct (step ev w) as [[c w']|] eqn:Hstep; [|done].
  by destruct (fill_step ev w c w' Hfill Hstep) as [_ []].
Qed.

(** X4.  No step of the loader, in any world, changes the [data-src] of any
    element: [completeImage], the one place that deletes it (line 218), is
    only reached from [loadImage] when there is nothing to delete. *)
Theorem data_src_never_changes ev w r :
  match step ev w with
  | Some (_, w') => el_dataset_src (dom w' r) = el_dataset_src (dom w r)
  | None => True
  end.
Proof.
  destruct (is_fill ev) eqn:Hfill.
  { pose proof (fill_step_dom ev w Hfill) as Hd.
    destruct (step ev w) as [[k w']|]; [|done]. by rewrite Hd. }
  destruct ev as [el p rnd now| |i io|i out|i rnd now| | |];
    [| | | | |done..]; simpl.
  - apply addImage_src.
  - done.
  - destruct (executions w !! i) as [ex|]; [|done].
    destruct (ex_phase ex); [|done].
    destruct (resume i ex _ w) as [c w'] eqn:Hres.
    replace w' with (snd (resume i ex (loadImage_try_cache ex io) w))
      by (by rewrite Hres).
    apply resume_src, same_view_try_cache.
  - destruct (executions w !! i) as [ex|]; [|done].
    destruct (ex_phase ex); [done|].
    destruct (resume i ex _ w) as [c w'] eqn:Hres.
    replace w' with (snd (resume i ex (loadImage_try_network ex out) w))
      by (by rewrite Hres).
    apply resume_src, same_view_try_network.
  - destruct (timers w !! i) as [t|]; [|done].
    unfold retry_callback. by rewrite addImage_src.
Qed.

Lemma update_element_id el f w r :
  (forall e, el_id (f e) = el_id e) ->
  el_id (dom (update_element el f w) r) = el_id (dom w r).
Proof.
  intros Hf. simpl. destruct (decide (el = r)) as [->|Hne].
  - by rewrite fn_lookup_insert.
  - by rewrite fn_lookup_insert_ne.
Qed.

Lemma try_cache_id ex io w r :
  el_id (dom (snd (loadImage_try_cache ex io w)) r) = el_id (dom w r).
Proof.
  destruct (loadImage_try_cache_unfold ex io w) as (x & o & _ & ->).
  destruct (truthy_opt x); cbn [snd].
  - unfold mark_loaded. by rewrite !update_element_id.
  - unfold loadImageFromNetwork_begin. cbn [dom log_request].
    by rewrite update_element_id.
Qed.

Lemma try_network_id ex out w r :
  el_id (dom (snd (loadImage_try_network ex out w)) r) = el_id (dom w r).
Proof.
  rewrite loadImage_try_network_unfold. destruct out; try done. cbn [snd].
  unfold mark_loaded. rewrite update_element_id by done.
  rewrite cacheImage_begin_dom. by rewrite update_element_id.
Qed.

Lemma catch_effect_id it w r :
  el_id (dom (catch_effect it w) r) = el_id (dom w r).
Proof.
  unfold catch_effect. destruct (_ <? _); [done|].
  by rewrite update_element_id.
Qed.

Lemma resume_id i ex body w r :
  (forall w r, el_id (dom (snd (body w)) r) = el_id (dom w r)) ->
  el_id (dom (snd (resume i ex body w)) r) = el_id (dom w r).
Proof.
  intros Hbody. rewrite resume_unfold. specialize (Hbody w).
  destruct (body w) as [[[|ph]|e] w1]; simpl in Hbody; cbn [snd].
  - rewrite step_dom_processQueue. apply Hbody.
  - apply Hbody.
  - rewrite step_dom_processQueue. cbn [dom finish set_running set_executions].
    rewrite catch_effect_id. apply Hbody.
Qed.

Lemma addImage_id imgElement priority_arg rnd now w r :
  el_id (dom (addImage imgElement priority_arg rnd now w) r) = el_id (dom w r)
  \/ (imgElement = Some r /\ el_id (dom w r) = ""
      /\ el_id (dom (addImage imgElement priority_arg rnd now w) r)
         = "img-" +:+ rnd).
Proof.
  destruct imgElement as [el|]; [|by left]. rewrite addImage_unfold.
  destruct (negb _); [by left|]. cbv zeta.
  assert (Hn : el_id (dom (named el rnd w) r) = el_id (dom w r)
               \/ (Some el = Some r /\ el_id (dom w r) = ""
                   /\ el_id (dom (named el rnd w) r) = "img-" +:+ rnd)).
  { destruct (decide (el = r)) as [->|Hne].
    - rewrite named_id. unfold imageId_of.
      destruct (truthy (el_id (dom w r))) eqn:Ht; [by left|]. right.
      split; [done|]. split; [|done].
      unfold truthy in Ht. apply negb_false_iff, String.eqb_eq in Ht. done.
    - left. by rewrite named_other. }
  destruct (list_find _ _) as [[i it]|]; [done|].
  by rewrite step_dom_processQueue.
Qed.

(** X5.  The only id the loader ever writes is that of an element without
    one: [addImage] names it ["img-"] followed by the random suffix (lines
    47-48).  An element that has an id keeps it through every step. *)
Theorem ids_are_kept ev w r :
  match step ev w with
  | Some (_, w') =>
      el_id (dom w' r) = el_id (dom w r)
      \/ (el_id (dom w r) = ""
          /\ exists rnd, el_id (dom w' r) = "img-" +:+ rnd)
  | None => True
  end.
Proof.
  destruct (is_fill ev) eqn:Hfill.
  { pose proof (fill_step_dom ev w Hfill) as Hd.
    destruct (step ev w) as [[k w']|]; [|done]. left. by rewrite Hd. }
  destruct ev as [el p rnd now| |i io|i out|i rnd now| | |];
    [| | | | |done..]; simpl.
  - destruct (addImage_id el p rnd now w r) as [?|(_ & ? & ?)]; eauto.
  - by left.
  - destruct (executions w !! i) as [ex|]; [|done].
    destruct (ex_phase ex); [|done].
    destruct (resume i ex _ w) as [c w'] eqn:Hres.
    replace w' with (snd (resume i ex (loadImage_try_cache ex io) w))
      by (by rewrite Hres).
    left. apply resume_id. intros. apply try_cache_id.
  - destruct (executions w !! i) as [ex|]; [|done].
    destruct (ex_phase ex); [done|].
    destruct (resume i ex _ w) as [c w'] eqn:Hres.
    replace w' with (snd (resume i ex (loadImage_try_network ex out) w))
      by (by rewrite Hres).
    left. apply resume_id. intros. apply try_network_id.
  - destruct (timers w !! i) as [t|]; [|done]. unfold retry_callback.
    destruct (addImage_id (Some (tm_element t)) (Some (js_minus (priority (tm_item t)) 1))
                rnd now (set_timers (delete i (timers w)) w) r)
      as [?|(_ & ? & ?)]; eauto.
Qed.

(** ** Classes *)

Lemma keeps_class_dom c w w' : dom w' = dom w -> keeps_class c w w'.
Proof. intros H r. by rewrite H. Qed.

Lemma keeps_class_trans c w1 w2 w3 :
  keeps_class c w1 w2 -> keeps_class c w2 w3 -> keeps_class c w1 w3.
Proof. intros H1 H2 r H. by apply H2, H1. Qed.

Lemma keeps_class_update c el f w :
  (forall e, c ∈ el_classList e -> c ∈ el_classList (f e)) ->
  keeps_class c w (update_element el f w).
Proof.
  intros Hf r. simpl. destruct (decide (el = r)) as [->|Hne].
  - rewrite fn_lookup_insert. apply Hf.
  - by rewrite fn_lookup_insert_ne.
Qed.

Lemma classList_add_keeps c c' e :
  c ∈ el_classList e -> c ∈ el_classList (classList_add c' e).
Proof.
  unfold classList_add. simpl. case_bool_decide; [done|].
  intros Hc. apply elem_of_app. by left.
Qed.

Lemma keeps_class_mark_loaded c el w :
  c <> "image-loading" -> c <> "image-error" ->
  keeps_class c w (mark_loaded el w).
Proof.
  intros H1 H2. apply keeps_class_update. intros e He.
  rewrite !classList_remove_elem. repeat split; try done.
  by apply classList_add_keeps.
Qed.

Lemma keeps_class_addImage c imgElement priority_arg rnd now w :
  keeps_class c w (addImage imgElement priority_arg rnd now w).
Proof.
  destruct imgElement as [el|]; [|by apply keeps_class_dom].
  rewrite addImage_unfold. destruct (negb _); [by apply keeps_class_dom|].
  cbv zeta.
  assert (Hn : keeps_class c w (named el rnd w))
    by by apply keeps_class_update.
  destruct (list_find _ _) as [[i it]|]; [done|].
  eapply keeps_class_trans; [exact Hn|].
  apply keeps_class_dom. by rewrite step_dom_processQueue.
Qed.

Lemma keeps_class_try_cache c ex io w :
  c <> "image-loading" -> c <> "image-error" ->
  keeps_class c w (snd (loadImage_try_cache ex io w)).
Proof.
  intros H1 H2.
  destruct (loadImage_try_cache_unfold ex io w) as (x & o & _ & ->).
  assert (Ho : keeps_class c w (set_objectUrls o w))
    by by apply keeps_class_dom.
  destruct (truthy_opt x); cbn [snd].
  - eapply keeps_class_trans; [|by apply keeps_class_mark_loaded].
    eapply keeps_class_trans; [exact Ho|].
    by apply keeps_class_update.
  - unfold loadImageFromNetwork_begin.
    eapply keeps_class_trans; [|by apply keeps_class_dom].
    eapply keeps_class_trans; [exact Ho|].
    apply keeps_class_update. intros e. apply classList_add_keeps.
Qed.

Lemma keeps_class_try_network c ex out w :
  c <> "image-loading" -> c <> "image-error" ->
  keeps_class c w (snd (loadImage_try_network ex out w)).
Proof.
  intros H1 H2. rewrite loadImage_try_network_unfold.
  destruct out; cbn [snd]; try by apply keeps_class_dom.
  eapply keeps_class_trans; [|by apply keeps_class_mark_loaded].
  eapply keeps_class_trans; [|apply keeps_class_dom, cacheImage_begin_dom].
  by apply keeps_class_update.
Qed.

Lemma keeps_class_catch_effect c it w :
  c <> "image-loading" -> keeps_class c w (catch_effect it w).
Proof.
  intros H1. unfold catch_effect. destruct (_ <? _).
  - by apply keeps_class_dom.
  - apply keeps_class_update. intros e He.
    rewrite classList_remove_elem. split; [|done].
    by apply classList_add_keeps.
Qed.

Lemma keeps_class_resume c i ex body w :
  c <> "image-loading" ->
  (forall w, keeps_class c w (snd (body w))) ->
  keeps_class c w (snd (resume i ex body w)).
Proof.
  intros H1 Hbody. rewrite resume_unfold. specialize (Hbody w).
  destruct (body w) as [[[|ph]|e] w1]; simpl in Hbody; cbn [snd].
  - eapply keeps_class_trans; [exact Hbody|]. apply keeps_class_dom.
    by rewrite step_dom_processQueue.
  - eapply keeps_class_trans; [exact Hbody|]. by apply keeps_class_dom.
  - eapply keeps_class_trans; [exact Hbody|].
    eapply keeps_class_trans; [by apply (keeps_class_catch_effect c (ex_item ex))|].
    apply keeps_class_dom. by rewrite step_dom_processQueue.
Qed.

(** X6.  The loader removes no class from any element but [image-loading]
    and [image-error]: every other class an element has before a step it
    has after it.  So a cover keeps its [cover-img], and an image marked
    [image-loaded] stays marked, also while it is loaded again. *)
Theorem other_classes_stay c ev w r :
  c <> "image-loading" -> c <> "image-error" ->
  match step ev w with
  | Some (_, w') => c ∈ el_classList (dom w r) -> c ∈ el_classList (dom w' r)
  | None => True
  end.
Proof.
  intros H1 H2.
  destruct (is_fill ev) eqn:Hfill.
  { pose proof (fill_step_dom ev w Hfill) as Hd.
    destruct (step ev w) as [[k w']|]; [|done]. by rewrite Hd. }
  destruct ev as [el p rnd now| |i io|i out|i rnd now| | |];
    [| | | | |done..]; simpl.
  - apply keeps_class_addImage.
  - done.
  - destruct (executions w !! i) as [ex|]; [|done].
    destruct (ex_phase ex); [|done].
    destruct (resume i ex _ w) as [k w'] eqn:Hres.
    replace w' with (snd (resume i ex (loadImage_try_cache ex io) w))
      by (by rewrite Hres).
    apply keeps_class_resume; [done|]. intros. by apply keeps_class_try_cache.
  - destruct (executions w !! i) as [ex|]; [|done].
    destruct (ex_phase ex); [done|].
    destruct (resume i ex _ w) as [k w'] eqn:Hres.
    replace w' with (snd (resume i ex (loadImage_try_network ex out) w))
      by (by rewrite Hres).
    apply keeps_class_resume; [done|]. intros. by apply keeps_class_try_network.
  - destruct (timers w !! i) as [t|]; [|done]. unfold retry_callback.
    apply (keeps_class_addImage c _ _ _ _ (set_timers (delete i (timers w)) w)).
Qed.

Lemma other_classes_stay_witness :
  match step (CacheSettled 0 cache_ok) third_waits with
  | Some (_, w') =>
      "cover-img" ∈ el_classList (dom third_waits 0%nat) ->
      "cover-img" ∈ el_classList (dom w' 0%nat)
  | None => True
  end.
Proof. apply (other_classes_stay "cover-img"); by vm_compute. Defined.

(** ** The cache lookup misses or fails *)

Lemma getCachedImage_miss w io url :
  ~ (exists bytes, cache_hit w io url bytes) ->
  getCachedImage io url w = (Normal None, w).
Proof.
  intros Hno. unfold_M.
  destruct (hasCaches w) eqn:Hc; simpl; [|done].
  destruct (r_open_fails io) eqn:Ho; simpl; [done|].
  destruct (r_match_fails io) eqn:Hm; simpl; [done|].
  destruct (cacheStore w !! url) as [bytes|] eqn:Hs; simpl; [|done].
  destruct (r_blob_fails io) eqn:Hb; simpl; [done|].
  destruct Hno. exists bytes. by repeat split.
Qed.

(** X7.  Whenever the cache lookup of a suspended execution is not a hit
    (no Cache API, [caches.open], [cache.match] or [response.blob] fails,
    or nothing is stored under the URL), the loader falls through to the
    network: exactly one image load is requested, for the element's
    [data-src]; the element gets [image-loading] and is otherwise as
    before; the execution stays in its place, now waiting for the network;
    queue, counter, cache and object URLs are untouched. *)
Theorem cache_miss_goes_to_network w i ex io :
  executions w !! i = Some ex ->
  ex_phase ex = AwaitCache ->
  ~ (exists bytes, cache_hit w io (ex_url ex) bytes) ->
  exists w',
    step (CacheSettled i io) w = Some (Normal tt, w')
    /\ netlog w'
       = netlog w
         ++ [ImgLoad (to_string (el_dataset_src (dom w (element (ex_item ex)))))]
    /\ executions w'
       = <[i := mkExec (ex_item ex) (ex_url ex) AwaitNetwork]> (executions w)
    /\ queue w' = queue w
    /\ running w' = running w
    /\ running_trace w' = running_trace w
    /\ timers w' = timers w
    /\ cacheStore w' = cacheStore w
    /\ objectUrls w' = objectUrls w
    /\ dom w' (element (ex_item ex))
       = classList_add "image-loading" (dom w (element (ex_item ex)))
    /\ forall r, r <> element (ex_item ex) -> dom w' r = dom w r.
Proof.
  intros Hi Hph Hmiss. simpl. rewrite Hi, Hph, resume_unfold.
  unfold loadImage_try_cache, bind at 1.
  rewrite (getCachedImage_miss _ _ _ Hmiss).
  change (truthy_opt None) with false. cbn iota.
  unfold bind, modify, ret. cbn iota beta.
  eexists. split; [reflexivity|]. simpl.
  rewrite fn_lookup_insert. repeat split; try done.
  intros r Hr. by rewrite fn_lookup_insert_ne.
Qed.

Lemma cache_miss_goes_to_network_witness :
  exists w',
    step (CacheSettled 0 cache_ok) third_waits = Some (Normal tt, w')
    /\ netlog w' = netlog third_waits ++ [ImgLoad cover_a].
Proof.
  destruct (cache_miss_goes_to_network third_waits 0
              (mkExec (mkItem 0 0 0 10) cover_a AwaitCache) cache_ok)
    as (w' & H1 & H2 & _).
  - by vm_compute.
  - reflexivity.
  - intros (bytes & _ & Hs & _). by vm_compute in Hs.
  - exists w'. split; [exact H1|]. rewrite H2. by vm_compute.
Defined.

(** ** A load succeeds *)

(** X8.  When the network load of a suspended execution succeeds, the
    element's [src] becomes the loaded image's, the element is marked
    [image-loaded] and neither [image-loading] nor [image-error], and the
    execution is over.  In that step nothing is fetched and nothing is
    written to the cache: [cacheImage] has only been called, and is
    suspended at [caches.open] (if the Cache API is present and [src] is
    not a [data:] URL; otherwise it has returned).  So the executions that
    the [finally] block starts in the same step begin their lookups on the
    cache as it was. *)
Theorem network_success w i ex img_src :
  executions w !! i = Some ex ->
  ex_phase ex = AwaitNetwork ->
  exists w',
    step (NetworkSettled i (Loaded img_src)) w = Some (Normal tt, w')
    /\ (let e := dom w' (element (ex_item ex)) in
        el_src e = img_src
        /\ "image-loaded" ∈ el_classList e
        /\ ("image-loading" ∉ el_classList e)
        /\ ("image-error" ∉ el_classList e))
    /\ (exists new,
          executions w' = delete i (executions w) ++ new
          /\ Forall (fun ex' => ex_phase ex' = AwaitCache) new)
    /\ timers w' = timers w
    /\ netlog w' = netlog w
    /\ cacheStore w' = cacheStore w
    /\ fills w'
       = fills w
         ++ (if hasCaches w && negb (String.prefix "data:" img_src)
             then [mkFill (ex_url ex) img_src AwaitOpen] else []).
Proof.
  intros Hi Hph. simpl. rewrite Hi, Hph, resume_unfold.
  rewrite loadImage_try_network_unfold. cbv zeta.
  set (el := element (ex_item ex)).
  set (w1 := update_element el (set_el_src img_src) w).
  assert (Hsrc1 : el_src (dom w1 el) = img_src).
  { unfold w1. simpl. by rewrite fn_lookup_insert. }
  rewrite Hsrc1, cacheImage_begin_unfold. cbn [snd].
  change (hasCaches w1) with (hasCaches w).
  set (w2 := if hasCaches w && negb (String.prefix "data:" img_src)
             then _ else _).
  assert (Hd2 : dom w2 = dom w1) by (unfold w2; by destruct (_ && _)).
  assert (Ht2 : timers w2 = timers w) by (unfold w2; by destruct (_ && _)).
  assert (Hn2 : netlog w2 = netlog w) by (unfold w2; by destruct (_ && _)).
  assert (Hs2 : cacheStore w2 = cacheStore w)
    by (unfold w2; by destruct (_ && _)).
  assert (He2 : executions w2 = executions w)
    by (unfold w2; by destruct (_ && _)).
  assert (Hf2 : fills w2
                = fills w
                  ++ (if hasCaches w && negb (String.prefix "data:" img_src)
                      then [mkFill (ex_url ex) img_src AwaitOpen] else [])).
  { unfold w2. destruct (_ && _); [done|]. by rewrite app_nil_r. }
  set (w3 := mark_loaded el w2).
  eexists. split; [reflexivity|].
  destruct (processQueue_scheduler_only (finish i w3))
    as [_ _ _ _ Hd Ht _ Hs _ Hn Hf].
  destruct (processQueue_executions (finish i w3)) as (new & He & Hnew).
  destruct (mark_loaded_element el w2) as (Hsrc & H1 & H2 & H3).
  cbv zeta in *. fold w3 in Hsrc, H1, H2, H3.
  change (dom (finish i w3)) with (dom w3) in Hd.
  rewrite Hd, Ht, Hs, Hn, Hf. split; [|split; [|split; [|split; [|split]]]].
  - rewrite Hsrc, Hd2, Hsrc1. by repeat split.
  - exists new. split; [|done]. rewrite He.
    change (executions (finish i w3)) with (delete i (executions w2)).
    by rewrite He2.
  - exact Ht2.
  - exact Hn2.
  - exact Hs2.
  - exact Hf2.
Qed.

Lemma network_success_witness :
  exists w',
    step (NetworkSettled 0 (Loaded cover_a_loaded))
      (run [CacheSettled 0 cache_ok] third_waits) = Some (Normal tt, w')
    /\ el_src (dom w' 0%nat) = cover_a_loaded
    /\ cacheStore w' = ∅
    /\ fills w' = [mkFill cover_a cover_a_loaded AwaitOpen].
Proof.
  destruct (network_success (run [CacheSettled 0 cache_ok] third_waits) 0
              (mkExec (mkItem 0 0 0 10) cover_a AwaitNetwork)
              cover_a_loaded)
    as (w' & H1 & (H2 & _) & _ & _ & _ & H3 & H4).
  - by vm_compute.
  - reflexivity.
  - exists w'. split; [exact H1|]. split; [exact H2|].
    split; [rewrite H3 | rewrite H4]; by vm_compute.
Defined.

(** Two covers of the same address on a loader with one slot: the second
    starts when the first has loaded, and its lookup settles before the
    cache is filled, so the address is loaded from the network twice; if
    the three settlements of [cacheImage] come first, the lookup is a hit
    and the address is loaded once. *)
Example same_cover_loaded_twice :
  let w0 :=
    run [AddImage (Some 4%nat) None "r1" 10;
         AddImage (Some 5%nat) None "r2" 11;
         CacheSettled 0 cache_ok;
         NetworkSettled 0 (Loaded "https://host/proxy/image?url=e")]
      (new_ImageLoadQueue (Some 1) page true ∅) in
  netlog (run [CacheSettled 0 cache_ok] w0)
  = [ImgLoad "/proxy/image?url=e"; ImgLoad "/proxy/image?url=e"]
  /\ netlog (run [FillOpened 0 false;
                  FillFetched 0 (FetchResponse true "PNG");
                  FillStored 0 false;
                  CacheSettled 0 cache_ok] w0)
     = [ImgLoad "/proxy/image?url=e";
        Fetch "https://host/proxy/image?url=e"].
Proof. by vm_compute. Qed.

Lemma delete_insert_same {A} (l : list A) j x :
  delete j (<[j := x]> l) = delete j l.
Proof.
  revert j. induction l as [|y l IH]; intros [|j]; simpl; try done.
  by rewrite IH.
Qed.

(** X22.  A call of [cacheImage] that is suspended at [caches.open] and
    whose three settlements go through ([caches.open] resolves, [fetch]
    answers [ok], [cache.put] resolves) issues one [fetch], of its [src],
    when the cache has opened, and writes the body under its [url] only
    with the last of them: until then the cache is as it was; after it, a
    lookup of that [url] is a hit.  Nothing else changes.  If
    [caches.open] rejects, [fetch] rejects or answers not [ok], or
    [cache.put] rejects, the call ends there and the cache stays as it
    was. *)
Theorem cache_fill_in_steps w j url src body :
  fills w !! j = Some (mkFill url src AwaitOpen) ->
  let w1 := log_request (Fetch src)
              (set_fills (<[j := mkFill url src AwaitFetch]> (fills w)) w) in
  let w2 := set_fills (<[j := mkFill url src (AwaitPut body)]> (fills w)) w1 in
  let w3 := set_fills (delete j (fills w))
              (set_cacheStore (<[url := body]> (cacheStore w)) w1) in
  let ended w := set_fills (delete j (fills w)) w in
  step (FillOpened j false) w = Some (Normal tt, w1)
  /\ step (FillFetched j (FetchResponse true body)) w1 = Some (Normal tt, w2)
  /\ step (FillStored j false) w2 = Some (Normal tt, w3)
  /\ cacheStore w1 = cacheStore w
  /\ cacheStore w2 = cacheStore w
  /\ netlog w3 = netlog w ++ [Fetch src]
  /\ (forall io,
        hasCaches w = true -> r_open_fails io = false ->
        r_match_fails io = false -> r_blob_fails io = false ->
        cache_hit w3 io url body)
  /\ step (FillOpened j true) w = Some (Normal tt, ended w)
  /\ step (FillFetched j FetchRejected) w1 = Some (Normal tt, ended w1)
  /\ (forall body', step (FillFetched j (FetchResponse false body')) w1
                    = Some (Normal tt, ended w1))
  /\ step (FillStored j true) w2 = Some (Normal tt, ended w2).
Proof.
  intros Hj. cbv zeta.
  assert (Hlt : (j < length (fills w))%nat) by by eapply lookup_lt_Some.
  assert (Hlook : forall f, <[j := f]> (fills w) !! j = Some f)
    by (intros f; by apply list_lookup_insert_eq).
  split; [|split; [|split; [|split; [|split; [|split; [|split;
    [|split; [|split; [|split]]]]]]]]].
  - simpl. rewrite Hj. cbn [fl_phase]. by unfold_M.
  - simpl. rewrite Hlook. cbn [fl_phase].
    unfold_M. simpl. by rewrite list_insert_insert_eq.
  - simpl. rewrite Hlook. cbn [fl_phase].
    unfold_M. simpl. by rewrite delete_insert_same.
  - done.
  - done.
  - done.
  - intros io Hc Ho Hm Hb. unfold cache_hit. simpl.
    by rewrite lookup_insert_eq.
  - simpl. by rewrite Hj.
  - simpl. rewrite Hlook. cbn [fl_phase]. unfold_M. simpl.
    by rewrite delete_insert_same.
  - intros body'. simpl. rewrite Hlook. cbn [fl_phase]. unfold_M. simpl.
    by rewrite delete_insert_same.
  - simpl. rewrite Hlook. cbn [fl_phase]. unfold_M. simpl.
    by rewrite delete_insert_same.
Qed.

Lemma cache_fill_in_steps_witness :
  cacheStore
    (run [FillOpened 0 false; FillFetched 0 (FetchResponse true "PNG");
          FillStored 0 false]
       (run first_loads third_waits))
  = {[cover_a := "PNG"]}.
Proof.
  destruct (cache_fill_in_steps (run first_loads third_waits) 0 cover_a
              cover_a_loaded "PNG") as (H1 & H2 & H3 & _);
    [by vm_compute|].
  cbn [run]. rewrite H1, H2, H3. by vm_compute.
Defined.

(** ** A load fails *)

(** X9.  When the network load of a suspended execution fails ([onerror])
    or times out, in any world the loader reaches: no element changes (the
    image keeps its old [src] and its [image-loading] mark while it waits
    for the retry), no request is issued, the cache is untouched; exactly
    one timer is armed, for 1000 ms, which will call [addImage] for the same
    element with the priority lowered by one (for a priority in the range
    where a JavaScript number subtracts exactly, above [-2 ^ 53] and up to
    [2 ^ 53]); and the execution is over. *)
Theorem network_failure maxConcurrent_arg d caches c w i ex out :
  reachable (new_ImageLoadQueue maxConcurrent_arg d caches c) w ->
  executions w !! i = Some ex ->
  ex_phase ex = AwaitNetwork ->
  out = Errored \/ out = TimedOut ->
  - 2 ^ 53 < priority (ex_item ex) <= 2 ^ 53 ->
  exists w' t,
    step (NetworkSettled i out) w = Some (Normal tt, w')
    /\ dom w' = dom w
    /\ netlog w' = netlog w
    /\ cacheStore w' = cacheStore w
    /\ timers w' = timers w ++ [t]
    /\ tm_element t = element (ex_item ex)
    /\ tm_delay t = 1000
    /\ (forall rnd now w0,
          retry_callback t rnd now w0
          = addImage (Some (element (ex_item ex)))
              (Some (priority (ex_item ex) - 1)) rnd now w0)
    /\ exists new,
         executions w' = delete i (executions w) ++ new
         /\ Forall (fun ex' => ex_phase ex' = AwaitCache) new.
Proof.
  intros Hreach Hi Hph Hout Hsafe.
  pose proof (Inv_reachable _ _ (Inv_new _ _ _ _) Hreach) as Hinv.
  pose proof (inv_config _ Hinv) as [Hmr Hrd].
  assert (Hr : retries (ex_item ex) = 0).
  { pose proof (inv_retries_exec _ Hinv) as H.
    rewrite Forall_lookup in H. by apply (H i ex). }
  assert (Hp : js_minus (priority (ex_item ex)) 1 = priority (ex_item ex) - 1)
    by (apply js_minus_safe; lia).
  simpl. rewrite Hi, Hph, resume_unfold.
  set (t := mkTimer (element (ex_item ex)) (set_retries 1 (ex_item ex)) 1000).
  assert (Hcatch : catch_effect (ex_item ex) w = set_timers (timers w ++ [t]) w).
  { unfold catch_effect. by rewrite Hr, Hmr, Hrd. }
  assert (Hb : exists e, loadImage_try_network ex out w = (Throw e, w)).
  { rewrite loadImage_try_network_unfold. destruct Hout as [-> | ->]; eauto. }
  destruct Hb as [e Hb]. rewrite Hb, Hcatch.
  set (w1 := finish i (set_timers (timers w ++ [t]) w)).
  destruct (processQueue_scheduler_only w1) as [_ _ _ _ Hd Ht _ Hs _ Hn _].
  destruct (processQueue_executions w1) as (new & He & Hnew).
  exists (processQueue w1), t. rewrite Hd, Ht, Hs, Hn, He.
  repeat split; try done.
  - intros rnd now w0. unfold retry_callback, t. cbn [tm_element tm_item].
    change (priority (set_retries 1 (ex_item ex)))
      with (priority (ex_item ex)).
    by rewrite Hp.
  - by exists new.
Qed.

Lemma network_failure_witness :
  exists w',
    step (NetworkSettled 0 TimedOut)
      (run [CacheSettled 0 cache_ok] third_waits) = Some (Normal tt, w')
    /\ dom w' = dom (run [CacheSettled 0 cache_ok] third_waits)
    /\ length (timers w') = 1%nat.
Proof.
  destruct (network_failure (Some 2) page true ∅
              (run [CacheSettled 0 cache_ok] third_waits) 0
              (mkExec (mkItem 0 0 0 10) cover_a AwaitNetwork) TimedOut)
    as (w' & t & H1 & H2 & _ & _ & H3 & _).
  - apply reachable_run, third_waits_reachable.
  - by vm_compute.
  - reflexivity.
  - by right.
  - cbn [priority ex_item]. lia.
  - exists w'. split; [exact H1|]. split; [exact H2|].
    rewrite H3. by vm_compute.
Defined.

(** ** Adding a queued image again *)

(** X10.  [addImage] for an image that is queued, with the priority it
    already has, changes nothing: the queue is the same list, nothing
    starts, no element changes.  Submitting a queued image twice is
    harmless. *)
Theorem addImage_again_same_priority
    maxConcurrent_arg d caches c w el priority_arg rnd now i it :
  reachable (new_ImageLoadQueue maxConcurrent_arg d caches c) w ->
  queue w !! i = Some it ->
  id_of w it = el_id (dom w el) ->
  truthy_opt (el_dataset_src (dom w el)) = true ->
  default 0 priority_arg = priority it ->
  let w' := addImage (Some el) priority_arg rnd now w in
  queue w' = queue w
  /\ running w' = running w
  /\ executions w' = executions w
  /\ netlog w' = netlog w
  /\ timers w' = timers w
  /\ forall r, dom w' r = dom w r.
Proof.
  intros Hreach Hi Hid Hsrc Hp w'.
  pose proof (Inv_reachable _ _ (Inv_new _ _ _ _) Hreach) as Hinv.
  destruct (addImage_pending el priority_arg rnd now w i it Hinv Hi Hid Hsrc)
    as (Hq & Hr & He & _ & Hl & Ht & Hd).
  fold w' in Hq, Hr, He, Hl, Ht, Hd. repeat split; try done.
  rewrite Hq, Hp.
  replace (set_priority (priority it) it) with it by by destruct it.
  rewrite list_insert_id by done.
  apply sort_descending_id, Hinv.
Qed.

Lemma addImage_again_same_priority_witness :
  queue (addImage (Some 2%nat) None "r4" 13 third_waits) = queue third_waits
  /\ running (addImage (Some 2%nat) None "r4" 13 third_waits)
     = running third_waits.
Proof.
  destruct (addImage_again_same_priority (Some 2) page true ∅ third_waits
              2%nat None "r4" 13 0%nat (mkItem 2 0 0 12))
    as (H1 & H2 & _); [apply third_waits_reachable|by vm_compute..|].
  split; [exact H1 | exact H2].
Defined.

(** X11.  [addImage] for a queued image with a priority strictly above that
    of every other queued entry moves it to the head of the queue: it is
    the next to be started. *)
Theorem addImage_again_to_head
    maxConcurrent_arg d caches c w el priority_arg rnd now i it :
  reachable (new_ImageLoadQueue maxConcurrent_arg d caches c) w ->
  queue w !! i = Some it ->
  id_of w it = el_id (dom w el) ->
  truthy_opt (el_dataset_src (dom w el)) = true ->
  (forall j y, j <> i -> queue w !! j = Some y ->
               priority y < default 0 priority_arg) ->
  head (queue (addImage (Some el) priority_arg rnd now w))
  = Some (set_priority (default 0 priority_arg) it).
Proof.
  intros Hreach Hi Hid Hsrc Hmax.
  pose proof (Inv_reachable _ _ (Inv_new _ _ _ _) Hreach) as Hinv.
  destruct (addImage_pending el priority_arg rnd now w i it Hinv Hi Hid Hsrc)
    as (Hq & _).
  cbv zeta in Hq. rewrite Hq.
  set (p := default 0 priority_arg) in *.
  set (q' := <[i := set_priority p it]> (queue w)).
  assert (Hin : set_priority p it ∈ sort byPriority q').
  { rewrite sort_perm. unfold q'. eapply list_elem_of_lookup_2.
    apply list_lookup_insert_eq. by eapply lookup_lt_Some. }
  assert (Hothers : forall y, y ∈ sort byPriority q' ->
                              y = set_priority p it \/ priority y < p).
  { intros y Hy. rewrite sort_perm in Hy. unfold q' in Hy.
    apply list_elem_of_lookup in Hy as [j Hj].
    destruct (decide (j = i)) as [->|Hne].
    - rewrite list_lookup_insert_eq in Hj by by eapply lookup_lt_Some.
      left. by simplify_eq.
    - rewrite list_lookup_insert_ne in Hj by done. right. by eapply Hmax. }
  pose proof (sort_descending q') as Hd.
  destruct (sort byPriority q') as [|h tl]; [by apply elem_of_nil in Hin|].
  simpl. f_equal.
  destruct (Hothers h) as [->|Hlt]; [left|done|].
  apply elem_of_cons in Hin as [Heq|Hin]; [done|].
  inversion Hd as [|? ? _ Hall]; subst. rewrite Forall_forall in Hall.
  specialize (Hall _ Hin). unfold precedes in Hall. simpl in Hall. lia.
Qed.

Lemma addImage_again_to_head_witness :
  head (queue (addImage (Some 3%nat) (Some 7) "r6" 15
                 (run reprioritised imageLoadQueue)))
  = Some (mkItem 3 7 0 13).
Proof.
  apply (addImage_again_to_head (Some 2) page true ∅
           (run reprioritised imageLoadQueue) 3%nat (Some 7) "r6" 15 0%nat
           (mkItem 3 5 0 13)).
  - apply reachable_run, reachable_init.
  - by vm_compute.
  - by vm_compute.
  - by vm_compute.
  - intros [|[|j]] y Hne Hy; [done| |by vm_compute in Hy].
    vm_compute in Hy. simplify_eq. simpl. lia.
Defined.

(** ** After [clear()] *)

Lemma settlement_on_empty_queue ev w c w' :
  is_settlement ev = true -> queue w = [] ->
  step ev w = Some (c, w') ->
  queue w' = [] /\ (length (executions w') <= length (executions w))%nat.
Proof.
  intros Hev Hq Hstep.
  assert (Hres : forall i ex body,
    (forall w, same_view w (snd (body w))) ->
    is_Some (executions w !! i) ->
    queue (snd (resume i ex body w)) = []
    /\ (length (executions (snd (resume i ex body w)))
        <= length (executions w))%nat).
  { intros i ex body Hbody Hi. rewrite resume_unfold. specialize (Hbody w).
    destruct (body w) as [[[|ph]|e] w1]; simpl in Hbody; cbn [snd].
    - rewrite processQueue_empty
        by (cbn [queue finish set_running set_executions];
            by rewrite (sv_queue _ _ Hbody)).
      cbn [queue executions finish set_running set_executions].
      rewrite (sv_queue _ _ Hbody), (sv_executions _ _ Hbody).
      split; [done|]. rewrite length_delete by done. lia.
    - cbn [queue executions suspend set_executions].
      rewrite (sv_queue _ _ Hbody), (sv_executions _ _ Hbody), length_insert.
      done.
    - assert (Hqc : queue (catch_effect (ex_item ex) w1) = []).
      { unfold catch_effect. destruct (_ <? _); simpl;
          by rewrite (sv_queue _ _ Hbody). }
      rewrite processQueue_empty by done.
      cbn [queue executions finish set_running set_executions].
      rewrite Hqc, catch_effect_executions, (sv_executions _ _ Hbody).
      split; [done|]. rewrite length_delete by done. lia. }
  destruct (is_fill ev) eqn:Hfill.
  { destruct (fill_step ev w c w' Hfill Hstep) as [_ [Hfq _ _ _ _ _ _ Hfe]].
    split; [congruence|]. by rewrite Hfe. }
  destruct ev as [| |i io|i out| | | |]; try done; simpl in Hstep.
  - destruct (executions w !! i) as [ex|] eqn:Hi; [|done].
    destruct (ex_phase ex); [|done]. simplify_eq.
    replace w' with (snd (resume i ex (loadImage_try_cache ex io) w))
      by (by rewrite Hstep).
    apply Hres; [apply same_view_try_cache | by rewrite Hi].
  - destruct (executions w !! i) as [ex|] eqn:Hi; [|done].
    destruct (ex_phase ex); [done|]. simplify_eq.
    replace w' with (snd (resume i ex (loadImage_try_network ex out) w))
      by (by rewrite Hstep).
    apply Hres; [apply same_view_try_network | by rewrite Hi].
Qed.

(** X12.  After [clear()], as long as only requests in flight settle (no
    new [addImage], no retry timer fires), nothing new starts: the queue
    stays empty and the number of executions never grows.  The entries
    [clear()] dropped are never loaded. *)
Theorem cleared_entries_never_start evs w b :
  forallb is_settlement evs = true ->
  run_all evs (clear w) = Some b ->
  queue b = []
  /\ (length (executions b) <= length (executions w))%nat.
Proof.
  change (executions w) with (executions (clear w)).
  assert (Hq : queue (clear w) = []) by done.
  revert Hq. generalize (clear w). clear w.
  induction evs as [|ev evs IH]; intros w Hq Hevs Hrun; simpl in *.
  { by simplify_eq. }
  apply andb_true_iff in Hevs as [Hev Hevs].
  destruct (step ev w) as [[c w1]|] eqn:Hstep; [|done].
  destruct (settlement_on_empty_queue ev w c w1 Hev Hq Hstep) as [Hq1 Hle].
  destruct (IH w1 Hq1 Hevs Hrun) as [Hqb Hlb]. split; [done|lia].
Qed.

Lemma cleared_entries_never_start_witness :
  queue (run first_loads (clear third_waits)) = []
  /\ (length (executions (run first_loads (clear third_waits)))
      <= length (executions third_waits))%nat.
Proof.
  apply (cleared_entries_never_start first_loads third_waits); by vm_compute.
Defined.

(** ** The page and the API *)

Lemma only_auth_msg_refl p : only_auth_msg p p.
Proof. by repeat split. Qed.

Lemma fetchAPI_settle_cases out p :
  (no_answer out = true
   /\ exists p', fetchAPI_settle out p = (Returns VNull, p')
                 /\ only_auth_msg p p')
  \/ (no_answer out = false
      /\ exists status res,
           out = Responded status (Some res) /\ status <> 401
           /\ res <> VNull
           /\ fetchAPI_settle out p = (Returns res, p)).
Proof.
  destruct out as [|status json]; simpl.
  - left. split; [done|]. exists p. split; [done|apply only_auth_msg_refl].
  - unfold fetchAPI_settle.
    destruct (status =? 401) eqn:Hs; simpl.
    + left. split; [done|]. unfold_P.
      destruct (elements p !! "auth-msg") as [e|] eqn:He; simpl.
      * eexists. split; [done|]. repeat split; simpl; try done.
        intros id Hid. by rewrite lookup_insert_ne.
      * exists p. split; [done|apply only_auth_msg_refl].
    + apply Z.eqb_neq in Hs.
      destruct json as [v|].
      * destruct v;
          try (right; split; [done|]; eexists status, _; by repeat split).
        left. split; [done|]. exists p.
        split; [done|apply only_auth_msg_refl].
      * left. split; [done|]. exists p.
        split; [done|apply only_auth_msg_refl].
Qed.

(** X13.  [fetchAPI] never rejects, whatever the network and the server
    do: it resolves to [null] exactly when the request failed, the server
    answered 401, or the body was not JSON (or was [null]), and to the
    parsed body otherwise.  All it may change on the page is the text of
    [#auth-msg], and only on a 401. *)
Theorem fetchAPI_never_rejects out p :
  exists res p',
    fetchAPI_settle out p = (Returns res, p')
    /\ (res = VNull <-> no_answer out = true)
    /\ (res = VNull \/ exists status, out = Responded status (Some res))
    /\ only_auth_msg p p'
    /\ (p' = p \/ exists json, out = Responded 401 json).
Proof.
  destruct (fetchAPI_settle_cases out p)
    as [(Hno & p' & Hrun & Hframe) | (Hno & status & res & -> & Hs & Hres & Hrun)].
  - exists VNull, p'. split; [done|]. split; [done|]. split; [by left|].
    split; [done|].
    destruct out as [|status json]; [left|].
    + unfold fetchAPI_settle in Hrun. unfold_P. by simplify_eq.
    + destruct (decide (status = 401)) as [->|Hs]; [right; by eexists|left].
      unfold fetchAPI_settle in Hrun. apply Z.eqb_neq in Hs. rewrite Hs in Hrun.
      unfold_P. destruct json; by simplify_eq.
  - exists res, p. split; [done|]. split; [split; [done|congruence]|].
    split; [right; by eexists|]. split; [apply only_auth_msg_refl|by left].
Qed.

(** X14.  When [fetchAPI] has no answer (request failed, 401, body not
    JSON), [toggleMonitorActive] and [toggleArchive] reject with a
    [TypeError] (they read [res.msg] of [null]): no notification is shown
    and the list is not reloaded.  [deleteMonitor] and [controlMonitor]
    test [res] first: they return, having started nothing. *)
Theorem actions_without_answer action out p :
  no_answer out = true ->
  exists p',
    only_auth_msg p p'
    /\ toggleMonitorActive_settle out p = (Throws TypeError, p')
    /\ toggleArchive_settle out p = (Throws TypeError, p')
    /\ deleteMonitor_settle out p = (Returns tt, p')
    /\ controlMonitor_settle action out p = (Returns tt, p').
Proof.
  intros Hno.
  destruct (fetchAPI_settle_cases out p)
    as [(_ & p' & Hrun & Hframe) | (Hno' & _)]; [|congruence].
  exists p'. split; [done|].
  unfold toggleMonitorActive_settle, toggleArchive_settle,
    deleteMonitor_settle, controlMonitor_settle, p_bind.
  by rewrite Hrun.
Qed.

Lemma actions_without_answer_witness :
  exists p',
    toggleMonitorActive_settle (Responded 401 None) admin_page
    = (Throws TypeError, p')
    /\ notifications p' = []
    /\ calls p' = [].
Proof.
  destruct (actions_without_answer "start" (Responded 401 None) admin_page)
    as (p' & (_ & _ & _ & _ & Hn & _ & Hc & _) & Ht & _); [reflexivity|].
  exists p'. split; [exact Ht|]. split; [exact Hn | exact Hc].
Defined.

Lemma succeeded_object props :
  succeeded (VObj props) = is_zero (own_property "code" props).
Proof. done. Qed.

(** X15.  When the server answers a toggle with a JSON object,
    [toggleMonitorActive] and [toggleArchive] return and show exactly one
    notification: on [code === 0] the success notification with the
    server's [msg], and the list is reloaded; otherwise the failure
    notification with the server's [msg] or, if that is empty or missing,
    the default text, and nothing is reloaded. *)
Theorem toggle_with_answer status props p :
  status <> 401 ->
  let res := VObj props in
  let msg := own_property "msg" props in
  let shown :=
    if is_zero (own_property "code" props)
    then mkNotification "操作成功" msg "success"
    else mkNotification "操作失败"
           (if truthy_value msg then msg else VStr "操作失败") "error" in
  let p' :=
    set_calls
      (calls p ++ if is_zero (own_property "code" props)
                  then [LoadMonitors] else [])
      (set_notifications (shown :: notifications p) p) in
  toggleMonitorActive_settle (Responded status (Some res)) p = (Returns tt, p')
  /\ toggleArchive_settle (Responded status (Some res)) p = (Returns tt, p').
Proof.
  intros Hs. apply Z.eqb_neq in Hs. cbv zeta.
  unfold toggleMonitorActive_settle, toggleArchive_settle, fetchAPI_settle,
    msg_or.
  unfold_P. rewrite Hs, succeeded_object.
  destruct (is_zero (own_property "code" props)); simpl.
  - done.
  - rewrite app_nil_r. by destruct p.
Qed.

Lemma toggle_with_answer_witness :
  snd (toggleArchive_settle
         (Responded 200 (Some (VObj [("code", VNum 1); ("msg", VStr "")])))
         admin_page)
  = set_notifications
      [mkNotification "操作失败" (VStr "操作失败") "error"] admin_page.
Proof.
  destruct (toggle_with_answer 200 [("code", VNum 1); ("msg", VStr "")]
              admin_page) as [_ H]; [lia|].
  rewrite H. reflexivity.
Defined.

(** ** Logging in *)

(** X16.  [verifyToken] keeps the global [currentToken] and the token in
    [localStorage] in step, whatever the server answers and whatever the
    page's elements are: on status 200 both are the token verified; on
    another status both are cleared (provided [#auth-msg] exists, as the
    message is written first); when the request fails or the body is not
    JSON both stay as they were. *)
Theorem verifyToken_keeps_token_in_step token admin out p :
  currentToken p = localStorage p !! "bili_monitor_token" ->
  let p' := snd (verifyToken_settle token admin out p) in
  currentToken p' = localStorage p' !! "bili_monitor_token"
  /\ currentToken p'
     = match out with
       | Responded status (Some _) =>
           if status =? 200 then Some token
           else match elements p !! "auth-msg" with
                | Some _ => None
                | None => currentToken p
                end
       | _ => currentToken p
       end.
Proof.
  intros Hagree. cbv zeta. unfold verifyToken_settle.
  destruct out as [|status [data|]]; [| destruct (status =? 200) |];
    try destruct admin as [[]|e]; page_run; done.
Qed.

Lemma verifyToken_keeps_token_in_step_witness :
  currentToken
    (snd (verifyToken_settle "stale" (Returns tt)
            (Responded 403 (Some (VObj []))) admin_page))
  = None
  /\ localStorage
       (snd (verifyToken_settle "stale" (Returns tt)
               (Responded 403 (Some (VObj []))) admin_page))
     !! "bili_monitor_token" = None.
Proof.
  destruct (verifyToken_keeps_token_in_step "stale" (Returns tt)
              (Responded 403 (Some (VObj []))) admin_page) as [H1 H2];
    [reflexivity|].
  cbv zeta in *. split; [exact H2|]. rewrite <- H1. exact H2.
Defined.

(** X17.  Where the page has [#auth-msg], [verifyToken] never rejects and
    starts exactly one load, whatever happens: all data after a successful
    login (status 200, [#auth-modal] present, [switchToAdminMode]
    returned), the public data in every other case. *)
Theorem verifyToken_always_loads token admin out p :
  is_Some (elements p !! "auth-msg") ->
  exists p' c,
    verifyToken_settle token admin out p = (Returns tt, p')
    /\ calls p' = calls p ++ [c]
    /\ (c = LoadAllData \/ c = LoadPublicData)
    /\ (c = LoadAllData <->
        (exists data, out = Responded 200 (Some data))
        /\ is_Some (elements p !! "auth-modal")
        /\ admin = Returns tt).
Proof.
  intros [m Hm]. unfold verifyToken_settle.
  assert (Hneq : "auth-modal" <> "auth-msg") by done.
  destruct out as [|status [data|]].
  - unfold_P. rewrite Hm. eexists _, LoadPublicData.
    repeat split; try done; [by right | intros [[? ?] _]; done].
  - destruct (status =? 200) eqn:Hs.
    + apply Z.eqb_eq in Hs as ->. unfold_P.
      cbn [elements set_localStorage set_currentToken].
      destruct (elements p !! "auth-modal") as [md|] eqn:Hmd; cbn.
      * destruct admin as [[]|e]; cbn.
        -- eexists _, LoadAllData. repeat split; try done; [by left|by eexists].
        -- rewrite lookup_insert_ne, Hm by done. cbn.
           eexists _, LoadPublicData.
           repeat split; try done; [by right | intros (_ & _ & ?); done].
      * rewrite Hm. cbn. eexists _, LoadPublicData.
        repeat split; try done; [by right | intros (_ & [? ?] & _); done].
    + apply Z.eqb_neq in Hs. unfold_P. rewrite Hm. cbn.
      eexists _, LoadPublicData.
      repeat split; try done; [by right | intros [[? ?] _]; congruence].
  - unfold_P. rewrite Hm. eexists _, LoadPublicData.
    repeat split; try done; [by right | intros [[? ?] _]; done].
Qed.

Lemma verifyToken_always_loads_witness :
  exists p',
    verifyToken_settle "secret" (Throws TypeError)
      (Responded 200 (Some (VObj []))) admin_page = (Returns tt, p')
    /\ calls p' = [LoadPublicData].
Proof.
  destruct (verifyToken_always_loads "secret" (Throws TypeError)
              (Responded 200 (Some (VObj []))) admin_page)
    as (p' & c & Hrun & Hc & [-> | ->] & Hiff); [by eexists| |].
  - destruct Hiff as [Hiff _]. by destruct (Hiff eq_refl) as (_ & _ & ?).
  - exists p'. split; [exact Hrun | exact Hc].
Defined.

(** ** The theme *)

(** X18.  [toggleTheme] shows [light] if the theme was [dark] and [dark]
    in every other case (also for a missing or unknown theme), and stores
    what it shows: a reload ([init_theme] on a page with that storage)
    shows the same theme.  A second [toggleTheme] shows [dark] if the theme
    was [dark] at first and [light] otherwise, so two toggles restore a
    theme that was [light] or [dark], and no other. *)
Theorem toggleTheme_round_trip p reloaded :
  let p1 := snd (toggleTheme p) in
  let p2 := snd (toggleTheme p1) in
  let was_dark := bool_decide (data_theme p = Some "dark") in
  data_theme p1 = Some (if was_dark then "light" else "dark")
  /\ localStorage p1 !! "theme" = data_theme p1
  /\ data_theme
       (snd (init_theme (set_localStorage (localStorage p1) reloaded)))
     = data_theme p1
  /\ data_theme p2 = Some (if was_dark then "dark" else "light")
  /\ (data_theme p2 = data_theme p
      <-> data_theme p = Some "light" \/ data_theme p = Some "dark").
Proof.
  cbv zeta. unfold toggleTheme, init_theme. unfold_P. page_simpl.
  destruct (data_theme p) as [c|] eqn:Hc.
  - destruct (String.eqb_spec c "dark") as [->|Hne].
    + rewrite bool_decide_eq_true_2 by done. page_simpl.
      rewrite !lookup_insert_eq. repeat split; try done. by right.
    + rewrite bool_decide_eq_false_2 by congruence. page_simpl.
      rewrite !lookup_insert_eq, !String.eqb_refl. repeat split; try done.
      * intros ?. left. congruence.
      * intros [?|?]; congruence.
  - rewrite bool_decide_eq_false_2 by done. page_simpl.
    rewrite !lookup_insert_eq. repeat split; try done.
    intros [?|?]; done.
Qed.

(** ** The tabs of the monitor list *)

Lemma filter_items_spec keep b items :
  (forall a, keep a = true <-> truthy_value a = b) ->
  Forall (fun item => item <> VNull /\ item <> VUndefined) items ->
  filter_items keep items
  = Returns (filter (fun item => archived item = b) items).
Proof.
  intros Hkeep. induction 1 as [|item rest [Hn Hu] _ IH]; [done|].
  cbn [filter_items]. rewrite IH, filter_cons. unfold archived.
  destruct (prop "archived" item) as [a|e] eqn:Ha; [|by destruct item].
  case_decide as Hk.
  - apply Hkeep in Hk. by rewrite Hk.
  - destruct (keep a) eqn:Hka; [|done]. by apply Hkeep in Hka.
Qed.

Lemma filter_split_perm {A} (f : A -> bool) (l : list A) :
  filter (fun x => f x = false) l ++ filter (fun x => f x = true) l ≡ₚ l.
Proof.
  induction l as [|x l IH]; [done|]. rewrite !filter_cons.
  destruct (f x) eqn:Hf; repeat case_decide; try done.
  - by rewrite <- Permutation_middle, IH.
  - cbn. by rewrite IH.
Qed.

(** X19.  [loadMonitors] shows under "active" the monitors that are not
    archived and under "archived" those that are, each in the order of the
    server's list; under any other filter the whole list.  So every monitor
    of the list is on exactly one of the two tabs.  (For a list of objects:
    an item [null] makes the filter throw.) *)
Theorem loadMonitors_tabs data items p :
  prop "monitors" data = Returns (VArr items) ->
  Forall (fun item => item <> VNull /\ item <> VUndefined) items ->
  let shown f := fst (loadMonitors_select data (set_currentFilter f p)) in
  let active := filter (fun item => archived item = false) items in
  let archived_ones := filter (fun item => archived item = true) items in
  shown "active" = Returns (Some (VArr active))
  /\ shown "archived" = Returns (Some (VArr archived_ones))
  /\ (forall f, f <> "active" -> f <> "archived" ->
                shown f = Returns (Some (VArr items)))
  /\ active ++ archived_ones ≡ₚ items
  /\ forall item, item ∈ items ->
       (item ∈ active /\ item ∉ archived_ones)
       \/ (item ∈ archived_ones /\ item ∉ active).
Proof.
  intros Hm Hitems. cbv zeta.
  assert (Hdata : truthy_value data = true) by by destruct data.
  assert (Hsel : forall f,
    fst (loadMonitors_select data (set_currentFilter f p))
    = if String.eqb f "active" then
        match filter_items (fun a => negb (truthy_value a)) items with
        | Returns kept => Returns (Some (VArr kept))
        | Throws e => Throws e
        end
      else if String.eqb f "archived" then
        match filter_items truthy_value items with
        | Returns kept => Returns (Some (VArr kept))
        | Throws e => Throws e
        end
      else Returns (Some (VArr items))).
  { intros f. unfold loadMonitors_select. rewrite Hdata. unfold_P.
    rewrite Hm. page_simpl. cbn [negb truthy_value array_filter].
    change (currentFilter (set_currentFilter f p)) with f.
    destruct (String.eqb f "active"); [by destruct (filter_items _ _)|].
    destruct (String.eqb f "archived"); [by destruct (filter_items _ _)|].
    done. }
  split; [|split; [|split; [|split]]].
  - rewrite Hsel. cbn [String.eqb Ascii.eqb Bool.eqb].
    rewrite (filter_items_spec _ false); [done| |done].
    intros a. by destruct (truthy_value a).
  - rewrite Hsel. change (String.eqb "archived" "active") with false.
    change (String.eqb "archived" "archived") with true. cbv iota.
    rewrite (filter_items_spec _ true); [done| |done]. done.
  - intros f Hf1 Hf2. rewrite Hsel.
    destruct (String.eqb_spec f "active"); [done|].
    by destruct (String.eqb_spec f "archived").
  - apply filter_split_perm.
  - intros item Hin. rewrite !list_elem_of_filter.
    destruct (archived item); [right|left]; by intuition.
Qed.

Lemma loadMonitors_tabs_witness :
  fst (loadMonitors_select
         (VObj [("code", VNum 0);
                ("monitors",
                 VArr [VObj [("id", VNum 1); ("archived", VNum 0)];
                       VObj [("id", VNum 2); ("archived", VNum 1)];
                       VObj [("id", VNum 3)]])])
         (set_currentFilter "active" admin_page))
  = Returns
      (Some (VArr [VObj [("id", VNum 1); ("archived", VNum 0)];
                   VObj [("id", VNum 3)]])).
Proof.
  destruct (loadMonitors_tabs
              (VObj [("code", VNum 0);
                     ("monitors",
                      VArr [VObj [("id", VNum 1); ("archived", VNum 0)];
                            VObj [("id", VNum 2); ("archived", VNum 1)];
                            VObj [("id", VNum 3)]])])
              [VObj [("id", VNum 1); ("archived", VNum 0)];
               VObj [("id", VNum 2); ("archived", VNum 1)];
               VObj [("id", VNum 3)]]
              admin_page) as [H _].
  - reflexivity.
  - by repeat constructor.
  - rewrite H. reflexivity.
Defined.

(** X20.  A request of [loadMonitors] that fails (no network, or a body
    that is not JSON) is handled only with a token: through [fetchAPI] the
    function returns without rendering, and the list on the page stays.
    In public mode the [fetch] is outside any [try]: [loadMonitors]
    rejects, and the page is left as it was. *)
Theorem loadMonitors_failure out p :
  failed out = true ->
  (exists p', loadMonitors_settle true out p = (Returns None, p')
              /\ only_auth_msg p p')
  /\ exists e, loadMonitors_settle false out p = (Throws e, p).
Proof.
  intros Hf. unfold loadMonitors_settle, loadMonitors_data. split.
  - destruct (fetchAPI_settle_cases out p)
      as [(_ & p' & Hrun & Hframe) | (_ & status & res & -> & _)]; [|done].
    exists p'. split; [|done]. unfold p_bind. by rewrite Hrun.
  - destruct out as [|status [v|]]; [|done|]; by eexists.
Qed.

Lemma loadMonitors_failure_witness :
  exists e, loadMonitors_settle false Rejected admin_page = (Throws e, admin_page).
Proof.
  destruct (loadMonitors_failure Rejected admin_page) as [_ H];
    [reflexivity | exact H].
Defined.

(** ** The background *)

Lemma pe_classList_remove_elem c c' e :
  c' ∈ pe_classList (pe_classList_remove c e)
  <-> c' <> c /\ c' ∈ pe_classList e.
Proof. unfold pe_classList_remove. simpl. by rewrite list_elem_of_filter. Qed.

(** X21.  [setPresetBackground(index)] does nothing for an index outside
    1..3.  Inside, the image shows the preset [index - 1], the same URL is
    stored under [background_image], and one POST to [/api/settings/save]
    carries it.  Whatever comes back (a refusal, a 401, no answer at all),
    the call then closes the modal ([#background-modal] loses [active] and
    keeps its other classes) and returns, and keeps the new background on
    the page and in the storage without a notification: a save that failed
    is not reported. *)
Theorem setPresetBackground_effect index out p q m :
  is_Some (elements p !! "background-image") ->
  elements q !! "background-modal" = Some m ->
  (if (1 <=? index) && (index <=? 3) then
     exists url e,
       presetBackgrounds !! Z.to_nat (index - 1) = Some url
       /\ fst (setPresetBackground_begin index p) = Returns true
       /\ elements (snd (setPresetBackground_begin index p))
            !! "background-image" = Some e
       /\ pe_src e = url
       /\ localStorage (snd (setPresetBackground_begin index p))
            !! "background_image" = Some url
       /\ requests (snd (setPresetBackground_begin index p))
          = requests p
            ++ [fetchAPI_request "/settings/save" "POST"
                  (VObj [("background_image", VStr url)]) p]
   else setPresetBackground_begin index p = (Returns false, p))
  /\ exists q' m',
       setPresetBackground_settle out q = (Returns tt, q')
       /\ elements q' !! "background-modal" = Some m'
       /\ ("active" ∉ pe_classList m')
       /\ (forall c, c <> "active" ->
                     c ∈ pe_classList m' <-> c ∈ pe_classList m)
       /\ elements q' !! "background-image" = elements q !! "background-image"
       /\ localStorage q' = localStorage q
       /\ notifications q' = notifications q
       /\ requests q' = requests q.
Proof.
  intros [e He] Hm. split.
  - unfold setPresetBackground_begin. change (length presetBackgrounds) with 3%nat.
    change (Z.of_nat 3) with 3.
    destruct ((1 <=? index) && (index <=? 3)) eqn:Hb; [|done].
    apply andb_true_iff in Hb as [H1 H3]. apply Z.leb_le in H1, H3.
    assert (Hi : index = 1 \/ index = 2 \/ index = 3) by lia.
    destruct Hi as [-> | [-> | ->]];
      (eexists _, _; split; [reflexivity|];
       unfold setBackground_begin, fetchAPI_request;
       cbn [to_string lookup list_lookup Z.to_nat Z.sub Z.add Z.opp Z.pos_sub
            Pos.to_nat Pos.iter_op Init.Nat.add Pos.pred_double Z.succ_double
            Z.pred_double Z.double];
       page_run; done).
  - assert (Hcls : ("active" ∉ pe_classList (pe_classList_remove "active" m))
                   /\ forall c, c <> "active" ->
                        c ∈ pe_classList (pe_classList_remove "active" m)
                        <-> c ∈ pe_classList m).
    { split.
      - rewrite pe_classList_remove_elem. by intros [? _].
      - intros c Hc. rewrite pe_classList_remove_elem. by intuition. }
    destruct Hcls as [Hc1 Hc2].
    unfold setPresetBackground_settle, setBackground_settle, closeModal.
    change (String.eqb "background-modal" "auth-modal") with false.
    destruct (fetchAPI_settle_cases out q)
      as [(_ & q' & Hrun & Hf) | (_ & status & res & _ & _ & _ & Hrun)].
    + destruct Hf as (_ & _ & Hls & _ & Hn & Hr & _ & Hel).
      unfold p_try_catch at 1. unfold p_bind at 1. unfold p_bind at 1.
      rewrite Hrun. unfold_P. rewrite (Hel "background-modal"), Hm by done.
      eexists _, (pe_classList_remove "active" m).
      split; [reflexivity|]. page_simpl. rewrite lookup_insert_eq.
      rewrite lookup_insert_ne by done. rewrite Hel by done.
      split_and!; done.
    + unfold p_try_catch at 1. unfold p_bind at 1. unfold p_bind at 1.
      rewrite Hrun. unfold_P. rewrite Hm.
      eexists _, (pe_classList_remove "active" m).
      split; [reflexivity|]. page_simpl. rewrite lookup_insert_eq.
      rewrite lookup_insert_ne by done.
      split_and!; done.
Qed.

Lemma setPresetBackground_effect_witness :
  setPresetBackground_begin 4 admin_page = (Returns false, admin_page)
  /\ exists q' m',
       setPresetBackground_settle Rejected admin_page = (Returns tt, q')
       /\ elements q' !! "background-modal" = Some m'
       /\ pe_classList m' = ["modal"]
       /\ notifications q' = [].
Proof.
  destruct (setPresetBackground_effect 4 Rejected admin_page admin_page
              (mkPElement "" ["modal"; "active"] "" ""))
    as [H1 (q' & m' & H2 & H3 & _ & _ & _ & _ & H4 & _)];
    [by eexists | reflexivity |].
  split; [exact H1|]. exists q', m'.
  split; [exact H2|]. split; [exact H3|]. split; [|exact H4].
  assert (Hq : q' = snd (setPresetBackground_settle Rejected admin_page))
    by (by rewrite H2).
  rewrite Hq in H3. vm_compute in H3. by simplify_eq.
Defined.
